(** * os.Root on platforms with openat: reference counting and path resolution

    A shallow embedding of [src/os/root_openat.go]: the [root] handle with its
    reference count ([Close], [incref], [decref]), the resolver [doInRoot]
    and the operations built on it ([rootRemoveAll], [rootRename],
    [rootLink]).

    Conventions.
    - Go's [int] is a 64-bit two's complement integer here; [x++] is
      [incr x], with the wrap-around written out.
    - Every method of [root] runs with [r.mu] held from entry to exit, so a
      method is one atomic transition of the state, and an interleaving of
      calls from several goroutines is a sequence of such transitions.
    - A Go panic aborts the computation ([Panic]); the unbounded [for] loop
      of [doInRoot] is run with fuel ([Timeout] when it runs out).
    - What the file takes from the rest of package os and from the kernel is
      gathered in the class [Platform]. *)

From Stdlib Require Import ZArith Lia Ascii.
From stdpp Require Import base tactics option list strings.

Local Open Scope Z_scope.

(** ** Integers *)

Definition intMin : Z := - 2 ^ 63.
Definition intMax : Z := 2 ^ 63 - 1.

(** Reduction of a mathematical integer to Go's [int]. *)
Definition wrap (x : Z) : Z := (x + 2 ^ 63) mod 2 ^ 64 - 2 ^ 63.

(** [x++] *)
Definition incr (x : Z) : Z := wrap (x + 1).

(** ** Errors *)

(** File descriptors ([sysfdType] is [int] on unix). *)
Definition sysfdType : Type := Z.

(** The error values that the file names, and the rest of what a system call
    may return.  [errSymlink] is the internal signal carrying a link target;
    a type assertion [err.(errSymlink)] is a match on this constructor. *)
Inductive error : Type :=
| ErrClosed
| errPathEscapes
| ENAMETOOLONG
| ELOOP
| EINVAL
| errSymlink (target : string)
| Errno (code : Z)
| errorString (msg : string)
| PathError (Op Path : string) (Err : error)
| LinkError (Op Old New : string) (Err : error).

(** ** What the file imports *)

(** The kernel's state ([World]) with the two system calls the resolver
    itself makes, and the helpers of package os that live in other files. *)
Class Platform : Type := {
  World : Type;
  (** close(2) *)
  kclose : sysfdType -> World -> World;
  (** open a directory relative to [parent]: a new descriptor, or an error,
      which is [errSymlink] when the name is a symbolic link *)
  openat : sysfdType -> string -> World -> (sysfdType + error) * World;
  (** which descriptors are open *)
  fdOpen : World -> sysfdType -> bool;
  IsPathSeparator : ascii -> bool;
  endsWithDot : string -> bool;
  IsNotExist : option error -> bool;
  underlyingError : error -> error;
  (** the path splitter: components and trailing separators of [s], joined
      with the components [prefix] before and [suffix] after it *)
  splitPathInRoot :
    string -> list string -> list string -> (list string * string) + error;
  rootMaxSymlinks : Z
}.

(** The zero value of a Go type. *)
Class Zero (T : Type) : Type := zero : T.

#[global] Instance unit_zero : Zero unit := tt.
#[global] Instance string_zero : Zero string := EmptyString.

(** ** The root handle *)

Record root : Type := mkRoot {
  name : string;
  fd : sysfdType;
  refs : Z;          (* number of active operations *)
  closed : bool;     (* set when closed *)
  cleanup : bool     (* the runtime cleanup is still registered *)
}.

Section Model.
Context `{Platform}.

(** The state a call runs in: the handle, the descriptors passed to
    [syscall.Close] so far (most recent first), and the kernel. *)
Record State : Type := mkState {
  rt : root;
  closes : list sysfdType;
  world : World
}.

Inductive outcome (A : Type) : Type :=
| Ok (a : A) (s : State)
| Panic (msg : string)
| Timeout.
Arguments Ok {A} a s.
Arguments Panic {A} msg.
Arguments Timeout {A}.

Definition M (A : Type) : Type := State -> outcome A.

Definition ret {A} (a : A) : M A := fun s => Ok a s.

Definition bind {A B} (m : M A) (k : A -> M B) : M B :=
  fun s => match m s with
           | Ok a s' => k a s'
           | Panic msg => Panic msg
           | Timeout => Timeout
           end.

Definition panic {A} (msg : string) : M A := fun _ => Panic msg.
Definition timeout {A} : M A := fun _ => Timeout.

End Model.

Arguments Ok {_ A} a s.
Arguments Panic {_ A} msg.
Arguments Timeout {_ A}.

Notation "x <- m ;; k" := (bind m (fun x => k))
  (at level 100, m at next level, right associativity).
Notation "m ;;; k" := (bind m (fun _ => k))
  (at level 100, right associativity).

Section Root.
Context `{Platform}.

Definition getRoot : M root := fun s => Ok (rt s) s.

Definition putRoot (r : root) : M unit :=
  fun s => Ok tt (mkState r (closes s) (world s)).

(** [syscall.Close(fd)]; the result of the call is dropped by every caller
    in this file. *)
Definition syscallClose (d : sysfdType) : M unit :=
  fun s => Ok tt (mkState (rt s) (d :: closes s) (kclose d (world s))).

(** [func (r *root) Close() error] *)
Definition Close : M (option error) :=
  r <- getRoot;;
  (if negb (closed r) && (refs r =? 0) then syscallClose (fd r) else ret tt);;;
  putRoot (mkRoot (name r) (fd r) (refs r) true false);;;
  ret None.

(** [func (r *root) incref() error] *)
Definition incref : M (option error) :=
  r <- getRoot;;
  if closed r then ret (Some ErrClosed)
  else
    putRoot (mkRoot (name r) (fd r) (incr (refs r)) (closed r) (cleanup r));;;
    ret None.

(** [func (r *root) decref()] *)
Definition decref : M unit :=
  r <- getRoot;;
  if refs r <=? 0 then panic "bad Root refcount"
  else
    let r' := mkRoot (name r) (fd r) (wrap (refs r - 1)) (closed r) (cleanup r) in
    putRoot r';;;
    if closed r' && (refs r' =? 0) then syscallClose (fd r') else ret tt.

(** [func (r *root) Name() string] *)
Definition Name : M string := r <- getRoot;; ret (name r).

End Root.

(** ** The resolver *)

Section Resolver.
Context `{Platform}.

Definition maxSteps : Z := 255.
Definition maxRestarts : Z := 8.

(** [rootOpenDir(parent, name)] *)
Definition rootOpenDir (parent : sysfdType) (nm : string) : M (sysfdType + error) :=
  fun s =>
    let (r, w) := openat parent nm (world s) in
    Ok r (mkState (rt s) (closes s) w).

(** [if dirfd != rootfd { syscall.Close(dirfd) }] *)
Definition closeUnlessRoot (rootfd dirfd : sysfdType) : M unit :=
  if dirfd =? rootfd then ret tt else syscallClose dirfd.

(** [slices.Equal] *)
Fixpoint slicesEqual (s1 s2 : list string) : bool :=
  match s1, s2 with
  | [], [] => true
  | x :: s1', y :: s2' => String.eqb x y && slicesEqual s1' s2'
  | _, _ => false
  end.

(** [slices.Delete(s, i, j)], for [i <= j <= len(s)] *)
Definition slicesDelete (s : list string) (i j : nat) : list string :=
  take i s ++ drop j s.

(** [for end < len(parts) && parts[end] == ".." { end++ }]; the loop makes
    at most [len(parts)] turns, which is the fuel it is run with. *)
Fixpoint scanDotDot (fuel : nat) (parts : list string) (e : nat) : nat :=
  match fuel with
  | O => e
  | S fuel' =>
      match parts !! e with
      | Some p => if String.eqb p ".." then scanDotDot fuel' parts (S e) else e
      | None => e
      end
  end.

Section Walk.
Context {T : Type}.

(** The variables of the loop of [doInRoot]; [result] is the named result
    [ret], which a call of [f] that ends in [errSymlink] has already
    assigned. *)
Record cursor : Type := mkCursor {
  parts : list string;
  suffixSep : string;
  dirfd : sysfdType;
  i : nat;
  steps : Z;
  restarts : Z;
  symlinks : Z;
  result : T
}.

(** How one turn of the loop ends: a [return], or the next turn. *)
Inductive flow : Type :=
| Return (r : T) (err : option error)
| Continue (c : cursor).

(** How the visit of a component that is not [".."] ends. *)
Inductive visited : Type :=
| VReturn (r : T) (err : option error)
| VSymlink (c : cursor) (target : string)
| VNext (c : cursor).

(** [steps > maxSteps && restarts > maxRestarts] *)
Definition overBudget (steps restarts : Z) : bool :=
  (maxSteps <? steps) && (maxRestarts <? restarts).

(** [i == len(parts)-1] *)
Definition isLast (c : cursor) : bool :=
  Z.of_nat (i c) =? Z.of_nat (length (parts c)) - 1.

(** Lines 236-259: the component at [i] is [".."]. *)
Definition dotdot (rootfd : sysfdType) (c : cursor) : M flow :=
  let restarts' := incr (restarts c) in
  let e := scanDotDot (length (parts c)) (parts c) (S (i c)) in
  let count := (e - i c)%nat in
  if (i c <? count)%nat then ret (Return (result c) (Some errPathEscapes))
  else
    let parts1 := slicesDelete (parts c) (i c - count) e in
    let parts2 := if (length parts1 =? 0)%nat then ["."%string] else parts1 in
    closeUnlessRoot rootfd (dirfd c);;;
    ret (Continue (mkCursor parts2 (suffixSep c) rootfd 0 (steps c) restarts'
                     (symlinks c) (result c))).

(** Lines 262-284: the last component is handed to [f], any other one is
    opened as a directory. *)
Definition visit (f : sysfdType -> string -> M (T * option error))
    (rootfd : sysfdType) (c : cursor) (p : string) : M visited :=
  if isLast c then
    re <- f (dirfd c) (p +:+ suffixSep c);;
    match snd re with
    | Some (errSymlink target) =>
        ret (VSymlink (mkCursor (parts c) (suffixSep c) (dirfd c) (i c) (steps c)
                         (restarts c) (symlinks c) (fst re)) target)
    | err => ret (VReturn (fst re) err)
    end
  else
    r <- rootOpenDir (dirfd c) p;;
    match r with
    | inl d =>
        closeUnlessRoot rootfd (dirfd c);;;
        ret (VNext (mkCursor (parts c) (suffixSep c) d (i c) (steps c)
                      (restarts c) (symlinks c) (result c)))
    | inr (errSymlink target) => ret (VSymlink c target)
    | inr err => ret (VReturn (result c) (Some err))
    end.

(** Lines 286-315: the component at [i] is a link to [target]. *)
Definition follow (rootfd : sysfdType) (c : cursor) (target : string) : M flow :=
  let symlinks' := incr (symlinks c) in
  if rootMaxSymlinks <? symlinks' then ret (Return (result c) (Some ELOOP))
  else
    match splitPathInRoot target (take (i c) (parts c)) (drop (S (i c)) (parts c)) with
    | inr err => ret (Return (result c) (Some err))
    | inl (newparts, newSuffixSep) =>
        let suffixSep' := if isLast c then newSuffixSep else suffixSep c in
        if (length newparts <? i c)%nat
           || negb (slicesEqual (take (i c) (parts c)) (take (i c) newparts))
        then
          closeUnlessRoot rootfd (dirfd c);;;
          ret (Continue (mkCursor newparts suffixSep' rootfd 0 (steps c) (restarts c)
                           symlinks' (result c)))
        else
          ret (Continue (mkCursor newparts suffixSep' (dirfd c) (i c) (steps c)
                           (restarts c) symlinks' (result c)))
    end.

(** One turn of the loop, lines 230-317. *)
Definition iter (f : sysfdType -> string -> M (T * option error))
    (rootfd : sysfdType) (c : cursor) : M flow :=
  let steps' := incr (steps c) in
  if overBudget steps' (restarts c) then ret (Return (result c) (Some ENAMETOOLONG))
  else
    let c := mkCursor (parts c) (suffixSep c) (dirfd c) (i c) steps' (restarts c)
               (symlinks c) (result c) in
    match parts c !! i c with
    | None => panic "index out of range"
    | Some p =>
        if String.eqb p ".." then dotdot rootfd c
        else
          v <- visit f rootfd c p;;
          match v with
          | VReturn r err => ret (Return r err)
          | VSymlink c' target => follow rootfd c' target
          | VNext c' =>
              ret (Continue (mkCursor (parts c') (suffixSep c') (dirfd c') (S (i c'))
                               (steps c') (restarts c') (symlinks c') (result c')))
          end
    end.

(** The loop; a [return] leaves with the result and with [dirfd] as it is
    then, for the deferred close. *)
Fixpoint loop (fuel : nat) (f : sysfdType -> string -> M (T * option error))
    (rootfd : sysfdType) (c : cursor) : M (T * option error * sysfdType) :=
  match fuel with
  | O => timeout
  | S fuel' =>
      fl <- iter f rootfd c;;
      match fl with
      | Return r err => ret (r, err, dirfd c)
      | Continue c' => loop fuel' f rootfd c'
      end
  end.

(** [func doInRoot[T any](r *Root, name string, f ...) (ret T, err error)];
    [r] is the handle of the state.  The two deferred calls run in reverse
    order at each [return] that follows them. *)
Definition doInRoot `{Zero T} (fuel : nat) (nm : string)
    (f : sysfdType -> string -> M (T * option error)) : M (T * option error) :=
  e <- incref;;
  match e with
  | Some err => ret (zero, Some err)
  | None =>
      out <- match splitPathInRoot nm [] [] with
             | inr err => ret (zero, Some err)
             | inl (parts0, suffixSep0) =>
                 r <- getRoot;;
                 let rootfd := fd r in
                 res <- loop fuel f rootfd
                          (mkCursor parts0 suffixSep0 rootfd 0 0 0 0 zero);;
                 closeUnlessRoot rootfd (snd res);;;
                 ret (fst res)
             end;;
      decref;;;
      ret out
  end.

End Walk.

End Resolver.

Arguments cursor : clear implicits.
Arguments flow : clear implicits.
Arguments visited : clear implicits.

(** ** The operations *)

Section Operations.
Context `{Platform}.

(** [FileMode] is a [uint32]; [time.Time] is left abstract. *)
Definition FileMode : Type := Z.
Variable Time : Type.

(** The system calls of the operations below, from the platform's files;
    they are parameters, so that a statement can speak about the states in
    which they are entered. *)
Variable chmodat : sysfdType -> string -> FileMode -> M (option error).
Variable chownat : sysfdType -> string -> Z -> Z -> M (option error).
Variable lchownat : sysfdType -> string -> Z -> Z -> M (option error).
Variable chtimesat : sysfdType -> string -> Time -> Time -> M (option error).
Variable mkdirat : sysfdType -> string -> FileMode -> M (option error).
Variable readlinkat : sysfdType -> string -> M (string * option error).
Variable removeat : sysfdType -> string -> M (option error).
Variable removeAllFrom : sysfdType -> string -> M (option error).
Variable renameat : sysfdType -> string -> sysfdType -> string -> M (option error).
Variable linkat : sysfdType -> string -> sysfdType -> string -> M (option error).

(** [if err != nil { return &PathError{Op: op, Path: name, Err: err} }; return nil] *)
Definition pathError (op nm : string) (err : option error) : option error :=
  match err with
  | Some e => Some (PathError op nm e)
  | None => None
  end.

(** [func rootChmod(r *Root, name string, mode FileMode) error] *)
Definition rootChmod (fuel : nat) (nm : string) (mode : FileMode) : M (option error) :=
  re <- doInRoot fuel nm
          (fun parent name => e <- chmodat parent name mode;; ret (tt, e));;
  ret (pathError "chmodat" nm (snd re)).

(** [func rootChown(r *Root, name string, uid, gid int) error] *)
Definition rootChown (fuel : nat) (nm : string) (uid gid : Z) : M (option error) :=
  re <- doInRoot fuel nm
          (fun parent name => e <- chownat parent name uid gid;; ret (tt, e));;
  ret (pathError "chownat" nm (snd re)).

(** [func rootLchown(r *Root, name string, uid, gid int) error] *)
Definition rootLchown (fuel : nat) (nm : string) (uid gid : Z) : M (option error) :=
  re <- doInRoot fuel nm
          (fun parent name => e <- lchownat parent name uid gid;; ret (tt, e));;
  ret (pathError "lchownat" nm (snd re)).

(** [func rootChtimes(r *Root, name string, atime time.Time, mtime time.Time) error] *)
Definition rootChtimes (fuel : nat) (nm : string) (atime mtime : Time)
    : M (option error) :=
  re <- doInRoot fuel nm
          (fun parent name => e <- chtimesat parent name atime mtime;; ret (tt, e));;
  ret (pathError "chtimesat" nm (snd re)).

(** [func rootMkdir(r *Root, name string, perm FileMode) error] *)
Definition rootMkdir (fuel : nat) (nm : string) (perm : FileMode) : M (option error) :=
  re <- doInRoot fuel nm
          (fun parent name => e <- mkdirat parent name perm;; ret (tt, e));;
  ret (pathError "mkdirat" nm (snd re)).

(** [func rootReadlink(r *Root, name string) (string, error)] *)
Definition rootReadlink (fuel : nat) (nm : string) : M (string * option error) :=
  re <- doInRoot fuel nm (fun parent name => readlinkat parent name);;
  match snd re with
  | Some err => ret (EmptyString, Some (PathError "readlinkat" nm err))
  | None => ret (fst re, None)
  end.

(** [func rootRemove(r *Root, name string) error] *)
Definition rootRemove (fuel : nat) (nm : string) : M (option error) :=
  re <- doInRoot fuel nm
          (fun parent name => e <- removeat parent name;; ret (tt, e));;
  ret (pathError "removeat" nm (snd re)).

(** [name[len(name)-1]] is a path separator *)
Definition lastIsSeparator (nm : string) : bool :=
  match String.get (String.length nm - 1) nm with
  | Some ch => IsPathSeparator ch
  | None => false
  end.

(** [for len(name) > 0 && IsPathSeparator(name[len(name)-1]) { name = name[:len(name)-1] }];
    the loop makes at most [len(name)] turns. *)
Fixpoint stripTrailing (fuel : nat) (nm : string) : string :=
  match fuel with
  | O => nm
  | S fuel' =>
      if (0 <? String.length nm)%nat && lastIsSeparator nm
      then stripTrailing fuel' (String.substring 0 (String.length nm - 1) nm)
      else nm
  end.

(** [func rootRemoveAll(r *Root, name string) error] *)
Definition rootRemoveAll (fuel : nat) (nm : string) : M (option error) :=
  let nm := stripTrailing (String.length nm) nm in
  if endsWithDot nm then ret (Some (PathError "RemoveAll" nm EINVAL))
  else
    re <- doInRoot fuel nm
            (fun parent name => e <- removeAllFrom parent name;; ret (tt, e));;
    if IsNotExist (snd re) then ret None
    else
      match snd re with
      | Some err => ret (Some (PathError "RemoveAll" nm (underlyingError err)))
      | None => ret None
      end.

(** [func rootRename(r *Root, oldname, newname string) error] *)
Definition rootRename (fuel : nat) (oldname newname : string) : M (option error) :=
  re <- doInRoot fuel oldname
          (fun oldparent oldname' =>
             re' <- doInRoot fuel newname
                      (fun newparent newname' =>
                         e <- renameat oldparent oldname' newparent newname';;
                         ret (tt, e));;
             ret (tt, snd re'));;
  match snd re with
  | Some err => ret (Some (LinkError "renameat" oldname newname err))
  | None => ret None
  end.

(** [func rootLink(r *Root, oldname, newname string) error] *)
Definition rootLink (fuel : nat) (oldname newname : string) : M (option error) :=
  re <- doInRoot fuel oldname
          (fun oldparent oldname' =>
             re' <- doInRoot fuel newname
                      (fun newparent newname' =>
                         e <- linkat oldparent oldname' newparent newname';;
                         ret (tt, e));;
             ret (tt, snd re'));;
  match snd re with
  | Some err => ret (Some (LinkError "linkat" oldname newname err))
  | None => ret None
  end.

End Operations.

(** ** Vocabulary of the statements *)

Section Vocabulary.
Context `{Platform}.

(** A handle as [OpenRoot] leaves it: no operation in flight, not closed,
    nothing closed yet. *)
Definition newRoot (nm : string) (d : sysfdType) (w : World) : State :=
  mkState (mkRoot nm d 0 false true) [] w.

(** The calls that goroutines sharing one handle interleave: the three
    methods, the closes that a resolver makes of a directory it has walked
    into, and the other system calls of an operation, which act on the
    kernel. *)
Inductive call : Type :=
| CallClose
| CallIncref
| CallDecref
| CallCloseDir (dirfd : sysfdType)
| CallKernel (g : World -> World).

Definition perform (c : call) : M unit :=
  match c with
  | CallClose => Close;;; ret tt
  | CallIncref => incref;;; ret tt
  | CallDecref => decref
  | CallCloseDir d => r <- getRoot;; closeUnlessRoot (fd r) d
  | CallKernel g => fun s => Ok tt (mkState (rt s) (closes s) (g (world s)))
  end.

Fixpoint performAll (cs : list call) : M unit :=
  match cs with
  | [] => ret tt
  | c :: cs' => perform c;;; performAll cs'
  end.

(** How many times [syscall.Close] was applied to the handle's descriptor. *)
Definition released (s : State) : nat :=
  length (filter (fun d => d = fd (rt s)) (closes s)).

(** The count of operations in flight is a Go [int]. *)
Definition refsInRange (s : State) : Prop := intMin <= refs (rt s) <= intMax.

(** The invariant of the handle: its descriptor has been closed once if the
    handle is closed with no operation in flight, and not at all otherwise. *)
Definition releasedWhenDue (s : State) : Prop :=
  released s = if closed (rt s) && (refs (rt s) =? 0) then 1%nat else 0%nat.

(** The state after [syscall.Close(d)]. *)
Definition afterClose (d : sysfdType) (s : State) : State :=
  mkState (rt s) (d :: closes s) (kclose d (world s)).

(** The state after the close that the resolver makes when it leaves
    [dirfd] for the root. *)
Definition afterCloseUnlessRoot (rootfd dirfd : sysfdType) (s : State) : State :=
  if dirfd =? rootfd then s else afterClose dirfd s.

(** Length of the run of [".."] at the head of a list. *)
Fixpoint dotdotRun (l : list string) : nat :=
  match l with
  | p :: l' => if String.eqb p ".." then S (dotdotRun l') else O
  | [] => O
  end.

Section Turns.
Context {T : Type}.
Variable f : sysfdType -> string -> M (T * option error).
Variable rootfd : sysfdType.

(** The cursor after [n] turns of the loop, none of which returns. *)
Fixpoint advance (n : nat) (c : cursor T) : M (option (cursor T)) :=
  match n with
  | O => ret (Some c)
  | S n' =>
      fl <- iter f rootfd c;;
      match fl with
      | Return _ _ => ret None
      | Continue c' => advance n' c'
      end
  end.

(** The cursor of a turn once [steps++] has been done. *)
Definition stepped (c : cursor T) : cursor T :=
  mkCursor (parts c) (suffixSep c) (dirfd c) (i c) (incr (steps c)) (restarts c)
    (symlinks c) (result c).

(** The turn at [c] meets a Symlink Signal: it is within budget, its
    component is not [".."], and [f] or [rootOpenDir] answers [errSymlink]. *)
Definition signalled (c : cursor T) (s : State) : bool :=
  negb (overBudget (incr (steps c)) (restarts c)) &&
  match parts c !! i c with
  | Some p =>
      negb (String.eqb p "..") &&
      match visit f rootfd (stepped c) p s with
      | Ok (VSymlink _ _) _ => true
      | _ => false
      end
  | None => false
  end.

(** Number of Symlink Signals met in the first [n] turns. *)
Fixpoint hops (n : nat) (c : cursor T) (s : State) : nat :=
  match n with
  | O => O
  | S n' =>
      match iter f rootfd c s with
      | Ok (Continue c') s' => ((if signalled c s then 1 else 0) + hops n' c' s')%nat
      | _ => O
      end
  end.

End Turns.

(** Neither the leaf action, nor [openat], nor the splitter answers with
    the error [e0]; when the resolver then returns [e0], the error is its
    own. *)
Definition neverAnswers {T} (e0 : error)
    (f : sysfdType -> string -> M (T * option error)) : Prop :=
  (forall d n s r s', f d n s = Ok r s' -> snd r <> Some e0) /\
  (forall d n w e w', openat d n w = (inr e, w') -> e <> e0) /\
  (forall t pre suf e, splitPathInRoot t pre suf = inr e -> e <> e0).

(** The component list once a run of [count] components [".."] at [i] has
    been cancelled against the [count] components before it. *)
Definition cancelled (l : list string) (i count : nat) : list string :=
  match take (i - count) l ++ drop (i + count) l with
  | [] => ["."%string]
  | l' => l'
  end.

(** Every byte of [seps] is a path separator. *)
Definition allSeparators (seps : string) : Prop :=
  forall k ch, String.get k seps = Some ch -> IsPathSeparator ch = true.

(** The cursor [doInRoot] starts the loop with. *)
Definition startCursor {T} `{Zero T} (parts0 : list string) (sep0 : string)
    (rootfd : sysfdType) : cursor T :=
  mkCursor parts0 sep0 rootfd 0 0 0 0 zero.

(** Contract of the path splitter that the indexing of [doInRoot] relies
    on: a result has a component, and one that starts with the prefix it
    was given goes on beyond it. *)
Definition splitCoversCursor : Prop :=
  forall t pre suf ps sep,
    splitPathInRoot t pre suf = inl (ps, sep) ->
    ps <> [] /\ (take (length pre) ps = pre -> (length pre < length ps)%nat).

(** Contract of the kernel's descriptor table: [openat] returns a descriptor
    that was not open, and only [close] closes one. *)
Definition kernelFds : Prop :=
  (forall d n w d' w', openat d n w = (inl d', w') ->
     fdOpen w d' = false /\ forall x, fdOpen w' x = (x =? d') || fdOpen w x) /\
  (forall d n w e w', openat d n w = (inr e, w') ->
     forall x, fdOpen w' x = fdOpen w x) /\
  (forall d w x, fdOpen (kclose d w) x = negb (x =? d) && fdOpen w x).

(** A two-parent system call: it acts on the kernel only, and leaves the
    descriptor table as it is. *)
Definition worldOnly
    (prim : sysfdType -> string -> sysfdType -> string -> M (option error)) : Prop :=
  forall op on np nn s,
    exists e w, prim op on np nn s = Ok e (mkState (rt s) (closes s) w) /\
                forall x, fdOpen w x = fdOpen (world s) x.

(** [prim], entered only in the states that [ok] accepts. *)
Definition guarded (ok : sysfdType -> sysfdType -> State -> bool)
    (prim : sysfdType -> string -> sysfdType -> string -> M (option error))
    : sysfdType -> string -> sysfdType -> string -> M (option error) :=
  fun op on np nn s =>
    if ok op np s then prim op on np nn s else Panic "primitive entered too early or too late".

(** The handle, not closed, is held [k] times more than at [refs0]. *)
Definition heldTimes (refs0 k : Z) (op np : sysfdType) (s : State) : bool :=
  (refs (rt s) =? refs0 + k) && negb (closed (rt s)).

(** Both parents are open descriptors. *)
Definition bothOpen (op np : sysfdType) (s : State) : bool :=
  fdOpen (world s) op && fdOpen (world s) np.

Definition parentsLive (refs0 k : Z) (op np : sysfdType) (s : State) : bool :=
  bothOpen op np s && heldTimes refs0 k op np s.

(** The handle while [doInRoot] holds its reference. *)
Definition held (r : root) : root :=
  mkRoot (name r) (fd r) (refs r + 1) false (cleanup r).

(** The resolution of the old path, with that of the new path as its leaf
    action: what [rootRename] and [rootLink] have in common. *)
Definition resolveBoth
    (p : sysfdType -> string -> sysfdType -> string -> M (option error))
    (fuel : nat) (oldname newname : string) : M (unit * option error) :=
  doInRoot fuel oldname
    (fun oldparent oldname' =>
       re' <- doInRoot fuel newname
                (fun newparent newname' =>
                   e <- p oldparent oldname' newparent newname';; ret (tt, e));;
       ret (tt, snd re')).

(** The descriptors in [P] are open. *)
Definition opens (P : sysfdType -> Prop) (s : State) : Prop :=
  forall d, P d -> fdOpen (world s) d = true.

(** What a walk from [rootfd] that now stands in [dirfd] keeps true while
    descriptors [P] are held by its callers: the handle is as [r1], the
    root's descriptor, the walk's and the callers' are open, and the walk's
    is not one of the callers' unless it is the root's. *)
Definition walkInv (P : sysfdType -> Prop) (rootfd : sysfdType) (r1 : root)
    (dirfd : sysfdType) (s : State) : Prop :=
  rt s = r1 /\ fdOpen (world s) rootfd = true /\ fdOpen (world s) dirfd = true
  /\ opens P s /\ (dirfd = rootfd \/ ~ P dirfd).

(** Two leaf actions that do the same wherever [walkInv] holds, and keep
    it. *)
Definition leavesAgree {T} (P : sysfdType -> Prop) (rootfd : sysfdType) (r1 : root)
    (f f' : sysfdType -> string -> M (T * option error)) : Prop :=
  forall d nm s,
    walkInv P rootfd r1 d s ->
    f d nm s = f' d nm s /\
    forall a s', f d nm s = Ok a s' -> walkInv P rootfd r1 d s'.

End Vocabulary.

(** ** Vocabulary of the further properties *)

Section MoreVocabulary.
Context `{Platform}.

(** Number of components [".."] of a list. *)
Definition dotdots (l : list string) : nat :=
  length (filter (fun p => p = ".."%string) l).

(** No component of the list is [".."]. *)
Definition noDotDot (l : list string) : Prop :=
  Forall (fun p => p <> ".."%string) l.

(** Neither the leaf action nor [openat] meets a symbolic link. *)
Definition linkFree {T} (f : sysfdType -> string -> M (T * option error)) : Prop :=
  (forall d n s r s' t, f d n s = Ok r s' -> snd r <> Some (errSymlink t)) /\
  (forall d n w t w', openat d n w <> (inr (errSymlink t), w')).

(** The errors that the resolution of a path makes itself, as opposed to
    those its leaf action returns: that of a closed handle, those of the
    loop, those of the path splitter and those of [openat]. *)
Definition resolutionError (e : error) : Prop :=
  e = ErrClosed \/ e = ENAMETOOLONG \/ e = errPathEscapes \/ e = ELOOP
  \/ (exists t pre suf, splitPathInRoot t pre suf = inr e)
  \/ (exists d n w w', openat d n w = (inr e, w')).

(** The error is a [*PathError] of the operation [op] on [nm], around an
    error that is not the signal of a link. *)
Definition wrapped (op nm : string) (e : error) : Prop :=
  exists e0, e = PathError op nm e0 /\ forall x, e0 <> errSymlink x.

(** The error is a [*LinkError] of the operation [op] on the two names,
    around an error that is not the signal of a link. *)
Definition wrappedLink (op oldname newname : string) (e : error) : Prop :=
  exists e0, e = LinkError op oldname newname e0 /\ forall x, e0 <> errSymlink x.

(** The walk of the components [ps] from the directory [dirfd], written
    without the loop, for a path in which nothing makes the loop start again:
    each component but the last is opened in the directory reached so far,
    which is then closed unless it is the root's, and the last one is handed
    to [f] with the trailing separators.  The result is that of the loop: the
    value, the error, and the directory held at the [return]. *)
Fixpoint descend {T} (f : sysfdType -> string -> M (T * option error))
    (rootfd dirfd : sysfdType) (res : T) (ps : list string) (sep : string)
    : M (T * option error * sysfdType) :=
  match ps with
  | [] => panic "index out of range"
  | p :: rest =>
      match rest with
      | [] => re <- f dirfd (p +:+ sep);; ret (fst re, snd re, dirfd)
      | _ :: _ =>
          r <- rootOpenDir dirfd p;;
          match r with
          | inl d => closeUnlessRoot rootfd dirfd;;; descend f rootfd d res rest sep
          | inr err => ret (res, Some err, dirfd)
          end
      end
  end.

End MoreVocabulary.

(** ** A small platform, to run the model on *)

Module Demo.

(** A directory tree with symbolic links. *)
#[local] Unset Elimination Schemes.
Inductive node : Type :=
| Dir (entries : list (string * node))
| File
| Link (target : string).
#[local] Set Elimination Schemes.

Fixpoint entry (nm : string) (es : list (string * node)) : option node :=
  match es with
  | [] => None
  | (k, n) :: es' => if String.eqb k nm then Some n else entry nm es'
  end.

Fixpoint lookupPath (n : node) (path : list string) : option node :=
  match path with
  | [] => Some n
  | x :: rest =>
      if String.eqb x "." then lookupPath n rest
      else
        match n with
        | Dir es =>
            match entry x es with
            | Some child => lookupPath child rest
            | None => None
            end
        | _ => None
        end
  end.

(** The kernel: the tree, the directory each open descriptor stands for,
    and the renames and links done so far. *)
Record kernel : Type := mkKernel {
  tree : node;
  fdtab : list (sysfdType * list string);
  journal : list (list string * list string)
}.

Fixpoint dirOf (d : sysfdType) (tab : list (sysfdType * list string))
    : option (list string) :=
  match tab with
  | [] => None
  | (k, p) :: tab' => if k =? d then Some p else dirOf d tab'
  end.

(** A descriptor number above every one in the table. *)
Fixpoint freshFd (tab : list (sysfdType * list string)) : sysfdType :=
  match tab with
  | [] => 0
  | (k, _) :: tab' => Z.max (k + 1) (freshFd tab')
  end.

Definition EBADF : error := Errno 9.
Definition ENOENT : error := Errno 2.
Definition ENOTDIR : error := Errno 20.

Definition demo_openat (parent : sysfdType) (nm : string) (w : kernel)
        : (sysfdType + error) * kernel :=
  match dirOf parent (fdtab w) with
  | None => (inr EBADF, w)
  | Some dir =>
      match lookupPath (tree w) (dir ++ [nm]) with
      | Some (Dir _) =>
          let d := freshFd (fdtab w) in
          (inl d, mkKernel (tree w) ((d, dir ++ [nm]) :: fdtab w) (journal w))
      | Some (Link t) => (inr (errSymlink t), w)
      | Some File => (inr ENOTDIR, w)
      | None => (inr ENOENT, w)
      end
  end.

Definition demo_kclose (d : sysfdType) (w : kernel) : kernel :=
  mkKernel (tree w) (filter (fun e => fst e <> d) (fdtab w)) (journal w).

Definition demo_fdOpen (w : kernel) (d : sysfdType) : bool :=
  match dirOf d (fdtab w) with Some _ => true | None => false end.

Definition isSep (ch : ascii) : bool := Ascii.eqb ch "/".

(** The pieces of a string between separators. *)
Fixpoint pieces (s : string) : list string :=
  match s with
  | EmptyString => [EmptyString]
  | String ch s' =>
      if isSep ch then EmptyString :: pieces s'
      else
        match pieces s' with
        | p :: ps => String ch p :: ps
        | [] => [String ch EmptyString]
        end
  end.

Definition components (s : string) : list string :=
  filter (fun p => p <> EmptyString) (pieces s).

(** The separators that end a string. *)
Fixpoint trailing (s : string) : string :=
  match s with
  | EmptyString => EmptyString
  | String ch s' =>
      let t := trailing s' in
      if isSep ch && (String.length t =? String.length s')%nat then String ch t else t
  end.

(** ["."] components go, except a final one. *)
Fixpoint dropDots (l : list string) : list string :=
  match l with
  | [] => []
  | p :: rest =>
      match rest with
      | [] => [p]
      | _ => if String.eqb p "." then dropDots rest else p :: dropDots rest
      end
  end.

Fixpoint hasNul (s : string) : bool :=
  match s with
  | EmptyString => false
  | String ch s' => Ascii.eqb ch Ascii.zero || hasNul s'
  end.

(** Modelled from the spec: [splitPathInRoot] is defined in another file of
    package os.  Following the Path Splitter of the spec, the path is cut
    at separators into an ordered list of components, normalized (no empty
    and no inner ["."] component), between the components already resolved
    and those not yet consumed, with the separators that end the path kept
    apart; an empty path, an absolute one and one with a NUL byte are
    rejected. *)
Definition demo_splitPathInRoot (s : string) (pre suf : list string)
    : (list string * string) + error :=
  match s with
  | EmptyString => inr (errorString "empty path")
  | String ch _ =>
      if isSep ch then inr errPathEscapes
      else if hasNul s then inr EINVAL
      else
        let mid := dropDots (components s) in
        let mid' := match suf with
                    | [] => mid
                    | _ => match last mid with
                           | Some p => if String.eqb p "." then removelast mid else mid
                           | None => mid
                           end
                    end in
        inl (pre ++ mid' ++ suf, trailing s)
  end.

(** Modelled from the spec: [endsWithDot] is defined in another file of
    package os; the path is ["."] or ends with the component ["."]. *)
Definition demo_endsWithDot (s : string) : bool :=
  match last (pieces s) with
  | Some p => String.eqb p "."
  | None => false
  end.

Fixpoint demo_underlyingError (e : error) : error :=
  match e with
  | PathError _ _ e' => demo_underlyingError e'
  | LinkError _ _ _ e' => demo_underlyingError e'
  | _ => e
  end.

Definition demo_IsNotExist (e : option error) : bool :=
  match e with
  | Some e' => match demo_underlyingError e' with
               | Errno 2 => true
               | _ => false
               end
  | None => false
  end.

#[export] Instance demoPlatform : Platform := {|
  World := kernel;
  kclose := demo_kclose;
  openat := demo_openat;
  fdOpen := demo_fdOpen;
  IsPathSeparator := isSep;
  endsWithDot := demo_endsWithDot;
  IsNotExist := demo_IsNotExist;
  underlyingError := demo_underlyingError;
  splitPathInRoot := demo_splitPathInRoot;
  rootMaxSymlinks := 8
|}.

(** A leaf action that follows links: the kind of the entry.  The name
    comes with the separators that ended the path, which ask for a
    directory. *)
Definition kindAt (parent : sysfdType) (nm : string) : M (string * option error) :=
  fun s =>
    match dirOf parent (fdtab (world s)), components nm with
    | None, _ => Ok (EmptyString, Some EBADF) s
    | Some dir, [p] =>
        match lookupPath (tree (world s)) (dir ++ [p]) with
        | Some (Dir _) => Ok ("directory"%string, None) s
        | Some File =>
            if String.eqb (trailing nm) EmptyString then Ok ("file"%string, None) s
            else Ok (EmptyString, Some ENOTDIR) s
        | Some (Link t) => Ok (EmptyString, Some (errSymlink t)) s
        | None => Ok (EmptyString, Some ENOENT) s
        end
    | Some _, _ => Ok (EmptyString, Some EINVAL) s
    end.

(** A two-parent system call that only records its arguments. *)
Definition journalAt : sysfdType -> string -> sysfdType -> string -> M (option error) :=
  fun op on np nn s =>
    match dirOf op (fdtab (world s)), dirOf np (fdtab (world s)) with
    | Some od, Some nd =>
        Ok None (mkState (rt s) (closes s)
                   (mkKernel (tree (world s)) (fdtab (world s))
                      ((od ++ [on], nd ++ [nn]) :: journal (world s))))
    | _, _ => Ok (Some EBADF) s
    end.

(** A recursive remove that finds nothing to remove. *)
Definition removeNothing : sysfdType -> string -> M (option error) :=
  fun _ _ s => Ok (Some ENOENT) s.

(**   a/b/       a directory in a directory
      a/f        a file
      up    ->   a/b/../..   
      self  ->   .
      out   ->   ../etc   *)
Definition demoTree : node :=
  Dir [("a"%string, Dir [("b"%string, Dir []); ("f"%string, File)]);
       ("up"%string, Link "a/b/../..");
       ("self"%string, Link ".");
       ("out"%string, Link "../etc")].

Definition demoState : State :=
  newRoot "root" 3 (mkKernel demoTree [(3, [])] []).

(** Three hundred components [".."]. *)
Definition manyDotDots : string := String.concat "/" (replicate 300 ".."%string).

(** The handle after [Close]. *)
Definition closedState : State :=
  mkState (mkRoot "root" 3 0 true false) [3] (mkKernel demoTree [] []).

(** A system call that must not be entered. *)
Definition neverEntered : sysfdType -> string -> FileMode -> M (option error) :=
  fun _ _ _ => panic "system call entered".

(** A kernel that does not report links: for its [openat] a link is an
    entry that is not a directory. *)
Definition plain_openat (parent : sysfdType) (nm : string) (w : kernel)
    : (sysfdType + error) * kernel :=
  match demo_openat parent nm w with
  | (inr (errSymlink _), w') => (inr ENOTDIR, w')
  | r => r
  end.

Definition plainPlatform : Platform := {|
  World := kernel;
  kclose := demo_kclose;
  openat := plain_openat;
  fdOpen := demo_fdOpen;
  IsPathSeparator := isSep;
  endsWithDot := demo_endsWithDot;
  IsNotExist := demo_IsNotExist;
  underlyingError := demo_underlyingError;
  splitPathInRoot := demo_splitPathInRoot;
  rootMaxSymlinks := 8
|}.

(** A leaf action that does not follow links: the kind of the entry
    itself. *)
Definition lkindAt (parent : sysfdType) (nm : string)
    : @M plainPlatform (string * option error) :=
  fun s =>
    match dirOf parent (fdtab (world s)), components nm with
    | None, _ => Ok (EmptyString, Some EBADF) s
    | Some dir, [p] =>
        match lookupPath (tree (world s)) (dir ++ [p]) with
        | Some (Dir _) => Ok ("directory"%string, None) s
        | Some File => Ok ("file"%string, None) s
        | Some (Link _) => Ok ("link"%string, None) s
        | None => Ok (EmptyString, Some ENOENT) s
        end
    | Some _, _ => Ok (EmptyString, Some EINVAL) s
    end.

Definition plainState : @State plainPlatform :=
  @newRoot plainPlatform "root" 3 (mkKernel demoTree [(3, [])] []).

End Demo.

(** * Theorems *)

(** ** Integers *)

Lemma wrap_id (x : Z) : intMin <= x <= intMax -> wrap x = x.
Proof.
  unfold wrap, intMin, intMax. intros Hx.
  rewrite Z.mod_small; lia.
Qed.

Lemma wrap_range (x : Z) : intMin <= wrap x <= intMax.
Proof.
  unfold wrap, intMin, intMax.
  pose proof (Z.mod_pos_bound (x + 2 ^ 63) (2 ^ 64)). lia.
Qed.

Lemma incr_small (x : Z) : intMin <= x < intMax -> incr x = x + 1.
Proof. intros Hx. unfold incr. apply wrap_id. lia. Qed.

Lemma incr_range (x : Z) : intMin <= incr x <= intMax.
Proof. apply wrap_range. Qed.

(** ** The root handle *)

Section RootFacts.
Context `{Platform}.

Lemma Close_eq (s : State) :
  Close s =
  Ok None (mkState (mkRoot (name (rt s)) (fd (rt s)) (refs (rt s)) true false)
             (if negb (closed (rt s)) && (refs (rt s) =? 0)
              then fd (rt s) :: closes s else closes s)
             (if negb (closed (rt s)) && (refs (rt s) =? 0)
              then kclose (fd (rt s)) (world s) else world s)).
Proof.
  unfold Close, bind, getRoot, putRoot, syscallClose, ret.
  destruct (negb (closed (rt s)) && (refs (rt s) =? 0)); reflexivity.
Qed.

Lemma incref_open (s : State) :
  closed (rt s) = false ->
  incref s =
  Ok None (mkState (mkRoot (name (rt s)) (fd (rt s)) (incr (refs (rt s))) false
                      (cleanup (rt s)))
             (closes s) (world s)).
Proof.
  intros Hc. unfold incref, bind, getRoot, putRoot, ret. rewrite Hc. reflexivity.
Qed.

Lemma incref_closed (s : State) :
  closed (rt s) = true -> incref s = Ok (Some ErrClosed) s.
Proof.
  intros Hc. unfold incref, bind, getRoot, ret. rewrite Hc. reflexivity.
Qed.

Lemma decref_eq (s : State) :
  0 < refs (rt s) <= intMax ->
  decref s =
  Ok tt (mkState (mkRoot (name (rt s)) (fd (rt s)) (refs (rt s) - 1) (closed (rt s))
                    (cleanup (rt s)))
           (if closed (rt s) && (refs (rt s) =? 1)
            then fd (rt s) :: closes s else closes s)
           (if closed (rt s) && (refs (rt s) =? 1)
            then kclose (fd (rt s)) (world s) else world s)).
Proof.
  intros Hr. unfold decref, bind, getRoot, putRoot, syscallClose, ret, panic.
  destruct (Z.leb_spec (refs (rt s)) 0); [lia|].
  rewrite wrap_id by (unfold intMin, intMax in *; lia). simpl.
  replace (refs (rt s) - 1 =? 0) with (refs (rt s) =? 1)
    by (destruct (Z.eqb_spec (refs (rt s)) 1), (Z.eqb_spec (refs (rt s) - 1) 0); lia).
  destruct (closed (rt s) && (refs (rt s) =? 1)); reflexivity.
Qed.

Lemma decref_panics (s : State) :
  refs (rt s) <= 0 -> decref s = Panic "bad Root refcount".
Proof.
  intros Hr. unfold decref, bind, getRoot, panic.
  destruct (Z.leb_spec (refs (rt s)) 0); [reflexivity|lia].
Qed.

Lemma perform_invariant (c : call) (s s' : State) :
  perform c s = Ok tt s' ->
  refsInRange s -> releasedWhenDue s ->
  refsInRange s' /\ releasedWhenDue s'.
Proof.
  unfold refsInRange, releasedWhenDue. intros Hrun Hrange Hinv.
  destruct c as [| | |dirfd0|g]; simpl in Hrun.
  - (* Close *)
    unfold bind in Hrun. rewrite Close_eq in Hrun. unfold ret in Hrun.
    injection Hrun as <-. simpl. split; [done|].
    destruct (closed (rt s)) eqn:Hc, (refs (rt s) =? 0) eqn:Hz; simpl in *;
      unfold released in *; simpl; rewrite ?filter_cons_True by done; simpl; lia.
  - (* incref *)
    unfold bind in Hrun. destruct (closed (rt s)) eqn:Hc.
    + rewrite incref_closed in Hrun by done. unfold ret in Hrun.
      injection Hrun as <-. rewrite Hc. done.
    + rewrite incref_open in Hrun by done. unfold ret in Hrun.
      injection Hrun as <-. simpl. split; [apply incr_range|].
      simpl in Hinv. exact Hinv.
  - (* decref *)
    destruct (Z.leb_spec (refs (rt s)) 0) as [Hle|Hgt].
    + rewrite decref_panics in Hrun by done. discriminate.
    + rewrite decref_eq in Hrun by lia. injection Hrun as <-. simpl.
      split; [unfold intMin in *; lia|].
      replace (refs (rt s) =? 0) with false in Hinv
        by (symmetry; apply Z.eqb_neq; lia).
      rewrite andb_false_r in Hinv.
      replace (refs (rt s) - 1 =? 0) with (refs (rt s) =? 1)
        by (destruct (Z.eqb_spec (refs (rt s)) 1), (Z.eqb_spec (refs (rt s) - 1) 0); lia).
      unfold released in *. simpl.
      destruct (closed (rt s) && (refs (rt s) =? 1)); simpl;
        rewrite ?filter_cons_True by done; simpl; lia.
  - (* a close by a resolver *)
    unfold bind, getRoot, closeUnlessRoot in Hrun.
    destruct (Z.eqb_spec dirfd0 (fd (rt s))) as [->|Hne].
    + unfold ret in Hrun. injection Hrun as <-. done.
    + unfold syscallClose in Hrun. injection Hrun as <-. simpl. split; [done|].
      unfold released in *. simpl. rewrite filter_cons_False by done. done.
  - (* a system call of an operation *)
    injection Hrun as <-. done.
Qed.

Lemma performAll_invariant (cs : list call) (s s' : State) :
  performAll cs s = Ok tt s' ->
  refsInRange s -> releasedWhenDue s ->
  refsInRange s' /\ releasedWhenDue s'.
Proof.
  revert s. induction cs as [|c cs IH]; intros s Hrun Hrange Hinv; simpl in Hrun.
  - unfold ret in Hrun. injection Hrun as <-. done.
  - unfold bind in Hrun. destruct (perform c s) as [[] s1| |] eqn:Hc; try discriminate.
    destruct (perform_invariant _ _ _ Hc Hrange Hinv). eauto.
Qed.

Lemma perform_closed (c : call) (s s' : State) :
  perform c s = Ok tt s' -> closed (rt s) = true -> closed (rt s') = true.
Proof.
  intros Hrun Hc. destruct c as [| | |dirfd0|g]; simpl in Hrun.
  - unfold bind in Hrun. rewrite Close_eq in Hrun. unfold ret in Hrun.
    injection Hrun as <-. done.
  - unfold bind in Hrun. rewrite incref_closed in Hrun by done. unfold ret in Hrun.
    injection Hrun as <-. done.
  - unfold decref, bind, getRoot, putRoot, syscallClose, ret, panic in Hrun.
    destruct (refs (rt s) <=? 0); [discriminate|]. simpl in Hrun.
    destruct (closed (rt s) && _) in Hrun; injection Hrun as <-; done.
  - unfold bind, getRoot, closeUnlessRoot, syscallClose, ret in Hrun.
    destruct (dirfd0 =? fd (rt s)); injection Hrun as <-; done.
  - injection Hrun as <-. done.
Qed.

Lemma performAll_closed (cs : list call) (s s' : State) :
  performAll cs s = Ok tt s' -> closed (rt s) = true -> closed (rt s') = true.
Proof.
  revert s. induction cs as [|c cs IH]; intros s Hrun Hc; simpl in Hrun.
  - unfold ret in Hrun. injection Hrun as <-. done.
  - unfold bind in Hrun. destruct (perform c s) as [[] s1| |] eqn:Hp; try discriminate.
    eauto using perform_closed.
Qed.

End RootFacts.

Section RootClaims.
Context `{Platform}.

Lemma newRoot_invariant (nm : string) (d : sysfdType) (w : World) :
  refsInRange (newRoot nm d w) /\ releasedWhenDue (newRoot nm d w).
Proof. unfold refsInRange, releasedWhenDue, intMin, intMax. simpl. split; [lia|done]. Qed.

Lemma doInRoot_closed {T} `{Zero T} (fuel : nat) (nm : string)
    (f : sysfdType -> string -> M (T * option error)) (s : State) :
  closed (rt s) = true -> doInRoot fuel nm f s = Ok (zero, Some ErrClosed) s.
Proof.
  intros Hc. unfold doInRoot, bind. rewrite incref_closed by done. reflexivity.
Qed.

(** C1. Whatever sequence of [Close], [incref] and [decref] calls, and of
    closes and other system calls made by operations, the goroutines
    sharing a handle interleave:
    the handle's descriptor has been passed to [syscall.Close] exactly once
    when the handle is closed with no operation in flight, and not at all in
    any other state, so never twice and never while [refs > 0].  The close
    is made by [Close] when it finds the handle open with [refs == 0], and
    otherwise by the [decref] that takes [refs] from 1 to 0 on a closed
    handle; no other call of the three methods closes anything. *)
Theorem root_fd_released_once (nm : string) (d : sysfdType) (w : World)
    (calls : list call) (s : State) :
  performAll calls (newRoot nm d w) = Ok tt s ->
  released s = (if closed (rt s) && (refs (rt s) =? 0) then 1%nat else 0%nat)
  /\ (forall e s', Close s = Ok e s' ->
        closes s' = if negb (closed (rt s)) && (refs (rt s) =? 0)
                    then fd (rt s) :: closes s else closes s)
  /\ (forall s', decref s = Ok tt s' ->
        0 < refs (rt s) /\
        closes s' = if closed (rt s) && (refs (rt s) =? 1)
                    then fd (rt s) :: closes s else closes s)
  /\ (forall e s', incref s = Ok e s' -> closes s' = closes s).
Proof.
  intros Hrun.
  destruct (newRoot_invariant nm d w) as [Hr0 Hi0].
  destruct (performAll_invariant _ _ _ Hrun Hr0 Hi0) as [Hr Hi].
  split; [exact Hi|]. split; [|split].
  - intros e s' HC. rewrite Close_eq in HC. injection HC as _ <-. simpl.
    reflexivity.
  - intros s' HD. destruct (Z.leb_spec (refs (rt s)) 0) as [Hle|Hgt].
    + rewrite decref_panics in HD by done. discriminate.
    + split; [done|]. unfold refsInRange in Hr.
      rewrite decref_eq in HD by lia. injection HD as <-. reflexivity.
  - intros e s' HI. destruct (closed (rt s)) eqn:Hc.
    + rewrite incref_closed in HI by done. injection HI as _ <-. reflexivity.
    + rewrite incref_open in HI by done. injection HI as _ <-. reflexivity.
Qed.

(** C2. [incref] on a handle that is not closed increments [refs] and
    succeeds; on a closed handle it returns [ErrClosed] and changes nothing.
    So once [Close] has run, whatever calls follow it, every [doInRoot]
    started afterwards returns [ErrClosed], without calling [f] and without
    changing the state, and each operation of the file that reaches
    [doInRoot] returns that error in its [PathError] or [LinkError]
    ([rootRemoveAll] reaches it for a name that does not end with a dot). *)
Theorem incref_guards_closed_root (s : State) :
  (closed (rt s) = false ->
     incref s = Ok None (mkState (mkRoot (name (rt s)) (fd (rt s)) (incr (refs (rt s)))
                                    false (cleanup (rt s)))
                           (closes s) (world s))
     /\ (intMin <= refs (rt s) < intMax -> incr (refs (rt s)) = refs (rt s) + 1))
  /\ (closed (rt s) = true -> incref s = Ok (Some ErrClosed) s)
  /\ (forall e s1 calls s2,
        Close s = Ok e s1 -> performAll calls s1 = Ok tt s2 ->
        (forall (T : Type) (Z : Zero T) fuel nm f,
           doInRoot (T := T) fuel nm f s2 = Ok (zero, Some ErrClosed) s2)
        /\ (forall fuel nm,
              (forall prim mode,
                 rootChmod prim fuel nm mode s2
                 = Ok (Some (PathError "chmodat" nm ErrClosed)) s2)
              /\ (forall prim uid gid,
                    rootChown prim fuel nm uid gid s2
                    = Ok (Some (PathError "chownat" nm ErrClosed)) s2)
              /\ (forall prim uid gid,
                    rootLchown prim fuel nm uid gid s2
                    = Ok (Some (PathError "lchownat" nm ErrClosed)) s2)
              /\ (forall Time prim (atime mtime : Time),
                    rootChtimes Time prim fuel nm atime mtime s2
                    = Ok (Some (PathError "chtimesat" nm ErrClosed)) s2)
              /\ (forall prim perm,
                    rootMkdir prim fuel nm perm s2
                    = Ok (Some (PathError "mkdirat" nm ErrClosed)) s2)
              /\ (forall prim,
                    rootReadlink prim fuel nm s2
                    = Ok (EmptyString, Some (PathError "readlinkat" nm ErrClosed)) s2)
              /\ (forall prim,
                    rootRemove prim fuel nm s2
                    = Ok (Some (PathError "removeat" nm ErrClosed)) s2)
              /\ (forall prim,
                    let stripped := stripTrailing (String.length nm) nm in
                    endsWithDot stripped = false ->
                    IsNotExist (Some ErrClosed) = false ->
                    rootRemoveAll prim fuel nm s2
                    = Ok (Some (PathError "RemoveAll" stripped
                                  (underlyingError ErrClosed))) s2)
              /\ (forall prim newname,
                    rootRename prim fuel nm newname s2
                    = Ok (Some (LinkError "renameat" nm newname ErrClosed)) s2)
              /\ (forall prim newname,
                    rootLink prim fuel nm newname s2
                    = Ok (Some (LinkError "linkat" nm newname ErrClosed)) s2))).
Proof.
  split; [|split].
  - intros Hc. split; [apply incref_open; done|apply incr_small].
  - apply incref_closed.
  - intros e s1 calls s2 HC Hrun.
    assert (Hc : closed (rt s2) = true).
    { eapply performAll_closed; [exact Hrun|].
      rewrite Close_eq in HC. injection HC as _ <-. reflexivity. }
    split.
    + intros T Z fuel nm f. apply doInRoot_closed. done.
    + intros fuel nm.
      repeat split; cbv zeta; intros;
        unfold rootChmod, rootChown, rootLchown, rootChtimes, rootMkdir,
          rootReadlink, rootRemove, rootRemoveAll, rootRename, rootLink, bind;
        try match goal with
            | Hdot : endsWithDot _ = false |- _ => rewrite Hdot
            end;
        rewrite !doInRoot_closed by done; simpl;
        try match goal with
            | Hne : IsNotExist _ = false |- _ => rewrite Hne
            end;
        reflexivity.
Qed.

End RootClaims.

Lemma root_fd_released_once_witness :
  exists s,
    performAll [CallIncref; CallClose; @CallKernel Demo.demoPlatform (Demo.demo_kclose 7);
                CallCloseDir 4; CallDecref; CallClose]
      Demo.demoState = Ok tt s
    /\ released s = 1%nat.
Proof.
  eexists. split; [vm_compute; reflexivity|].
  refine (proj1 (@root_fd_released_once Demo.demoPlatform "root" 3
                   (Demo.mkKernel Demo.demoTree [(3, [])] [])
                   [CallIncref; CallClose; @CallKernel Demo.demoPlatform (Demo.demo_kclose 7);
                    CallCloseDir 4; CallDecref; CallClose]
                   _ _)).
  vm_compute. reflexivity.
Defined.

Lemma incref_guards_closed_root_witness :
  (exists s, incref Demo.demoState = Ok None s /\ refs (rt s) = 1)
  /\ doInRoot 5 "a/b" Demo.kindAt Demo.closedState
     = Ok (zero, Some ErrClosed) Demo.closedState.
Proof.
  split.
  - eexists. split.
    + exact (proj1 (proj1 (@incref_guards_closed_root Demo.demoPlatform Demo.demoState)
                      eq_refl)).
    + vm_compute. reflexivity.
  - apply (proj1 (proj2 (proj2 (@incref_guards_closed_root Demo.demoPlatform
                                   Demo.demoState))
                    None _ [] _ eq_refl eq_refl)).
Defined.

(** ** Lists of components *)

Lemma slicesEqual_spec (s1 s2 : list string) : slicesEqual s1 s2 = true <-> s1 = s2.
Proof.
  revert s2. induction s1 as [|x s1 IH]; intros [|y s2]; simpl; try done.
  rewrite andb_true_iff, String.eqb_eq, IH. split.
  - intros [-> ->]. reflexivity.
  - intros [= -> ->]. done.
Qed.

Lemma slicesEqual_false (s1 s2 : list string) : slicesEqual s1 s2 = false <-> s1 <> s2.
Proof.
  rewrite <- slicesEqual_spec. destruct (slicesEqual s1 s2); split; congruence.
Qed.

Lemma dotdotRun_drop (l : list string) (e : nat) (p : string) :
  l !! e = Some p ->
  dotdotRun (drop e l) = if String.eqb p ".." then S (dotdotRun (drop (S e) l)) else O.
Proof. intros Hp. rewrite (drop_S _ _ _ Hp). reflexivity. Qed.

Lemma scanDotDot_spec (fuel : nat) (l : list string) (e : nat) :
  (length l <= fuel + e)%nat ->
  scanDotDot fuel l e = (e + dotdotRun (drop e l))%nat.
Proof.
  revert e. induction fuel as [|fuel IH]; intros e Hlen; simpl.
  - rewrite drop_ge by lia. simpl. lia.
  - destruct (l !! e) as [p|] eqn:Hp.
    + rewrite (dotdotRun_drop _ _ _ Hp). destruct (String.eqb p "..").
      * rewrite IH by lia. lia.
      * lia.
    + apply lookup_ge_None in Hp. rewrite drop_ge by lia. simpl. lia.
Qed.

Lemma dotdotRun_replicate (n : nat) (l : list string) :
  dotdotRun (replicate n ".."%string ++ l) = (n + dotdotRun l)%nat.
Proof. induction n as [|n IH]; simpl; [done|]. rewrite IH. done. Qed.

(** ** One turn of the loop *)

Section TurnFacts.
Context `{Platform} {T : Type}.
Implicit Types (c : cursor T) (s : State).

Lemma isLast_spec c : isLast c = true <-> S (i c) = length (parts c).
Proof. unfold isLast. rewrite Z.eqb_eq. lia. Qed.

Lemma isLast_false c : isLast c = false <-> S (i c) <> length (parts c).
Proof. unfold isLast. rewrite Z.eqb_neq. lia. Qed.

Lemma overBudget_spec (st rs : Z) :
  overBudget st rs = true <-> 255 < st /\ 8 < rs.
Proof.
  unfold overBudget, maxSteps, maxRestarts.
  rewrite andb_true_iff, !Z.ltb_lt. done.
Qed.

Lemma closeUnlessRoot_eq (rootfd d : sysfdType) s :
  closeUnlessRoot rootfd d s = Ok tt (afterCloseUnlessRoot rootfd d s).
Proof.
  unfold closeUnlessRoot, afterCloseUnlessRoot.
  destruct (d =? rootfd); reflexivity.
Qed.

(** The turn once the budget has been checked. *)
Lemma iter_within_budget f rootfd c s :
  overBudget (incr (steps c)) (restarts c) = false ->
  iter f rootfd c s =
  match parts c !! i c with
  | None => Panic "index out of range"
  | Some p =>
      if String.eqb p ".." then dotdot rootfd (stepped c) s
      else
        match visit f rootfd (stepped c) p s with
        | Ok (VReturn r err) s1 => Ok (Return r err) s1
        | Ok (VSymlink c' target) s1 => follow rootfd c' target s1
        | Ok (VNext c') s1 =>
            Ok (Continue (mkCursor (parts c') (suffixSep c') (dirfd c') (S (i c'))
                            (steps c') (restarts c') (symlinks c') (result c'))) s1
        | Panic msg => Panic msg
        | Timeout => Timeout
        end
  end.
Proof.
  intros Hb. unfold iter. rewrite Hb. simpl. fold (stepped c).
  destruct (parts c !! i c) as [p|]; [|reflexivity].
  destruct (String.eqb p ".."); [reflexivity|].
  unfold bind. destruct (visit f rootfd (stepped c) p s) as [[]| |]; reflexivity.
Qed.

Lemma iter_over_budget f rootfd c s :
  overBudget (incr (steps c)) (restarts c) = true ->
  iter f rootfd c s = Ok (Return (result c) (Some ENAMETOOLONG)) s.
Proof. intros Hb. unfold iter. rewrite Hb. reflexivity. Qed.

(** What the visit of a component can end in. *)
Lemma visit_cases f rootfd c p s v s1 :
  visit f rootfd c p s = Ok v s1 ->
  match v with
  | VReturn r err =>
      (isLast c = true /\ f (dirfd c) (p +:+ suffixSep c) s = Ok (r, err) s1
       /\ forall t, err <> Some (errSymlink t))
      \/ (isLast c = false /\ r = result c /\
          exists e w, err = Some e /\ (forall t, e <> errSymlink t) /\
                      openat (dirfd c) p (world s) = (inr e, w) /\
                      s1 = mkState (rt s) (closes s) w)
  | VSymlink c' t =>
      parts c' = parts c /\ suffixSep c' = suffixSep c /\ dirfd c' = dirfd c /\
      i c' = i c /\ steps c' = steps c /\ restarts c' = restarts c /\
      symlinks c' = symlinks c /\
      ((isLast c = true /\ f (dirfd c) (p +:+ suffixSep c) s
                           = Ok (result c', Some (errSymlink t)) s1)
       \/ (isLast c = false /\ result c' = result c /\
           exists w, openat (dirfd c) p (world s) = (inr (errSymlink t), w) /\
                     s1 = mkState (rt s) (closes s) w))
  | VNext c' =>
      isLast c = false /\
      exists d w, openat (dirfd c) p (world s) = (inl d, w) /\
        c' = mkCursor (parts c) (suffixSep c) d (i c) (steps c) (restarts c)
               (symlinks c) (result c) /\
        s1 = afterCloseUnlessRoot rootfd (dirfd c) (mkState (rt s) (closes s) w)
  end.
Proof.
  unfold visit. destruct (isLast c) eqn:Hl; unfold bind.
  - destruct (f (dirfd c) (p +:+ suffixSep c) s) as [[r err] s2| |] eqn:Hf;
      try discriminate.
    simpl. destruct err as [e|]; [destruct e|]; unfold ret;
      intros [= <- <-]; simpl;
      try (left; split; [done|split; [done|congruence]]).
    repeat (split; [done|]). left. done.
  - unfold rootOpenDir.
    destruct (openat (dirfd c) p (world s)) as [[d|e] w] eqn:Ho.
    + rewrite closeUnlessRoot_eq. unfold ret. intros [= <- <-].
      split; [done|]. eauto.
    + destruct e; unfold ret; intros [= <- <-];
        try (right; split; [done|split; [done|]]; eexists _, _;
             split; [done|split; [congruence|done]]).
      repeat (split; [done|]). right. eauto.
Qed.

End TurnFacts.

(** ** The loop *)

Section LoopFacts.
Context `{Platform} {T : Type}.
Variable f : sysfdType -> string -> M (T * option error).
Variable rootfd : sysfdType.
Implicit Types (c : cursor T) (s : State).

Lemma advance_S n c s :
  advance f rootfd (S n) c s =
  match iter f rootfd c s with
  | Ok (Continue c') s' => advance f rootfd n c' s'
  | Ok (Return _ _) s' => Ok None s'
  | Panic msg => Panic msg
  | Timeout => Timeout
  end.
Proof. simpl. unfold bind. destruct (iter f rootfd c s) as [[]| |]; reflexivity. Qed.

Lemma loop_S fuel c s :
  loop (S fuel) f rootfd c s =
  match iter f rootfd c s with
  | Ok (Continue c') s' => loop fuel f rootfd c' s'
  | Ok (Return r err) s' => Ok (r, err, dirfd c) s'
  | Panic msg => Panic msg
  | Timeout => Timeout
  end.
Proof. simpl. unfold bind. destruct (iter f rootfd c s) as [[]| |]; reflexivity. Qed.

(** The loop returns what the first returning turn returns. *)
Lemma loop_returns fuel c s r err d s' :
  loop fuel f rootfd c s = Ok (r, err, d) s' <->
  exists n c' s1,
    (n < fuel)%nat /\ advance f rootfd n c s = Ok (Some c') s1 /\
    iter f rootfd c' s1 = Ok (Return r err) s' /\ d = dirfd c'.
Proof.
  revert c s. induction fuel as [|fuel IH]; intros c s.
  - split; [discriminate|]. intros (n & _ & _ & Hn & _). lia.
  - rewrite loop_S. split.
    + destruct (iter f rootfd c s) as [[r0 e0|c2] s2| |] eqn:Hi; try discriminate.
      * intros [= -> -> <- ->]. exists O, c, s. repeat split; [lia|done].
      * intros Hl. apply IH in Hl as (n & c' & s1 & Hn & Ha & Hr & Hd).
        exists (S n), c', s1. rewrite advance_S, Hi. repeat split; [lia|done..].
    + intros (n & c' & s1 & Hn & Ha & Hr & ->). destruct n as [|n].
      * injection Ha as -> ->. rewrite Hr. reflexivity.
      * rewrite advance_S in Ha.
        destruct (iter f rootfd c s) as [[r0 e0|c2] s2| |]; try discriminate.
        apply IH. exists n, c', s1. repeat split; [lia|done..].
Qed.

(** With the budget not exceeded, and with oracles that do not answer
    [ENAMETOOLONG] themselves, a turn does not return that error. *)
Lemma iter_not_ENAMETOOLONG c s r s' :
  neverAnswers ENAMETOOLONG f ->
  overBudget (incr (steps c)) (restarts c) = false ->
  iter f rootfd c s <> Ok (Return r (Some ENAMETOOLONG)) s'.
Proof.
  intros (Hf & Ho & Hs) Hb. rewrite iter_within_budget by done.
  destruct (parts c !! i c) as [p|]; [|discriminate].
  destruct (String.eqb p "..").
  - unfold dotdot. destruct (_ <? _)%nat; [discriminate|].
    unfold bind. rewrite closeUnlessRoot_eq. discriminate.
  - destruct (visit f rootfd (stepped c) p s) as [[r0 e0|c' t|c'] s1| |] eqn:Hv;
      try discriminate; apply visit_cases in Hv.
    + intros [= -> -> ->].
      destruct Hv as [(_ & Hv & _)|(_ & _ & e & w & [= <-] & _ & Hv & _)].
      * apply Hf in Hv. done.
      * apply Ho in Hv. done.
    + unfold follow. destruct (_ <? _); [discriminate|].
      destruct (splitPathInRoot _ _ _) as [[ps sep]|e] eqn:Hsp.
      * destruct (_ || _); unfold bind; rewrite ?closeUnlessRoot_eq; discriminate.
      * intros [= _ -> _]. apply Hs in Hsp. done.
Qed.

End LoopFacts.

Section BudgetClaim.
Context `{Platform} {T : Type}.

(** C3. A turn of the loop ends the walk with [ENAMETOOLONG] when the step
    counter, just incremented, exceeds 255 and the restart counter exceeds
    8, both at once, and then without calling [f] or the kernel.  When one
    of the two does not exceed its ceiling the turn goes on to resolve its
    component: with oracles that do not answer [ENAMETOOLONG] themselves no
    turn returns it, and the walk as a whole returns [ENAMETOOLONG] exactly
    when it reaches a turn where both ceilings are exceeded. *)
Theorem budget_abort_needs_both
    (f : sysfdType -> string -> M (T * option error)) (rootfd : sysfdType) :
  (forall c s, 255 < incr (steps c) /\ 8 < restarts c ->
     iter f rootfd c s = Ok (Return (result c) (Some ENAMETOOLONG)) s)
  /\ (neverAnswers ENAMETOOLONG f ->
      (forall c s r s', ~ (255 < incr (steps c) /\ 8 < restarts c) ->
         iter f rootfd c s <> Ok (Return r (Some ENAMETOOLONG)) s')
      /\ (forall fuel c s r d s',
            loop fuel f rootfd c s = Ok (r, Some ENAMETOOLONG, d) s' <->
            exists n c',
              (n < fuel)%nat /\ advance f rootfd n c s = Ok (Some c') s' /\
              (255 < incr (steps c') /\ 8 < restarts c') /\
              r = result c' /\ d = dirfd c')).
Proof.
  split; [|intros Hnever; split].
  - intros c s Hb. apply iter_over_budget, overBudget_spec. done.
  - intros c s r s' Hb. apply iter_not_ENAMETOOLONG; [done|].
    destruct (overBudget _ _) eqn:Ho; [|done].
    apply overBudget_spec in Ho. done.
  - intros fuel c s r d s'. rewrite loop_returns. split.
    + intros (n & c' & s1 & Hn & Ha & Hr & ->).
      destruct (overBudget (incr (steps c')) (restarts c')) eqn:Ho.
      * rewrite iter_over_budget in Hr by done. injection Hr as <- <-.
        exists n, c'. apply overBudget_spec in Ho. done.
      * exfalso. revert Hr. apply iter_not_ENAMETOOLONG; done.
    + intros (n & c' & Hn & Ha & Hb & -> & ->).
      exists n, c', s'. repeat split; [done..|].
      apply iter_over_budget, overBudget_spec. done.
Qed.

End BudgetClaim.

(** ** Parent components *)

Lemma dotdotRun_spec (l : list string) :
  (forall k, (k < dotdotRun l)%nat -> l !! k = Some ".."%string)
  /\ l !! dotdotRun l <> Some ".."%string.
Proof.
  induction l as [|p l [IH1 IH2]]; simpl.
  - split; [lia|done].
  - destruct (String.eqb_spec p "..") as [->|Hp].
    + split; [|done]. intros [|k] Hk; simpl; [done|]. apply IH1. lia.
    + split; [lia|]. simpl. congruence.
Qed.

Section DotDotClaim.
Context `{Platform} {T : Type}.
Implicit Types (c : cursor T) (s : State).

Lemma dotdot_eq rootfd c s :
  parts c !! i c = Some ".."%string ->
  dotdot rootfd c s =
  let count := dotdotRun (drop (i c) (parts c)) in
  if (i c <? count)%nat then Ok (Return (result c) (Some errPathEscapes)) s
  else Ok (Continue (mkCursor (cancelled (parts c) (i c) count) (suffixSep c) rootfd 0
                       (steps c) (incr (restarts c)) (symlinks c) (result c)))
         (afterCloseUnlessRoot rootfd (dirfd c) s).
Proof.
  intros Hp. unfold dotdot.
  assert (Hi : (i c < length (parts c))%nat) by (eapply lookup_lt_Some; done).
  rewrite scanDotDot_spec by lia.
  rewrite (dotdotRun_drop _ _ _ Hp). simpl.
  replace (S (i c + dotdotRun (drop (S (i c)) (parts c))) - i c)%nat
    with (S (dotdotRun (drop (S (i c)) (parts c)))) by lia.
  destruct (_ <? _)%nat eqn:Hlt; [reflexivity|].
  unfold bind. rewrite closeUnlessRoot_eq. unfold ret, cancelled, slicesDelete.
  replace (i c + S (dotdotRun (drop (S (i c)) (parts c))))%nat
    with (S (i c + dotdotRun (drop (S (i c)) (parts c)))) by lia.
  destruct (take _ _ ++ drop _ _); reflexivity.
Qed.

Lemma iter_dotdot (f : sysfdType -> string -> M (T * option error))
    (rootfd : sysfdType) c s :
  overBudget (incr (steps c)) (restarts c) = false ->
  parts c !! i c = Some ".."%string ->
  iter f rootfd c s =
  let count := dotdotRun (drop (i c) (parts c)) in
  if (i c <? count)%nat then Ok (Return (result c) (Some errPathEscapes)) s
  else Ok (Continue (mkCursor (cancelled (parts c) (i c) count) (suffixSep c) rootfd 0
                       (incr (steps c)) (incr (restarts c)) (symlinks c) (result c)))
         (afterCloseUnlessRoot rootfd (dirfd c) s).
Proof.
  intros Hb Hp. rewrite iter_within_budget by done. rewrite Hp. simpl.
  rewrite dotdot_eq by done. reflexivity.
Qed.

(** C4. When the component at index [i] is [".."] (and the turn is within
    budget), [count] being the length of the run of [".."] components that
    starts at [i]: if [count > i] the turn returns [errPathEscapes] and the
    walk stops there; otherwise the walk goes on with the [count] components
    before [i] and the [count] components [".."] deleted, a list left empty
    replaced by the single component ["."], the index back at 0, the
    directory descriptor closed unless it is the root's and replaced by the
    root's, and one restart more. *)
Theorem dotdot_cancels_or_escapes
    (f : sysfdType -> string -> M (T * option error)) (rootfd : sysfdType) c s :
  ~ (255 < incr (steps c) /\ 8 < restarts c) ->
  parts c !! i c = Some ".."%string ->
  let count := dotdotRun (drop (i c) (parts c)) in
  (1 <= count)%nat
  /\ (forall k, (k < count)%nat -> parts c !! (i c + k)%nat = Some ".."%string)
  /\ parts c !! (i c + count)%nat <> Some ".."%string
  /\ ((i c < count)%nat ->
        iter f rootfd c s = Ok (Return (result c) (Some errPathEscapes)) s
        /\ forall fuel,
             loop (S fuel) f rootfd c s
             = Ok (result c, Some errPathEscapes, dirfd c) s)
  /\ ((count <= i c)%nat ->
        iter f rootfd c s
        = Ok (Continue (mkCursor (cancelled (parts c) (i c) count) (suffixSep c)
                          rootfd 0 (incr (steps c)) (incr (restarts c))
                          (symlinks c) (result c)))
            (afterCloseUnlessRoot rootfd (dirfd c) s)).
Proof.
  intros Hb Hp count.
  assert (Hover : overBudget (incr (steps c)) (restarts c) = false).
  { destruct (overBudget _ _) eqn:Ho; [|done]. apply overBudget_spec in Ho. done. }
  pose proof (iter_dotdot f rootfd c s Hover Hp) as Hit. simpl in Hit.
  fold count in Hit.
  destruct (dotdotRun_spec (drop (i c) (parts c))) as [Hrun Hend].
  fold count in Hrun, Hend.
  split; [|split; [|split; [|split]]].
  - subst count. rewrite (dotdotRun_drop _ _ _ Hp). simpl. lia.
  - intros k Hk. rewrite <- lookup_drop. auto.
  - rewrite <- lookup_drop. done.
  - intros Hlt.
    assert (Hi : iter f rootfd c s = Ok (Return (result c) (Some errPathEscapes)) s).
    { rewrite Hit. destruct (Nat.ltb_spec (i c) count); [reflexivity|lia]. }
    split; [done|]. intros fuel. rewrite loop_S, Hi. reflexivity.
  - intros Hle. rewrite Hit.
    destruct (Nat.ltb_spec (i c) count); [lia|reflexivity].
Qed.

End DotDotClaim.

(** ** Symbolic links *)

Section SymlinkFacts.
Context `{Platform} {T : Type}.
Variable f : sysfdType -> string -> M (T * option error).
Variable rootfd : sysfdType.
Implicit Types (c : cursor T) (s : State).

Lemma follow_eq c target s :
  follow rootfd c target s =
  if rootMaxSymlinks <? incr (symlinks c)
  then Ok (Return (result c) (Some ELOOP)) s
  else
    match splitPathInRoot target (take (i c) (parts c)) (drop (S (i c)) (parts c)) with
    | inr err => Ok (Return (result c) (Some err)) s
    | inl (newparts, newSuffixSep) =>
        let sep' := if isLast c then newSuffixSep else suffixSep c in
        if (length newparts <? i c)%nat
           || negb (slicesEqual (take (i c) (parts c)) (take (i c) newparts))
        then Ok (Continue (mkCursor newparts sep' rootfd 0 (steps c) (restarts c)
                             (incr (symlinks c)) (result c)))
               (afterCloseUnlessRoot rootfd (dirfd c) s)
        else Ok (Continue (mkCursor newparts sep' (dirfd c) (i c) (steps c)
                             (restarts c) (incr (symlinks c)) (result c))) s
    end.
Proof.
  unfold follow. destruct (_ <? _); [reflexivity|].
  destruct (splitPathInRoot _ _ _) as [[ps sep]|e]; [|reflexivity].
  destruct (_ || _); [|reflexivity].
  unfold bind. rewrite closeUnlessRoot_eq. reflexivity.
Qed.

(** A signalled turn is the splice of the link's target. *)
Lemma signalled_iter c s :
  signalled f rootfd c s = true ->
  exists p c1 t s1,
    parts c !! i c = Some p /\
    visit f rootfd (stepped c) p s = Ok (VSymlink c1 t) s1 /\
    symlinks c1 = symlinks c /\
    iter f rootfd c s = follow rootfd c1 t s1.
Proof.
  unfold signalled. rewrite andb_true_iff, negb_true_iff. intros [Hb Hs].
  rewrite iter_within_budget by done.
  destruct (parts c !! i c) as [p|]; [|discriminate].
  apply andb_true_iff in Hs as [Hp Hv]. apply negb_true_iff in Hp. rewrite Hp.
  destruct (visit f rootfd (stepped c) p s) as [[r e|c1 t|c1] s1| |] eqn:Hvis;
    try discriminate.
  exists p, c1, t, s1. repeat split; try done.
  apply visit_cases in Hvis. simpl in Hvis. tauto.
Qed.

(** A turn that was not signalled does not reach [follow]. *)
Lemma unsignalled_iter c s fl s' :
  signalled f rootfd c s = false ->
  iter f rootfd c s = Ok fl s' ->
  match fl with
  | Continue c' => symlinks c' = symlinks c
  | Return r err =>
      err = Some ENAMETOOLONG \/ err = Some errPathEscapes
      \/ exists p c1, visit f rootfd c1 p s = Ok (VReturn r err) s'
  end.
Proof.
  unfold signalled. intros Hs Hi.
  destruct (overBudget (incr (steps c)) (restarts c)) eqn:Hb.
  { rewrite iter_over_budget in Hi by done. injection Hi as <- <-. auto. }
  rewrite iter_within_budget in Hi by done. simpl in Hs.
  destruct (parts c !! i c) as [p|] eqn:Hp; [|discriminate].
  destruct (String.eqb p "..") eqn:Hdd.
  - apply String.eqb_eq in Hdd as ->. rewrite dotdot_eq in Hi by done.
    simpl in Hi. destruct (_ <? _)%nat; injection Hi as <- <-; auto.
  - simpl in Hs.
    destruct (visit f rootfd (stepped c) p s) as [[r e|c1 t|c1] s1| |] eqn:Hvis;
      try discriminate.
    + injection Hi as <- <-. eauto.
    + injection Hi as <- <-. simpl. apply visit_cases in Hvis.
      destruct Hvis as (_ & d & w & _ & -> & _). reflexivity.
Qed.

Lemma iter_counts_hops c s c' s' :
  0 <= symlinks c <= rootMaxSymlinks -> rootMaxSymlinks < intMax ->
  iter f rootfd c s = Ok (Continue c') s' ->
  symlinks c' = symlinks c + (if signalled f rootfd c s then 1 else 0)
  /\ 0 <= symlinks c' <= rootMaxSymlinks.
Proof.
  intros Hr Hmax Hi. destruct (signalled f rootfd c s) eqn:Hs.
  - destruct (signalled_iter _ _ Hs) as (p & c1 & t & s1 & _ & _ & Hsym & Heq).
    rewrite Heq, follow_eq in Hi.
    rewrite Hsym, incr_small in Hi by (unfold intMin; lia).
    destruct (Z.ltb_spec rootMaxSymlinks (symlinks c + 1)); [discriminate|].
    destruct (splitPathInRoot _ _ _) as [[ps sep]|e]; [|discriminate].
    simpl in Hi. destruct (_ || _); injection Hi as <- <-; simpl; lia.
  - pose proof (unsignalled_iter _ _ _ _ Hs Hi) as Hc. simpl in Hc. lia.
Qed.

Lemma advance_counts_hops n c0 s0 c s :
  0 <= rootMaxSymlinks < intMax -> symlinks c0 = 0 ->
  advance f rootfd n c0 s0 = Ok (Some c) s ->
  symlinks c = Z.of_nat (hops f rootfd n c0 s0) /\ 0 <= symlinks c <= rootMaxSymlinks.
Proof.
  intros Hmax.
  assert (Hgen : forall n c0 s0 c s,
             0 <= symlinks c0 <= rootMaxSymlinks ->
             advance f rootfd n c0 s0 = Ok (Some c) s ->
             symlinks c = symlinks c0 + Z.of_nat (hops f rootfd n c0 s0)
             /\ 0 <= symlinks c <= rootMaxSymlinks).
  { clear n c0 s0 c s. induction n as [|n IH]; intros c0 s0 c s Hr Ha.
    - injection Ha as -> ->. simpl. lia.
    - rewrite advance_S in Ha. simpl.
      destruct (iter f rootfd c0 s0) as [[r e|c1] s1| |] eqn:Hi; try discriminate.
      destruct (iter_counts_hops _ _ _ _ Hr (proj2 Hmax) Hi) as [Hc Hr1].
      destruct (IH _ _ _ _ Hr1 Ha) as [Hc' Hr'].
      split; [|done]. rewrite Hc', Hc.
      destruct (signalled f rootfd c0 s0); lia. }
  intros H0 Ha. destruct (Hgen n c0 s0 c s) as [Hc Hr]; [lia|done|].
  split; [lia|done].
Qed.

End SymlinkFacts.

Section SymlinkClaims.
Context `{Platform} {T : Type}.
Implicit Types (c : cursor T) (s : State).

(** C5. Along one resolution the symlink counter is the number of Symlink
    Signals met so far, each signal adding one.  The turn that meets a
    signal returns [ELOOP] when, with it, more than [rootMaxSymlinks] signals
    have been met, whatever the target; and it does not when, with it, at
    most [rootMaxSymlinks] have.  With oracles that do not answer [ELOOP]
    themselves, the walk returns [ELOOP] exactly when it meets signal number
    [rootMaxSymlinks + 1]. *)
Theorem symlink_limit
    (f : sysfdType -> string -> M (T * option error)) (rootfd : sysfdType)
    (c0 : cursor T) (s0 : State) :
  0 <= rootMaxSymlinks < intMax ->
  symlinks c0 = 0 ->
  (forall n c s,
     advance f rootfd n c0 s0 = Ok (Some c) s ->
     let met := Z.of_nat (hops f rootfd n c0 s0) in
     symlinks c = met
     /\ met <= rootMaxSymlinks
     /\ (forall c' s', iter f rootfd c s = Ok (Continue c') s' ->
           symlinks c' = met + (if signalled f rootfd c s then 1 else 0))
     /\ (signalled f rootfd c s = true -> rootMaxSymlinks < met + 1 ->
           exists r s', iter f rootfd c s = Ok (Return r (Some ELOOP)) s')
     /\ (neverAnswers ELOOP f ->
           forall r s', iter f rootfd c s = Ok (Return r (Some ELOOP)) s' ->
           signalled f rootfd c s = true /\ rootMaxSymlinks < met + 1))
  /\ (neverAnswers ELOOP f ->
      forall fuel d,
        (exists r s', loop fuel f rootfd c0 s0 = Ok (r, Some ELOOP, d) s') <->
        (exists n c s,
           (n < fuel)%nat /\ advance f rootfd n c0 s0 = Ok (Some c) s /\
           signalled f rootfd c s = true /\
           Z.of_nat (hops f rootfd n c0 s0) = rootMaxSymlinks /\ d = dirfd c)).
Proof.
  intros Hmax H0.
  assert (Hturn : forall n c s,
     advance f rootfd n c0 s0 = Ok (Some c) s ->
     let met := Z.of_nat (hops f rootfd n c0 s0) in
     symlinks c = met
     /\ met <= rootMaxSymlinks
     /\ (forall c' s', iter f rootfd c s = Ok (Continue c') s' ->
           symlinks c' = met + (if signalled f rootfd c s then 1 else 0))
     /\ (signalled f rootfd c s = true -> rootMaxSymlinks < met + 1 ->
           exists r s', iter f rootfd c s = Ok (Return r (Some ELOOP)) s')
     /\ (neverAnswers ELOOP f ->
           forall r s', iter f rootfd c s = Ok (Return r (Some ELOOP)) s' ->
           signalled f rootfd c s = true /\ rootMaxSymlinks < met + 1)).
  { intros n c s Ha met.
    destruct (advance_counts_hops f rootfd _ _ _ _ _ Hmax H0 Ha) as [Hc Hr].
    fold met in Hc. split; [done|]. split; [lia|]. split; [|split].
    - intros c' s' Hi.
      destruct (iter_counts_hops f rootfd _ _ _ _ Hr (proj2 Hmax) Hi) as [Hc' _].
      lia.
    - intros Hs Hover.
      destruct (signalled_iter f rootfd _ _ Hs)
        as (p & c1 & t & s1 & _ & _ & Hsym & Heq).
      exists (result c1), s1. rewrite Heq, follow_eq.
      rewrite Hsym, incr_small by (unfold intMin; lia).
      destruct (Z.ltb_spec rootMaxSymlinks (symlinks c + 1)); [reflexivity|lia].
    - intros (Hf & Ho & Hsp) r s' Hi.
      destruct (signalled f rootfd c s) eqn:Hs.
      + split; [done|].
        destruct (signalled_iter f rootfd _ _ Hs)
          as (p & c1 & t & s1 & _ & _ & Hsym & Heq).
        rewrite Heq, follow_eq in Hi.
        rewrite Hsym, incr_small in Hi by (unfold intMin; lia).
        destruct (Z.ltb_spec rootMaxSymlinks (symlinks c + 1)); [lia|].
        destruct (splitPathInRoot _ _ _) as [[ps sep]|e] eqn:Hsplit.
        * simpl in Hi. destruct (_ || _); discriminate.
        * injection Hi as _ -> _. apply Hsp in Hsplit. done.
      + exfalso. pose proof (unsignalled_iter f rootfd _ _ _ _ Hs Hi) as Hc'.
        simpl in Hc'. destruct Hc' as [|[|(p & c1 & Hv)]]; try discriminate.
        apply visit_cases in Hv.
        destruct Hv as [(_ & Hv & _)|(_ & _ & e & w & [= <-] & _ & Hv & _)].
        * apply Hf in Hv. done.
        * apply Ho in Hv. done. }
  split; [exact Hturn|]. intros Hnever fuel d. split.
  - intros (r & s' & Hl). apply loop_returns in Hl as (n & c & s & Hn & Ha & Hi & ->).
    pose proof (Hturn n c s Ha) as Ht. cbv zeta in Ht.
    destruct Ht as (_ & Hle & _ & _ & Hex).
    destruct (Hex Hnever _ _ Hi) as [Hs Hlt].
    exists n, c, s. split; [done|]. split; [done|]. split; [done|].
    split; [lia|done].
  - intros (n & c & s & Hn & Ha & Hs & Hmet & ->).
    pose proof (Hturn n c s Ha) as Ht. cbv zeta in Ht.
    destruct Ht as (_ & _ & _ & Hret & _).
    destruct (Hret Hs) as (r & s' & Hi); [lia|].
    exists r, s'. apply loop_returns. exists n, c, s. done.
Qed.

(** C6. The target of a link met at index [i] is split with [parts[:i]]
    before it and [parts[i+1:]] after it.  When the split succeeds (and the
    link is within the limit), the walk goes on with the new list: from
    index 0 and the root's descriptor, the directory descriptor closed
    unless it is the root's, if the new list has fewer than [i] components
    or its first [i] differ from [parts[:i]]; and with index and descriptor
    as they are otherwise.  The separators that end the target become the
    active suffix when [i] was the last index, and are dropped when it was
    not. *)
Theorem symlink_splice (rootfd : sysfdType) c (target : string) s
    (newparts : list string) (newSuffixSep : string) :
  incr (symlinks c) <= rootMaxSymlinks ->
  splitPathInRoot target (take (i c) (parts c)) (drop (S (i c)) (parts c))
    = inl (newparts, newSuffixSep) ->
  let sep' := if decide (S (i c) = length (parts c)) then newSuffixSep
              else suffixSep c in
  ((length newparts < i c)%nat \/ take (i c) newparts <> take (i c) (parts c) ->
     follow rootfd c target s
     = Ok (Continue (mkCursor newparts sep' rootfd 0 (steps c) (restarts c)
                       (incr (symlinks c)) (result c)))
         (afterCloseUnlessRoot rootfd (dirfd c) s))
  /\ (~ ((length newparts < i c)%nat \/ take (i c) newparts <> take (i c) (parts c)) ->
      follow rootfd c target s
      = Ok (Continue (mkCursor newparts sep' (dirfd c) (i c) (steps c) (restarts c)
                        (incr (symlinks c)) (result c))) s).
Proof.
  intros Hlim Hsplit sep'.
  assert (Hsep : (if isLast c then newSuffixSep else suffixSep c) = sep').
  { subst sep'. destruct (isLast c) eqn:Hl.
    - apply isLast_spec in Hl. rewrite decide_True by done. reflexivity.
    - apply isLast_false in Hl. rewrite decide_False by done. reflexivity. }
  assert (Hf : follow rootfd c target s =
               if (length newparts <? i c)%nat
                  || negb (slicesEqual (take (i c) (parts c)) (take (i c) newparts))
               then Ok (Continue (mkCursor newparts sep' rootfd 0 (steps c) (restarts c)
                                    (incr (symlinks c)) (result c)))
                      (afterCloseUnlessRoot rootfd (dirfd c) s)
               else Ok (Continue (mkCursor newparts sep' (dirfd c) (i c) (steps c)
                                    (restarts c) (incr (symlinks c)) (result c))) s).
  { rewrite follow_eq.
    destruct (Z.ltb_spec rootMaxSymlinks (incr (symlinks c))); [lia|].
    rewrite Hsplit. simpl. rewrite Hsep. reflexivity. }
  rewrite Hf. clear Hf.
  destruct (Nat.ltb_spec (length newparts) (i c)) as [Hlt|Hge]; simpl.
  - split; [done|]. intros Hn. exfalso. apply Hn. left. done.
  - destruct (slicesEqual _ _) eqn:He; simpl.
    + apply slicesEqual_spec in He. split; [|done].
      intros [Hlt|Hne]; [lia|]. exfalso. apply Hne. done.
    + apply slicesEqual_false in He. split; [done|].
      intros Hn. exfalso. apply Hn. right. congruence.
Qed.

End SymlinkClaims.

(** ** Strings *)

Lemma string_app_cons (x : ascii) (a b : string) :
  String x a +:+ b = String x (a +:+ b).
Proof. reflexivity. Qed.

Lemma string_app_nil_l (b : string) : EmptyString +:+ b = b.
Proof. reflexivity. Qed.

Lemma substring_0_length (s : string) (k : nat) :
  (k <= String.length s)%nat -> String.length (String.substring 0 k s) = k.
Proof.
  revert k. induction s as [|a s IH]; intros [|k] Hk; simpl in *; try lia.
  rewrite IH by lia. reflexivity.
Qed.

Lemma string_unsnoc (s : string) :
  (0 < String.length s)%nat ->
  exists ch, String.get (String.length s - 1) s = Some ch
             /\ s = String.substring 0 (String.length s - 1) s +:+ String ch EmptyString.
Proof.
  induction s as [|a s IH]; simpl; [lia|]. intros _.
  rewrite Nat.sub_0_r. destruct s as [|b s].
  - exists a. simpl. done.
  - destruct IH as (ch & Hget & Heq); [simpl; lia|].
    simpl in Hget, Heq. rewrite Nat.sub_0_r in Hget, Heq.
    exists ch. simpl. split; [done|].
    rewrite string_app_cons. f_equal. exact Heq.
Qed.

Lemma string_app_assoc (a b c : string) : (a +:+ b) +:+ c = a +:+ b +:+ c.
Proof.
  induction a as [|x a IH]; [done|].
  rewrite !string_app_cons. f_equal. exact IH.
Qed.

Lemma string_app_empty (a : string) : a +:+ EmptyString = a.
Proof.
  induction a as [|x a IH]; [done|]. rewrite string_app_cons. f_equal. exact IH.
Qed.

Lemma string_get_snoc (a : string) (ch x : ascii) (k : nat) :
  String.get k (a +:+ String ch EmptyString) = Some x ->
  String.get k a = Some x \/ x = ch.
Proof.
  revert k. induction a as [|y a IH]; intros k.
  - rewrite string_app_nil_l. destruct k; simpl; [intros [= ->]; auto|].
    destruct k; discriminate.
  - rewrite string_app_cons. destruct k; simpl; [auto|]. apply IH.
Qed.

(** ** Operations *)

Section RemoveAllClaim.
Context `{Platform}.

Lemma stripTrailing_spec (fuel : nat) (nm : string) :
  (String.length nm <= fuel)%nat ->
  exists seps, nm = stripTrailing fuel nm +:+ seps /\ allSeparators seps
               /\ lastIsSeparator (stripTrailing fuel nm) = false.
Proof.
  revert nm. induction fuel as [|fuel IH]; intros nm Hlen; simpl.
  - destruct nm; simpl in Hlen; [|lia]. exists EmptyString.
    split; [done|]. split; [intros k ch; destruct k; discriminate|done].
  - destruct (Nat.ltb_spec 0 (String.length nm)) as [Hpos|Hzero]; simpl.
    + destruct (lastIsSeparator nm) eqn:Hsep.
      * destruct (string_unsnoc nm Hpos) as (ch & Hget & Heq).
        unfold lastIsSeparator in Hsep. rewrite Hget in Hsep.
        set (nm' := String.substring 0 (String.length nm - 1) nm) in *.
        destruct (IH nm') as (seps & Hnm' & Hall & Hlast).
        { subst nm'. rewrite substring_0_length; lia. }
        exists (seps +:+ String ch EmptyString).
        split; [|split; [|done]].
        -- rewrite <- string_app_assoc, <- Hnm'. exact Heq.
        -- intros k x Hx. apply string_get_snoc in Hx as [Hx| ->]; [|done].
           eapply Hall. exact Hx.
      * exists EmptyString. rewrite string_app_empty.
        split; [done|]. split; [intros k ch; destruct k; discriminate|done].
    + exists EmptyString. rewrite string_app_empty.
      split; [done|]. split; [intros k ch; destruct k; discriminate|].
      destruct nm; simpl in Hzero; [done|lia].
Qed.

(** C7. [rootRemoveAll] works on the name with all its trailing path
    separators taken off: the name is that stripped name followed by
    separators only, and the stripped name is empty or ends with a byte that
    is not a separator.  If the stripped name ends with a dot component the
    call returns [EINVAL], in a [PathError], without resolving anything and
    without touching the state; otherwise, when the resolution of the
    stripped name ends with an error that [IsNotExist] accepts, the call
    returns [nil]. *)
Theorem rootRemoveAll_strips_then_checks
    (removeAllFrom : sysfdType -> string -> M (option error))
    (fuel : nat) (nm : string) (s : State) :
  let stripped := stripTrailing (String.length nm) nm in
  (exists seps, nm = stripped +:+ seps /\ allSeparators seps
                /\ lastIsSeparator stripped = false)
  /\ (endsWithDot stripped = true ->
        rootRemoveAll removeAllFrom fuel nm s
        = Ok (Some (PathError "RemoveAll" stripped EINVAL)) s)
  /\ (endsWithDot stripped = false ->
        forall err s',
          doInRoot fuel stripped
            (fun parent name => e <- removeAllFrom parent name;; ret (tt, e)) s
          = Ok (tt, err) s' ->
          IsNotExist err = true ->
          rootRemoveAll removeAllFrom fuel nm s = Ok None s').
Proof.
  intros stripped. split; [|split].
  - apply stripTrailing_spec. lia.
  - intros Hdot. unfold rootRemoveAll. fold stripped. rewrite Hdot. reflexivity.
  - intros Hdot err s' Hdo Hne. unfold rootRemoveAll. fold stripped.
    rewrite Hdot. unfold bind at 1. rewrite Hdo. simpl. rewrite Hne. reflexivity.
Qed.

End RemoveAllClaim.

(** ** Paths of parent components only *)

Section EscapeClaim.
Context `{Platform} {T : Type} `{Zero T}.

Lemma loop_dotdot_only (f : sysfdType -> string -> M (T * option error))
    (rootfd : sysfdType) (n fuel : nat) (sep : string) (s : State) :
  loop (S fuel) f rootfd (startCursor (replicate (S n) ".."%string) sep rootfd) s
  = Ok (zero, Some errPathEscapes, rootfd) s.
Proof.
  rewrite loop_S, iter_dotdot by reflexivity. reflexivity.
Qed.

(** C9, as the code has it.  A path that splits into components [".."]
    only, however many, is resolved in one turn of the loop: the run of
    [".."] at index 0 has nothing before it to cancel against, and
    [doInRoot] returns [errPathEscapes], not [ENAMETOOLONG], whatever the
    leaf action, leaving the state as it found it. *)
Theorem dotdot_only_path_escapes (f : sysfdType -> string -> M (T * option error))
    (nm : string) (n fuel : nat) (sep : string) (s : State) :
  closed (rt s) = false ->
  0 <= refs (rt s) < intMax ->
  splitPathInRoot nm [] [] = inl (replicate (S n) ".."%string, sep) ->
  doInRoot (S fuel) nm f s = Ok (zero, Some errPathEscapes) s.
Proof.
  intros Hc Hr Hsplit. unfold doInRoot. unfold bind at 1.
  rewrite incref_open by done. rewrite Hsplit.
  unfold bind at 1. unfold bind at 1. unfold getRoot at 1. cbn [rt fd].
  unfold bind at 1.
  fold (startCursor (T := T) (replicate (S n) ".."%string) sep (fd (rt s))).
  rewrite loop_dotdot_only. cbn [fst snd].
  unfold bind at 1. rewrite closeUnlessRoot_eq.
  unfold afterCloseUnlessRoot. rewrite Z.eqb_refl. unfold ret at 1.
  unfold bind. rewrite decref_eq by (cbn; rewrite incr_small by (unfold intMin; lia); lia).
  cbn. rewrite incr_small by (unfold intMin; lia).
  replace (refs (rt s) + 1 - 1) with (refs (rt s)) by lia.
  unfold ret. destruct s as [[nm0 d0 r0 c0 cl0] cls w]. simpl in *. subst c0.
  reflexivity.
Qed.

End EscapeClaim.

Lemma dotdot_only_path_escapes_witness :
  doInRoot 1 "../../.." Demo.kindAt Demo.demoState
  = Ok (EmptyString, Some errPathEscapes) Demo.demoState.
Proof.
  apply (@dotdot_only_path_escapes Demo.demoPlatform string _ Demo.kindAt
           "../../.." 2 0 EmptyString Demo.demoState);
    [reflexivity|vm_compute; split; congruence|reflexivity].
Defined.

(** C9, as the claim has it, fails: a path of three hundred [".."], run with
    fuel for a thousand turns, ends with [errPathEscapes]; no outcome of it
    carries [ENAMETOOLONG]. *)
Lemma dotdot_only_path_not_over_budget :
  doInRoot 1000 Demo.manyDotDots Demo.kindAt Demo.demoState
  = Ok (EmptyString, Some errPathEscapes) Demo.demoState
  /\ ~ (exists r s', doInRoot 1000 Demo.manyDotDots Demo.kindAt Demo.demoState
                     = Ok (r, Some ENAMETOOLONG) s').
Proof.
  assert (Hrun : doInRoot 1000 Demo.manyDotDots Demo.kindAt Demo.demoState
                 = Ok (EmptyString, Some errPathEscapes) Demo.demoState)
    by (vm_compute; reflexivity).
  split; [exact Hrun|]. intros (r & s' & Hbad). rewrite Hrun in Hbad. discriminate.
Qed.

(** ** The index stays inside the component list *)

Section BoundsClaim.
Context `{Platform} {T : Type}.
Variable f : sysfdType -> string -> M (T * option error).
Variable rootfd : sysfdType.
Hypothesis Hsplit : splitCoversCursor.
Implicit Types (c : cursor T) (s : State).

Lemma cancelled_nonempty (l : list string) (i count : nat) :
  (0 < length (cancelled l i count))%nat.
Proof. unfold cancelled. destruct (_ ++ _); simpl; lia. Qed.

Lemma follow_in_bounds c t s c' s' :
  (i c < length (parts c))%nat ->
  follow rootfd c t s = Ok (Continue c') s' ->
  (i c' < length (parts c'))%nat.
Proof.
  intros Hi. rewrite follow_eq. destruct (_ <? _); [discriminate|].
  destruct (splitPathInRoot _ _ _) as [[ps sep]|e] eqn:Hsp; [|discriminate].
  apply Hsplit in Hsp as [Hne Hext]. simpl.
  destruct (Nat.ltb_spec (length ps) (i c)) as [Hlt|Hge]; simpl.
  - intros [= <- _]. simpl. destruct ps; [done|simpl; lia].
  - destruct (slicesEqual _ _) eqn:He; simpl; intros [= <- _]; simpl.
    + apply slicesEqual_spec in He.
      rewrite length_take, Nat.min_l in Hext by lia. auto.
    + destruct ps; [done|simpl; lia].
Qed.

Lemma iter_in_bounds c s c' s' :
  (i c < length (parts c))%nat ->
  iter f rootfd c s = Ok (Continue c') s' ->
  (i c' < length (parts c'))%nat.
Proof.
  intros Hi Hit.
  destruct (overBudget (incr (steps c)) (restarts c)) eqn:Hb.
  { rewrite iter_over_budget in Hit by done. discriminate. }
  rewrite iter_within_budget in Hit by done.
  destruct (parts c !! i c) as [p|] eqn:Hp; [|discriminate].
  destruct (String.eqb_spec p "..") as [->|Hdd].
  - rewrite dotdot_eq in Hit by done. simpl in Hit.
    destruct (_ <? _)%nat; [discriminate|]. injection Hit as <- _. simpl.
    apply cancelled_nonempty.
  - destruct (visit f rootfd (stepped c) p s) as [[r e|c1 t|c1] s1| |] eqn:Hv;
      try discriminate; apply visit_cases in Hv; simpl in Hv.
    + destruct Hv as (Hparts & _ & _ & Hidx & _).
      eapply follow_in_bounds; [|exact Hit]. rewrite Hparts, Hidx. done.
    + destruct Hv as (Hlast & d & w & _ & -> & _). injection Hit as <- _. simpl.
      apply isLast_false in Hlast. simpl in Hlast. lia.
Qed.

Lemma advance_in_bounds n c0 s0 c s :
  (i c0 < length (parts c0))%nat ->
  advance f rootfd n c0 s0 = Ok (Some c) s ->
  (i c < length (parts c))%nat.
Proof.
  revert c0 s0. induction n as [|n IH]; intros c0 s0 Hi Ha.
  - injection Ha as -> _. done.
  - rewrite advance_S in Ha.
    destruct (iter f rootfd c0 s0) as [[r e|c1] s1| |] eqn:Hit; try discriminate.
    eapply IH; [|exact Ha]. eapply iter_in_bounds; done.
Qed.

End BoundsClaim.

Section BoundsStatement.
Context `{Platform} {T : Type} `{Zero T}.

(** C10. Provided that the path splitter keeps its side of the indexing
    ([splitCoversCursor]: a result has a component, and a result that
    starts with the prefix it was given is longer than the prefix), at
    every turn of the loop of [doInRoot], whatever the path, the leaf action
    and the answers of the kernel, the component list is not empty and
    [0 <= i < len(parts)]: the read of [parts[i]] finds a component and
    never panics. *)
Theorem cursor_stays_in_bounds
    (f : sysfdType -> string -> M (T * option error)) (rootfd : sysfdType)
    (nm : string) (parts0 : list string) (sep0 : string)
    (n : nat) (c : cursor T) (s0 s : State) :
  splitCoversCursor ->
  splitPathInRoot nm [] [] = inl (parts0, sep0) ->
  advance f rootfd n (startCursor parts0 sep0 rootfd) s0 = Ok (Some c) s ->
  parts c <> [] /\ (i c < length (parts c))%nat /\ is_Some (parts c !! i c).
Proof.
  intros Hcover Hsplit Ha.
  assert (Hi : (i c < length (parts c))%nat).
  { eapply advance_in_bounds; [exact Hcover| |exact Ha].
    apply Hcover in Hsplit as [Hne _]. simpl.
    destruct parts0; [done|simpl; lia]. }
  split; [|split; [done|]].
  - intros Hnil. rewrite Hnil in Hi. simpl in Hi. lia.
  - apply lookup_lt_is_Some. done.
Qed.

End BoundsStatement.

(** ** Descriptors held during a walk *)

Section WalkFrame.
Context `{Platform} {T : Type}.
Hypothesis HK : kernelFds.
Variable P : sysfdType -> Prop.
Variable rootfd : sysfdType.
Variable r1 : root.
Variables f f' : sysfdType -> string -> M (T * option error).
Hypothesis Hleaf : leavesAgree P rootfd r1 f f'.
Implicit Types (c : cursor T) (s : State).

Lemma walkInv_leave d s :
  walkInv P rootfd r1 d s ->
  walkInv P rootfd r1 rootfd (afterCloseUnlessRoot rootfd d s).
Proof.
  destruct HK as (_ & _ & Hclose).
  intros (Hrt & Hroot & Hd & HP & Hin). unfold afterCloseUnlessRoot.
  destruct (Z.eqb_spec d rootfd) as [->|Hne].
  - repeat split; auto.
  - destruct Hin as [|HnP]; [done|]. unfold afterClose, walkInv. simpl.
    repeat split; auto.
    + rewrite Hclose, Hroot. destruct (Z.eqb_spec rootfd d); [congruence|done].
    + rewrite Hclose, Hroot. destruct (Z.eqb_spec rootfd d); [congruence|done].
    + intros x Hx. simpl. rewrite Hclose, (HP x Hx).
      destruct (Z.eqb_spec x d); [congruence|done].
Qed.

Lemma walkInv_stay d s w :
  walkInv P rootfd r1 d s ->
  (forall x, fdOpen w x = fdOpen (world s) x) ->
  walkInv P rootfd r1 d (mkState (rt s) (closes s) w).
Proof.
  intros (Hrt & Hroot & Hd & HP & Hin) Hw. unfold walkInv. simpl.
  rewrite !Hw. repeat split; auto. intros x Hx. simpl. rewrite Hw. auto.
Qed.

Lemma walkInv_enter d s d' w :
  walkInv P rootfd r1 d s ->
  fdOpen (world s) d' = false ->
  (forall x, fdOpen w x = (x =? d') || fdOpen (world s) x) ->
  walkInv P rootfd r1 d' (afterCloseUnlessRoot rootfd d (mkState (rt s) (closes s) w)).
Proof.
  destruct HK as (_ & _ & Hclose).
  intros (Hrt & Hroot & Hd & HP & Hin) Hfresh Hw.
  assert (Hnr : d' <> rootfd) by congruence.
  assert (Hnd : d' <> d) by congruence.
  assert (HnP : ~ P d') by (intros Hx; apply HP in Hx; congruence).
  unfold afterCloseUnlessRoot. destruct (Z.eqb_spec d rootfd) as [->|Hne].
  - unfold walkInv. simpl. rewrite !Hw, Z.eqb_refl, Hroot, orb_true_r.
    repeat split; auto. intros x Hx. simpl. rewrite Hw, (HP x Hx), orb_true_r. done.
  - destruct Hin as [|HnPd]; [done|]. unfold walkInv, afterClose. simpl.
    rewrite !Hclose, !Hw, Z.eqb_refl, Hroot, orb_true_r. simpl.
    destruct (Z.eqb_spec rootfd d); [congruence|].
    destruct (Z.eqb_spec d' d); [congruence|].
    repeat split; auto. intros x Hx. simpl.
    rewrite Hclose, Hw, (HP x Hx), orb_true_r.
    destruct (Z.eqb_spec x d); [congruence|done].
Qed.

Lemma visit_agree c p s :
  walkInv P rootfd r1 (dirfd c) s ->
  visit f rootfd c p s = visit f' rootfd c p s.
Proof.
  intros Hinv. unfold visit. destruct (isLast c); [|reflexivity].
  unfold bind. destruct (Hleaf _ (p +:+ suffixSep c) _ Hinv) as [-> _]. reflexivity.
Qed.

Lemma visit_frame c p s v s1 :
  walkInv P rootfd r1 (dirfd c) s ->
  visit f rootfd c p s = Ok v s1 ->
  match v with
  | VReturn _ _ => walkInv P rootfd r1 (dirfd c) s1
  | VSymlink c' _ => dirfd c' = dirfd c /\ walkInv P rootfd r1 (dirfd c) s1
  | VNext c' => walkInv P rootfd r1 (dirfd c') s1
  end.
Proof.
  destruct HK as (Hopen & Herr & _).
  intros Hinv Hv. apply visit_cases in Hv. destruct v as [r e|c' t|c'].
  - destruct Hv as [(_ & Hf & _)|(_ & _ & e0 & w & _ & _ & Ho & ->)].
    + eapply Hleaf; done.
    + apply walkInv_stay; [done|]. eapply Herr. exact Ho.
  - destruct Hv as (_ & _ & Hd & _ & _ & _ & _ & [(_ & Hf)|(_ & _ & w & Ho & ->)]).
    + split; [done|]. eapply Hleaf; done.
    + split; [done|]. apply walkInv_stay; [done|]. eapply Herr. exact Ho.
  - destruct Hv as (_ & d & w & Ho & -> & ->). simpl.
    apply Hopen in Ho as [Hfresh Hw]. apply walkInv_enter; done.
Qed.

Lemma follow_frame c t s fl s' :
  walkInv P rootfd r1 (dirfd c) s ->
  follow rootfd c t s = Ok fl s' ->
  match fl with
  | Return _ _ => walkInv P rootfd r1 (dirfd c) s'
  | Continue c' => walkInv P rootfd r1 (dirfd c') s'
  end.
Proof.
  intros Hinv. rewrite follow_eq. destruct (_ <? _); [intros [= <- <-]; done|].
  destruct (splitPathInRoot _ _ _) as [[ps sep]|e]; [|intros [= <- <-]; done].
  simpl. destruct (_ || _); intros [= <- <-]; simpl; [|done].
  apply walkInv_leave. done.
Qed.

Lemma iter_agree c s :
  walkInv P rootfd r1 (dirfd c) s ->
  iter f rootfd c s = iter f' rootfd c s
  /\ forall fl s', iter f rootfd c s = Ok fl s' ->
       match fl with
       | Return _ _ => walkInv P rootfd r1 (dirfd c) s'
       | Continue c' => walkInv P rootfd r1 (dirfd c') s'
       end.
Proof.
  intros Hinv.
  destruct (overBudget (incr (steps c)) (restarts c)) eqn:Hb.
  { rewrite !iter_over_budget by done. split; [done|]. intros fl s' [= <- <-]. done. }
  rewrite !iter_within_budget by done.
  destruct (parts c !! i c) as [p|] eqn:Hp; [|split; [done|discriminate]].
  destruct (String.eqb_spec p "..") as [->|Hdd].
  - split; [done|]. intros fl s'. rewrite dotdot_eq by done. simpl.
    destruct (_ <? _)%nat; intros [= <- <-]; simpl; [done|].
    apply walkInv_leave. done.
  - rewrite <- visit_agree by done. split; [done|]. intros fl s'.
    destruct (visit f rootfd (stepped c) p s) as [[r e|c1 t|c1] s1| |] eqn:Hv;
      try discriminate; apply visit_frame in Hv; try done; simpl in Hv.
    + intros [= <- <-]. done.
    + destruct Hv as [Hd Hv]. intros Hfl.
      apply follow_frame in Hfl; rewrite Hd in *; done.
    + intros [= <- <-]. done.
Qed.

Lemma loop_agree fuel c s :
  walkInv P rootfd r1 (dirfd c) s ->
  loop fuel f rootfd c s = loop fuel f' rootfd c s
  /\ forall res s', loop fuel f rootfd c s = Ok res s' ->
       walkInv P rootfd r1 (snd res) s'.
Proof.
  revert c s. induction fuel as [|fuel IH]; intros c s Hinv.
  - split; [done|discriminate].
  - rewrite !loop_S. destruct (iter_agree c s Hinv) as [<- Hfr].
    destruct (iter f rootfd c s) as [[r e|c1] s1| |] eqn:Hit.
    + split; [done|]. intros res s' [= <- <-]. simpl. apply (Hfr _ _ eq_refl).
    + apply IH. apply (Hfr _ _ eq_refl).
    + split; [done|discriminate].
    + split; [done|discriminate].
Qed.

End WalkFrame.

Section DoInRootFrame.
Context `{Platform} {T : Type} `{Zero T}.
Implicit Types (s : State).

Lemma doInRoot_open (fuel : nat) (nm : string)
    (f : sysfdType -> string -> M (T * option error)) s :
  closed (rt s) = false -> 0 <= refs (rt s) < intMax ->
  doInRoot fuel nm f s =
  let s1 := mkState (held (rt s)) (closes s) (world s) in
  match splitPathInRoot nm [] [] with
  | inr err => (decref;;; ret (zero, Some err)) s1
  | inl (parts0, sep0) =>
      match loop fuel f (fd (rt s)) (startCursor parts0 sep0 (fd (rt s))) s1 with
      | Ok res s2 =>
          (decref;;; ret (fst res)) (afterCloseUnlessRoot (fd (rt s)) (snd res) s2)
      | Panic msg => Panic msg
      | Timeout => Timeout
      end
  end.
Proof.
  intros Hc Hr. unfold doInRoot. unfold bind at 1.
  rewrite incref_open by done. rewrite incr_small by (unfold intMin; lia).
  fold (held (rt s)). cbv zeta.
  destruct (splitPathInRoot nm [] []) as [[parts0 sep0]|err]; [|reflexivity].
  unfold bind at 1. unfold bind at 1. unfold getRoot at 1. cbn [rt held fd].
  unfold bind at 1. unfold startCursor.
  destruct (loop fuel f _ _ _) as [res s2| |]; [|reflexivity..].
  unfold bind at 1. rewrite closeUnlessRoot_eq. reflexivity.
Qed.

Lemma decref_held (r : root) s3 (out : T * option error) :
  closed r = false -> 0 <= refs r < intMax ->
  rt s3 = held r ->
  (decref;;; ret out) s3 = Ok out (mkState r (closes s3) (world s3)).
Proof.
  intros Hc Hr Hrt. unfold bind. rewrite decref_eq by (rewrite Hrt; simpl; lia).
  rewrite Hrt. simpl. unfold ret.
  replace (refs r + 1 - 1) with (refs r) by lia.
  destruct r as [nm0 d0 r0 c0 cl0]. simpl in *. subst c0. reflexivity.
Qed.

(** [doInRoot] does the same with two leaf actions that agree wherever the
    walk can stand, and gives back the handle and the callers' descriptors
    as it found them. *)
Lemma doInRoot_agree (P : sysfdType -> Prop)
    (f f' : sysfdType -> string -> M (T * option error))
    (fuel : nat) (nm : string) s :
  kernelFds ->
  0 <= refs (rt s) < intMax ->
  fdOpen (world s) (fd (rt s)) = true ->
  opens P s ->
  (closed (rt s) = false -> leavesAgree P (fd (rt s)) (held (rt s)) f f') ->
  doInRoot fuel nm f s = doInRoot fuel nm f' s
  /\ forall a s', doInRoot fuel nm f s = Ok a s' ->
       rt s' = rt s /\ fdOpen (world s') (fd (rt s)) = true /\ opens P s'.
Proof.
  intros HK Hr Hroot HP Hleaf. destruct (closed (rt s)) eqn:Hc.
  { rewrite !doInRoot_closed by done. split; [done|]. intros a s' [= _ <-]. done. }
  specialize (Hleaf eq_refl). rewrite !doInRoot_open by done. cbv zeta.
  set (s1 := mkState (held (rt s)) (closes s) (world s)).
  destruct (splitPathInRoot nm [] []) as [[parts0 sep0]|err].
  - assert (Hinv : walkInv P (fd (rt s)) (held (rt s)) (fd (rt s)) s1).
    { unfold walkInv. simpl. repeat split; auto. }
    destruct (loop_agree HK P _ _ f f' Hleaf fuel
                (startCursor parts0 sep0 (fd (rt s))) s1 Hinv) as [<- Hfr].
    destruct (loop fuel f _ _ s1) as [res s2| |]; [|split; [done|discriminate]..].
    split; [done|]. intros a s'.
    pose proof (walkInv_leave HK P _ _ _ _ (Hfr _ _ eq_refl))
      as (Hrt & Hop & _ & HP' & _).
    rewrite (decref_held (rt s)) by done. intros [= _ <-]. simpl.
    split; [done|]. split; [done|]. exact HP'.
  - split; [done|]. intros a s'.
    rewrite (decref_held (rt s)) by done. intros [= _ <-]. simpl.
    split; [done|]. split; [done|]. exact HP.
Qed.

End DoInRootFrame.

(** ** Rename and link *)

Lemma bind_eq `{Platform} {A B} (m m' : M A) (k : A -> M B) (s : State) :
  m s = m' s -> bind m k s = bind m' k s.
Proof. intros Heq. unfold bind. rewrite Heq. reflexivity. Qed.

(** Where what [doInRoot] returns comes from: a call of the leaf action,
    or the resolution itself. *)
Section Provenance.
Context `{Platform} {T : Type}.
Variable f : sysfdType -> string -> M (T * option error).
Implicit Types (c : cursor T) (s : State).

Lemma iter_provenance (rootfd : sysfdType) c s r err s' :
  iter f rootfd c s = Ok (Return r err) s' ->
  (exists d n, f d n s = Ok (r, err) s')
  \/ (exists e, err = Some e /\ resolutionError e).
Proof.
  intros Hit.
  destruct (overBudget (incr (steps c)) (restarts c)) eqn:Hb.
  { rewrite iter_over_budget in Hit by done. injection Hit as _ <- _.
    right. eexists. split; [done|]. unfold resolutionError. tauto. }
  rewrite iter_within_budget in Hit by done.
  destruct (parts c !! i c) as [p|] eqn:Hp; [|discriminate].
  destruct (String.eqb_spec p "..") as [->|Hdd].
  - rewrite dotdot_eq in Hit by done. simpl in Hit.
    destruct (_ <? _)%nat; [|discriminate]. injection Hit as _ <- _.
    right. eexists. split; [done|]. unfold resolutionError. tauto.
  - destruct (visit f rootfd (stepped c) p s) as [[r0 e0|c1 t|c1] s1| |] eqn:Hv;
      try discriminate; apply visit_cases in Hv; simpl in Hv.
    + injection Hit as -> -> ->.
      destruct Hv as [(_ & Hf & _)|(_ & _ & e1 & w & -> & _ & Ho & _)].
      * left. eauto.
      * right. eexists. split; [done|]. unfold resolutionError.
        do 5 right. eauto.
    + rewrite follow_eq in Hit. destruct (_ <? _).
      { injection Hit as _ <- _. right. eexists. split; [done|].
        unfold resolutionError. tauto. }
      destruct (splitPathInRoot _ _ _) as [[ps sep]|e1] eqn:Hsp.
      * simpl in Hit. destruct (_ || _); discriminate.
      * injection Hit as _ <- _. right. eexists. split; [done|].
        unfold resolutionError. do 4 right. left. eauto.
Qed.

Lemma doInRoot_provenance `{Zero T} (fuel : nat) (nm : string) s r err s' :
  doInRoot fuel nm f s = Ok (r, err) s' ->
  (exists d n s1 s2, f d n s1 = Ok (r, err) s2)
  \/ (exists e, err = Some e /\ resolutionError e).
Proof.
  destruct (closed (rt s)) eqn:Hc.
  { rewrite doInRoot_closed by done. intros [= _ <- _]. right.
    eexists. split; [done|]. unfold resolutionError. tauto. }
  intros Hrun. unfold doInRoot in Hrun. unfold bind at 1 in Hrun.
  rewrite incref_open in Hrun by done.
  destruct (splitPathInRoot nm [] []) as [[parts0 sep0]|e] eqn:Hsp.
  - unfold bind at 1 in Hrun. unfold bind at 1 in Hrun.
    unfold getRoot at 1 in Hrun. cbn [rt fd] in Hrun.
    unfold bind at 1 in Hrun.
    destruct (loop fuel f _ _ _) as [[[r0 e0] d] s2| |] eqn:Hl; try discriminate.
    unfold bind at 1 in Hrun. rewrite closeUnlessRoot_eq in Hrun.
    unfold ret at 1 in Hrun. cbn [fst snd] in Hrun. unfold bind in Hrun.
    destruct (decref _) as [[] s4| |]; try discriminate.
    unfold ret in Hrun. injection Hrun as <- <- _.
    apply loop_returns in Hl as (n & c & s3 & _ & _ & Hit & _).
    apply iter_provenance in Hit as [(d0 & n0 & Hf)|Hres]; [left; eauto|right; done].
  - unfold bind at 1 in Hrun. unfold ret at 1 in Hrun.
    unfold bind in Hrun. destruct (decref _) as [[] s4| |]; try discriminate.
    unfold ret in Hrun. injection Hrun as _ <- _. right.
    eexists. split; [done|]. unfold resolutionError. do 4 right. left. eauto.
Qed.

End Provenance.

Section TwoParents.
Context `{Platform}.
Variable prim : sysfdType -> string -> sysfdType -> string -> M (option error).
Hypothesis HK : kernelFds.
Hypothesis Hprim : worldOnly prim.
Implicit Types (s : State).

Lemma newpath_leaf_agree (refs0 : Z) (r2 : root) (op : sysfdType) (on : string)
    (rootfd : sysfdType) :
  refs r2 = refs0 + 2 -> closed r2 = false ->
  leavesAgree (fun x => x = op) rootfd r2
    (fun np nn => e <- prim op on np nn;; ret (tt, e))
    (fun np nn => e <- guarded (parentsLive refs0 2) prim op on np nn;; ret (tt, e)).
Proof.
  intros Hrefs Hclosed np nn s Hinv.
  pose proof Hinv as (Hrt & Hroot & Hnp & HP & Hin).
  assert (Hg : parentsLive refs0 2 op np s = true).
  { unfold parentsLive, bothOpen, heldTimes.
    rewrite (HP op eq_refl), Hnp, Hrt, Hrefs, Hclosed, Z.eqb_refl. reflexivity. }
  unfold bind, guarded. rewrite Hg. split; [done|].
  destruct (Hprim op on np nn s) as (e & w & -> & Hw). unfold ret. cbn.
  intros a s' [= _ <-]. apply walkInv_stay; done.
Qed.

Lemma oldpath_leaf_agree (refs0 : Z) (r1 : root) (fuel : nat) (newname : string) :
  refs r1 = refs0 + 1 -> closed r1 = false -> 0 <= refs0 < intMax - 1 ->
  leavesAgree (fun _ => False) (fd r1) r1
    (fun op on =>
       re' <- doInRoot fuel newname
                (fun np nn => e <- prim op on np nn;; ret (tt, e));;
       ret (tt, snd re'))
    (fun op on =>
       re' <- doInRoot fuel newname
                (fun np nn => e <- guarded (parentsLive refs0 2) prim op on np nn;;
                              ret (tt, e));;
       ret (tt, snd re')).
Proof.
  intros Hrefs Hclosed Hrange op on s Hinv.
  pose proof Hinv as (Hrt & Hroot & Hop & _ & _).
  destruct (doInRoot_agree (fun x => x = op)
              (fun np nn => e <- prim op on np nn;; ret (tt, e))
              (fun np nn => e <- guarded (parentsLive refs0 2) prim op on np nn;;
                            ret (tt, e))
              fuel newname s HK) as [Heq Hfr].
  - rewrite Hrt, Hrefs. lia.
  - rewrite Hrt. done.
  - intros x ->. done.
  - intros _. rewrite Hrt. apply newpath_leaf_agree; simpl; [lia|done].
  - split; [apply bind_eq; exact Heq|].
    intros a s'. unfold bind at 1.
    destruct (doInRoot fuel newname _ s) as [re s1| |] eqn:Hd; try discriminate.
    destruct (Hfr _ _ eq_refl) as (Hrt1 & Hroot1 & Hop1).
    unfold ret. intros [= _ <-]. unfold walkInv.
    rewrite Hrt1, Hrt in *. repeat split; auto. intros x [].
Qed.

Lemma resolveBoth_agree (fuel : nat) (oldname newname : string) s :
  fdOpen (world s) (fd (rt s)) = true ->
  0 <= refs (rt s) < intMax - 1 ->
  resolveBoth (guarded (parentsLive (refs (rt s)) 2) prim) fuel oldname newname s
  = resolveBoth prim fuel oldname newname s.
Proof.
  intros Hroot Hr. unfold resolveBoth. symmetry.
  eapply (doInRoot_agree (fun _ => False)).
  - exact HK.
  - lia.
  - exact Hroot.
  - intros x [].
  - intros Hc. apply (oldpath_leaf_agree (refs (rt s)) (held (rt s))); simpl; done.
Qed.

End TwoParents.

Section TwoParentsClaim.
Context `{Platform}.

Lemma rootRename_resolveBoth p fuel oldname newname :
  rootRename p fuel oldname newname =
  (re <- resolveBoth p fuel oldname newname;;
   match snd re with
   | Some err => ret (Some (LinkError "renameat" oldname newname err))
   | None => ret None
   end).
Proof. reflexivity. Qed.

Lemma rootLink_resolveBoth p fuel oldname newname :
  rootLink p fuel oldname newname =
  (re <- resolveBoth p fuel oldname newname;;
   match snd re with
   | Some err => ret (Some (LinkError "linkat" oldname newname err))
   | None => ret None
   end).
Proof. reflexivity. Qed.

Lemma resolveBoth_provenance
    (prim : sysfdType -> string -> sysfdType -> string -> M (option error))
    (fuel : nat) (oldname newname : string) (s : State) (err : option error) s' :
  kernelFds -> worldOnly prim ->
  fdOpen (world s) (fd (rt s)) = true ->
  0 <= refs (rt s) < intMax - 1 ->
  resolveBoth prim fuel oldname newname s = Ok (tt, err) s' ->
  (exists op on np nn s1 s2,
      parentsLive (refs (rt s)) 2 op np s1 = true /\
      prim op on np nn s1 = Ok err s2)
  \/ (exists e, err = Some e /\ resolutionError e).
Proof.
  intros HK Hprim Hroot Hr Hrun.
  rewrite <- (resolveBoth_agree prim HK Hprim) in Hrun by done.
  unfold resolveBoth in Hrun.
  apply doInRoot_provenance in Hrun as [(op & on & s1 & s2 & Hleaf)|Hres];
    [|right; exact Hres].
  unfold bind at 1 in Hleaf.
  destruct (doInRoot fuel newname _ s1) as [[[] e'] s3| |] eqn:Hin; try discriminate.
  unfold ret in Hleaf. cbn [snd] in Hleaf. injection Hleaf as -> _.
  apply doInRoot_provenance in Hin as [(np & nn & s4 & s5 & Hleaf)|Hres];
    [|right; exact Hres].
  unfold bind, guarded in Hleaf.
  destruct (parentsLive (refs (rt s)) 2 op np s4) eqn:Hlive; [|discriminate].
  destruct (prim op on np nn s4) as [e0 s6| |] eqn:Hp; try discriminate.
  unfold ret in Hleaf. injection Hleaf as -> _.
  left. exists op, on, np, nn, s4, s6. done.
Qed.

(** C8, as the code has it.  [rootRename], and [rootLink] in the same way,
    resolves the old path with, as its leaf action, the resolution of the
    new path, whose leaf action is the system call on the two parents and
    the two last names; each of the two resolutions takes its own reference
    on the handle.  So:
    - the operation is the nested resolution, its error put in a
      [*LinkError];
    - the system call is entered only in states where the descriptors of
      both parent directories are open and the handle, not closed, is held
      twice more than when the operation started: guarding the system call
      with that condition changes nothing to what the operation does;
    - what the operation returns is what the system call returned when it
      was entered in such a state, or else an error of one of the two
      resolutions; in particular an operation that returns [nil] has
      entered the system call, with both parents open, and got [nil]. *)
Theorem rename_link_hold_both_parents
    (prim : sysfdType -> string -> sysfdType -> string -> M (option error))
    (fuel : nat) (oldname newname : string) (s : State) :
  kernelFds -> worldOnly prim ->
  fdOpen (world s) (fd (rt s)) = true ->
  0 <= refs (rt s) < intMax - 1 ->
  (rootRename (guarded (parentsLive (refs (rt s)) 2) prim) fuel oldname newname s
   = rootRename prim fuel oldname newname s
   /\ rootLink (guarded (parentsLive (refs (rt s)) 2) prim) fuel oldname newname s
      = rootLink prim fuel oldname newname s)
  /\ (rootRename prim fuel oldname newname
      = (re <- doInRoot fuel oldname
                 (fun oldparent oldname' =>
                    re' <- doInRoot fuel newname
                             (fun newparent newname' =>
                                e <- prim oldparent oldname' newparent newname';;
                                ret (tt, e));;
                    ret (tt, snd re'));;
         match snd re with
         | Some err => ret (Some (LinkError "renameat" oldname newname err))
         | None => ret None
         end)
      /\ rootLink prim fuel oldname newname
         = (re <- doInRoot fuel oldname
                    (fun oldparent oldname' =>
                       re' <- doInRoot fuel newname
                                (fun newparent newname' =>
                                   e <- prim oldparent oldname' newparent newname';;
                                   ret (tt, e));;
                       ret (tt, snd re'));;
            match snd re with
            | Some err => ret (Some (LinkError "linkat" oldname newname err))
            | None => ret None
            end))
  /\ (forall e s',
        rootRename prim fuel oldname newname s = Ok e s' ->
        (exists op on np nn s1 s2 e0,
            parentsLive (refs (rt s)) 2 op np s1 = true /\
            prim op on np nn s1 = Ok e0 s2 /\
            e = match e0 with
                | Some err => Some (LinkError "renameat" oldname newname err)
                | None => None
                end)
        \/ (exists e0, e = Some (LinkError "renameat" oldname newname e0)
                       /\ resolutionError e0))
  /\ (forall e s',
        rootLink prim fuel oldname newname s = Ok e s' ->
        (exists op on np nn s1 s2 e0,
            parentsLive (refs (rt s)) 2 op np s1 = true /\
            prim op on np nn s1 = Ok e0 s2 /\
            e = match e0 with
                | Some err => Some (LinkError "linkat" oldname newname err)
                | None => None
                end)
        \/ (exists e0, e = Some (LinkError "linkat" oldname newname e0)
                       /\ resolutionError e0)).
Proof.
  intros HK Hprim Hroot Hr. split; [|split; [split; reflexivity|]].
  - rewrite !rootRename_resolveBoth, !rootLink_resolveBoth. unfold bind.
    rewrite !(resolveBoth_agree prim HK Hprim) by done. done.
  - split; intros e s'; rewrite ?rootRename_resolveBoth, ?rootLink_resolveBoth;
      unfold bind at 1;
      destruct (resolveBoth prim fuel oldname newname s) as [[[] err] s1| |] eqn:Hb;
      try discriminate; cbn [snd]; intros Hret;
      apply (resolveBoth_provenance prim fuel oldname newname s err s1 HK Hprim
               Hroot Hr) in Hb
        as [(op & on & np & nn & s2 & s3 & Hlive & Hp)|(e0 & -> & Hres)].
    + left. exists op, on, np, nn, s2, s3, err. split; [done|]. split; [done|].
      destruct err; injection Hret as <- _; reflexivity.
    + right. injection Hret as <- _. eauto.
    + left. exists op, on, np, nn, s2, s3, err. split; [done|]. split; [done|].
      destruct err; injection Hret as <- _; reflexivity.
    + right. injection Hret as <- _. eauto.
Qed.

End TwoParentsClaim.

(** ** The small platform keeps the contracts *)

Section DemoFacts.
Import Demo.

Lemma dirOf_fresh (tab : list (sysfdType * list string)) (k : sysfdType) :
  freshFd tab <= k -> dirOf k tab = None.
Proof.
  induction tab as [|[k0 p] tab IH]; simpl; [done|]. intros Hk.
  destruct (Z.eqb_spec k0 k); [lia|]. apply IH. lia.
Qed.

Lemma dirOf_filter (tab : list (sysfdType * list string)) (d x : sysfdType) :
  dirOf x (filter (fun e => fst e <> d) tab)
  = if x =? d then None else dirOf x tab.
Proof.
  induction tab as [|[k p] tab IH]; simpl.
  - destruct (x =? d); reflexivity.
  - destruct (decide (k = d)) as [Hkd|Hkd].
    + rewrite filter_cons_False by (simpl; auto). rewrite IH.
      destruct (Z.eqb_spec x d), (Z.eqb_spec k x); try reflexivity; lia.
    + rewrite filter_cons_True by done. simpl. rewrite IH.
      destruct (Z.eqb_spec x d), (Z.eqb_spec k x); try reflexivity; lia.
Qed.

Lemma demo_kernelFds : @kernelFds demoPlatform.
Proof.
  unfold kernelFds. simpl. split; [|split].
  - intros d n w d' w'. unfold demo_openat, demo_fdOpen.
    destruct (dirOf d (fdtab w)) as [dir|]; [|discriminate].
    destruct (lookupPath _ _) as [[es| |t]|]; try discriminate.
    intros [= <- <-]. simpl. split.
    + rewrite dirOf_fresh by lia. reflexivity.
    + intros x. rewrite (Z.eqb_sym x). destruct (_ =? x); reflexivity.
  - intros d n w e w'. unfold demo_openat.
    destruct (dirOf d (fdtab w)) as [dir|]; [|intros [= _ <-]; done].
    destruct (lookupPath _ _) as [[es| |t]|]; try discriminate;
      intros [= _ <-]; done.
  - intros d w x. unfold demo_fdOpen, demo_kclose. simpl. rewrite dirOf_filter.
    destruct (x =? d); reflexivity.
Qed.

Lemma journalAt_worldOnly : @worldOnly demoPlatform journalAt.
Proof.
  intros op on np nn [r cl w]. unfold journalAt. simpl.
  destruct (dirOf op (fdtab w)), (dirOf np (fdtab w)); eauto.
Qed.

Lemma kindAt_neverAnswers (e0 : error) :
  e0 = ENAMETOOLONG \/ e0 = ELOOP -> @neverAnswers demoPlatform string e0 kindAt.
Proof.
  intros He0.
  assert (Hne : forall e, In e [EBADF; ENOENT; ENOTDIR; EINVAL; errPathEscapes;
                                errorString "empty path"] -> e <> e0).
  { intros e He. simpl in He. unfold EBADF, ENOENT, ENOTDIR in He.
    destruct He0; subst; intuition congruence. }
  assert (Hsym : forall t, errSymlink t <> e0) by (destruct He0; subst; congruence).
  unfold neverAnswers. simpl. split; [|split].
  - intros d n s r s'. unfold kindAt.
    assert (Hgo : forall e, In e [EBADF; ENOENT; ENOTDIR; EINVAL] ->
              Ok (EmptyString, Some e) s = Ok r s' -> r.2 <> Some e0).
    { intros e He [= <- _]. simpl. intros [= <-]. revert He. simpl.
      unfold EBADF, ENOENT, ENOTDIR. destruct He0; subst; intuition congruence. }
    assert (Hok : forall k, Ok (k, None) s = Ok r s' -> r.2 <> Some e0).
    { intros k [= <- _]. done. }
    destruct (dirOf d _) as [dir|]; [|apply Hgo; simpl; tauto].
    destruct (components n) as [|p [|q l]]; try solve [apply Hgo; simpl; tauto].
    destruct (lookupPath _ _) as [[es| |t]|]; try destruct (String.eqb _ _);
      try solve [apply Hgo; simpl; tauto]; try apply Hok.
    intros [= <- _]. simpl. intros [= Ht]. eapply Hsym. exact Ht.
  - intros d n w e w'. unfold demo_openat.
    destruct (dirOf d _) as [dir|]; [|intros [= <- _]; apply Hne; simpl; tauto].
    destruct (lookupPath _ _) as [[es| |t]|]; try discriminate;
      intros [= <- _]; try solve [apply Hne; simpl; tauto]. apply Hsym.
  - intros t pre suf e. unfold demo_splitPathInRoot.
    destruct t as [|ch t]; [intros [= <-]; apply Hne; simpl; tauto|].
    destruct (isSep ch); [intros [= <-]; apply Hne; simpl; tauto|].
    destruct (hasNul _); [intros [= <-]; apply Hne; simpl; tauto|discriminate].
Qed.

Lemma pieces_nonempty (s : string) : pieces s <> [].
Proof.
  destruct s as [|ch s]; simpl; [done|].
  destruct (isSep ch); [done|]. destruct (pieces s); done.
Qed.

Lemma components_head (ch : ascii) (s : string) :
  isSep ch = false -> components (String ch s) <> [].
Proof.
  intros Hch. unfold components. simpl. rewrite Hch.
  destruct (pieces s) as [|p ps]; rewrite filter_cons_True by done; done.
Qed.

Lemma dropDots_nonempty (l : list string) : l <> [] -> dropDots l <> [].
Proof.
  induction l as [|p l IH]; [done|]. intros _. simpl.
  destruct l as [|q l]; [done|].
  destruct (String.eqb p "."); [apply IH; done|done].
Qed.

Lemma demo_splitCoversCursor : @splitCoversCursor demoPlatform.
Proof.
  intros t pre suf ps sep. simpl. unfold demo_splitPathInRoot.
  destruct t as [|ch t]; [discriminate|].
  destruct (isSep ch) eqn:Hch; [discriminate|].
  destruct (hasNul _); [discriminate|].
  set (mid := dropDots (components (String ch t))).
  assert (Hmid : mid <> []) by (apply dropDots_nonempty, components_head; done).
  intros [= <- _].
  assert (Hlen : forall mid', mid' ++ suf <> [] ->
            pre ++ mid' ++ suf <> [] /\
            (take (length pre) (pre ++ mid' ++ suf) = pre ->
             (length pre < length (pre ++ mid' ++ suf))%nat)).
  { intros mid' Hne. split.
    - destruct pre; [done|discriminate].
    - intros _. rewrite !length_app.
      destruct (mid' ++ suf) eqn:Hm; [done|].
      rewrite <- length_app, Hm. simpl. lia. }
  apply Hlen. destruct suf as [|x suf].
  - rewrite app_nil_r. done.
  - intros Hnil. apply app_eq_nil in Hnil as [_ Hnil]. discriminate.
Qed.

End DemoFacts.

(** ** The statements at work on the small platform *)

Lemma budget_abort_needs_both_witness :
  iter Demo.kindAt 3 (mkCursor ["a"%string] EmptyString 3 0 255 9 0 EmptyString)
    Demo.demoState
  = Ok (Return EmptyString (Some ENAMETOOLONG)) Demo.demoState
  /\ (forall r s',
        iter Demo.kindAt 3 (mkCursor ["a"%string] EmptyString 3 0 300 8 0 EmptyString)
          Demo.demoState
        <> Ok (Return r (Some ENAMETOOLONG)) s').
Proof.
  destruct (@budget_abort_needs_both Demo.demoPlatform string Demo.kindAt 3)
    as [Hover Hwithin].
  split.
  - apply (Hover (mkCursor ["a"%string] EmptyString 3 0 255 9 0 EmptyString)).
    vm_compute. split; reflexivity.
  - intros r s'.
    apply (proj1 (Hwithin (kindAt_neverAnswers ENAMETOOLONG (or_introl eq_refl)))).
    vm_compute. intros [_ Hlt]. discriminate.
Defined.

Lemma dotdot_cancels_or_escapes_witness :
  iter Demo.kindAt 3
    (mkCursor ["a"; "b"; ".."; ".."; "c"]%string EmptyString 5 2 2 0 0 EmptyString)
    Demo.demoState
  = Ok (Continue (mkCursor ["c"%string] EmptyString 3 0 3 1 0 EmptyString))
      (afterClose 5 Demo.demoState).
Proof.
  apply (proj2 (proj2 (proj2 (proj2
           (@dotdot_cancels_or_escapes Demo.demoPlatform string Demo.kindAt 3
              (mkCursor ["a"; "b"; ".."; ".."; "c"]%string EmptyString 5 2 2 0 0
                 EmptyString)
              Demo.demoState
              ltac:(vm_compute; intros [Hlt _]; discriminate)
              eq_refl))))).
  simpl. lia.
Defined.

Lemma symlink_limit_witness :
  exists c s,
    advance Demo.kindAt 3 2 (startCursor ["self"; "self"; "a"]%string EmptyString 3)
      Demo.demoState = Ok (Some c) s
    /\ symlinks c = 2.
Proof.
  eexists _, _. split; [vm_compute; reflexivity|].
  refine (proj1 (proj1 (@symlink_limit Demo.demoPlatform string Demo.kindAt 3
                          (startCursor ["self"; "self"; "a"]%string EmptyString 3)
                          Demo.demoState _ _) 2%nat _ _ _)).
  - vm_compute. split; [discriminate|reflexivity].
  - reflexivity.
  - vm_compute. reflexivity.
Defined.

Lemma symlink_splice_witness :
  follow 3 (mkCursor ["a"; "up"; "x"]%string EmptyString 4 1 2 0 0 EmptyString)
    "b/../.." Demo.demoState
  = Ok (Continue (mkCursor ["a"; "b"; ".."; ".."; "x"]%string EmptyString 4 1 2 0 1
                    EmptyString))
      Demo.demoState.
Proof.
  apply (proj2 (@symlink_splice Demo.demoPlatform string 3
                  (mkCursor ["a"; "up"; "x"]%string EmptyString 4 1 2 0 0 EmptyString)
                  "b/../.." Demo.demoState
                  ["a"; "b"; ".."; ".."; "x"]%string EmptyString
                  ltac:(vm_compute; discriminate) eq_refl)).
  vm_compute. intros [Hlt|Hne]; [lia|congruence].
Defined.

Lemma rootRemoveAll_strips_then_checks_witness :
  rootRemoveAll Demo.removeNothing 5 "a/.//" Demo.demoState
  = Ok (Some (PathError "RemoveAll" "a/." EINVAL)) Demo.demoState
  /\ rootRemoveAll Demo.removeNothing 5 "missing///" Demo.demoState
     = Ok None Demo.demoState.
Proof.
  split.
  - apply (proj1 (proj2 (@rootRemoveAll_strips_then_checks Demo.demoPlatform
                           Demo.removeNothing 5 "a/.//" Demo.demoState))).
    reflexivity.
  - apply (proj2 (proj2 (@rootRemoveAll_strips_then_checks Demo.demoPlatform
                           Demo.removeNothing 5 "missing///" Demo.demoState))
             eq_refl (Some Demo.ENOENT) Demo.demoState);
      reflexivity.
Defined.

Lemma rename_link_hold_both_parents_witness :
  rootRename (guarded (parentsLive 0 2) Demo.journalAt) 20 "a/f" "a/b/g" Demo.demoState
  = rootRename Demo.journalAt 20 "a/f" "a/b/g" Demo.demoState
  /\ (exists op on np nn s1 s2,
        parentsLive 0 2 op np s1 = true
        /\ Demo.journalAt op on np nn s1 = Ok None s2)
  /\ (exists s',
        rootRename Demo.journalAt 20 "a/f" "a/b/g" Demo.demoState = Ok None s'
        /\ Demo.journal (world s') = [(["a"; "f"], ["a"; "b"; "g"])]%string
        /\ rt s' = rt Demo.demoState).
Proof.
  destruct (@rename_link_hold_both_parents Demo.demoPlatform Demo.journalAt 20
              "a/f" "a/b/g" Demo.demoState
              demo_kernelFds journalAt_worldOnly eq_refl
              ltac:(vm_compute; split; [discriminate|reflexivity]))
    as ([Hguard _] & _ & Hrename & _).
  split; [exact Hguard|].
  split; [|eexists; split; [vm_compute; reflexivity|split; reflexivity]].
  assert (Hrun : exists s',
             rootRename Demo.journalAt 20 "a/f" "a/b/g" Demo.demoState = Ok None s')
    by (eexists; vm_compute; reflexivity).
  destruct Hrun as [s' Hrun].
  destruct (Hrename None s' Hrun)
    as [(op & on & np & nn & s1 & s2 & e0 & Hlive & Hp & He)
       |(e0 & He & _)]; [|discriminate].
  destruct e0; [discriminate|]. exists op, on, np, nn, s1, s2. split; assumption.
Defined.

(** C8, as the claim has it, fails: the system call of a rename is not
    entered with the handle held once.  Guarded with that condition it is
    never entered, while the rename itself succeeds, the call having been
    made with the handle held twice.  And the first acquisition does not
    cover the resolution of the new path: when another goroutine closes the
    handle after the rename has acquired it, the resolution of the new path,
    started by the leaf action of the old one, returns [ErrClosed]. *)
Lemma rename_not_under_one_acquisition :
  rootRename (guarded (heldTimes 0 1) Demo.journalAt) 20 "a/f" "a/b/g" Demo.demoState
  = Panic "primitive entered too early or too late"
  /\ (exists s', rootRename Demo.journalAt 20 "a/f" "a/b/g" Demo.demoState
                 = Ok None s'
                 /\ Demo.journal (world s') = [(["a"; "f"], ["a"; "b"; "g"])]%string)
  /\ rootRename (guarded (heldTimes 0 1) Demo.journalAt) 20 "a/f" "a/b/g"
       Demo.demoState
     <> rootRename Demo.journalAt 20 "a/f" "a/b/g" Demo.demoState
  /\ (exists s',
        (incref;;; Close;;;
         doInRoot 20 "a/b/g"
           (fun np nn => e <- Demo.journalAt 3 "f" np nn;; ret (tt, e)))
          Demo.demoState
        = Ok (tt, Some ErrClosed) s'
        /\ refs (rt s') = 1 /\ Demo.journal (world s') = []).
Proof.
  split; [vm_compute; reflexivity|]. split; [|split].
  - eexists. split; [vm_compute; reflexivity|]. reflexivity.
  - vm_compute. discriminate.
  - eexists. split; [vm_compute; reflexivity|]. split; reflexivity.
Qed.

Lemma cursor_stays_in_bounds_witness :
  exists c s,
    advance Demo.kindAt 3 3 (startCursor ["up"; "a"; "b"]%string EmptyString 3)
      Demo.demoState = Ok (Some c) s
    /\ (i c < length (parts c))%nat.
Proof.
  eexists _, _. split; [vm_compute; reflexivity|].
  refine (proj1 (proj2 (@cursor_stays_in_bounds Demo.demoPlatform string _ Demo.kindAt 3
                          "up/a/b" ["up"; "a"; "b"]%string EmptyString 3 _
                          Demo.demoState _ demo_splitCoversCursor _ _))).
  - vm_compute. reflexivity.
  - vm_compute. reflexivity.
Defined.

(** * Further properties of the resolver and of the handle *)

(** ** What a walk keeps true *)

Section WalkInvariant.
Context `{Platform} {T : Type}.
Variable f : sysfdType -> string -> M (T * option error).
Variable rootfd : sysfdType.
(** A property of the state and of the directory the walk stands in. *)
Variable Q : sysfdType -> State -> Prop.
Hypothesis Qleaf : forall d n s r s2, Q d s -> f d n s = Ok r s2 -> Q d s2.
Hypothesis Qerr : forall d n s e w,
  Q d s -> openat d n (world s) = (inr e, w) -> Q d (mkState (rt s) (closes s) w).
Hypothesis Qopen : forall d n s d' w,
  Q d s -> openat d n (world s) = (inl d', w) ->
  Q d' (afterCloseUnlessRoot rootfd d (mkState (rt s) (closes s) w)).
Hypothesis Qleave : forall d s, Q d s -> Q rootfd (afterCloseUnlessRoot rootfd d s).
Implicit Types (c : cursor T) (s : State).

Lemma follow_keeps c t s fl s' :
  Q (dirfd c) s ->
  follow rootfd c t s = Ok fl s' ->
  match fl with
  | Return _ _ => Q (dirfd c) s'
  | Continue c' => Q (dirfd c') s'
  end.
Proof.
  intros HQ. rewrite follow_eq. destruct (_ <? _); [intros [= <- <-]; done|].
  destruct (splitPathInRoot _ _ _) as [[ps sep]|e]; [|intros [= <- <-]; done].
  simpl. destruct (_ || _); intros [= <- <-]; simpl; [|done].
  apply Qleave. done.
Qed.

Lemma iter_keeps c s fl s' :
  Q (dirfd c) s ->
  iter f rootfd c s = Ok fl s' ->
  match fl with
  | Return _ _ => Q (dirfd c) s'
  | Continue c' => Q (dirfd c') s'
  end.
Proof.
  intros HQ.
  destruct (overBudget (incr (steps c)) (restarts c)) eqn:Hb.
  { rewrite iter_over_budget by done. intros [= <- <-]. done. }
  rewrite iter_within_budget by done.
  destruct (parts c !! i c) as [p|] eqn:Hp; [|discriminate].
  destruct (String.eqb_spec p "..") as [->|Hdd].
  - rewrite dotdot_eq by done. simpl.
    destruct (_ <? _)%nat; intros [= <- <-]; simpl; [done|].
    apply Qleave. done.
  - destruct (visit f rootfd (stepped c) p s) as [[r e|c1 t|c1] s1| |] eqn:Hv;
      try discriminate; apply visit_cases in Hv; simpl in Hv.
    + intros [= <- <-].
      destruct Hv as [(_ & Hf & _)|(_ & _ & e0 & w & _ & _ & Ho & ->)].
      * eapply Qleaf; done.
      * eapply Qerr; done.
    + destruct Hv as (_ & _ & Hd & _ & _ & _ & _ & Hv). intros Hfl.
      assert (HQ1 : Q (dirfd c1) s1).
      { rewrite Hd. destruct Hv as [(_ & Hf)|(_ & _ & w & Ho & ->)].
        - eapply Qleaf; done.
        - eapply Qerr; done. }
      apply follow_keeps in Hfl; [|done]. rewrite Hd in Hfl. done.
    + destruct Hv as (_ & d & w & Ho & -> & ->). intros [= <- <-]. simpl.
      eapply Qopen; done.
Qed.

Lemma loop_keeps fuel c s res s' :
  Q (dirfd c) s ->
  loop fuel f rootfd c s = Ok res s' ->
  Q (snd res) s'.
Proof.
  revert c s. induction fuel as [|fuel IH]; intros c s HQ; [discriminate|].
  rewrite loop_S.
  destruct (iter f rootfd c s) as [[r e|c1] s1| |] eqn:Hit; try discriminate;
    apply iter_keeps in Hit; try done.
  - intros [= <- <-]. done.
  - apply IH. done.
Qed.

End WalkInvariant.

Section DoInRootKeeps.
Context `{Platform} {T : Type} `{Zero T}.
Implicit Types (s : State).

(** From an invariant of the walk to a property of [doInRoot]: what holds
    of the state in which the reference is released, and so of the state
    that [doInRoot] returns. *)
Lemma doInRoot_keeps (f : sysfdType -> string -> M (T * option error))
    (Q : sysfdType -> State -> Prop) (fuel : nat) (nm : string) s a s' :
  closed (rt s) = false -> 0 <= refs (rt s) < intMax ->
  (forall d n s1 r s2, Q d s1 -> f d n s1 = Ok r s2 -> Q d s2) ->
  (forall d n s1 e w, Q d s1 -> openat d n (world s1) = (inr e, w) ->
                      Q d (mkState (rt s1) (closes s1) w)) ->
  (forall d n s1 d' w, Q d s1 -> openat d n (world s1) = (inl d', w) ->
     Q d' (afterCloseUnlessRoot (fd (rt s)) d (mkState (rt s1) (closes s1) w))) ->
  (forall d s1, Q d s1 -> Q (fd (rt s)) (afterCloseUnlessRoot (fd (rt s)) d s1)) ->
  (forall d s1, Q d s1 -> rt s1 = held (rt s)) ->
  Q (fd (rt s)) (mkState (held (rt s)) (closes s) (world s)) ->
  doInRoot fuel nm f s = Ok a s' ->
  exists s3, Q (fd (rt s)) s3 /\ s' = mkState (rt s) (closes s3) (world s3).
Proof.
  intros Hc Hr Qleaf Qerr Qopen Qleave Qrt Q0.
  rewrite doInRoot_open by done. cbv zeta.
  set (s1 := mkState (held (rt s)) (closes s) (world s)) in *.
  destruct (splitPathInRoot nm [] []) as [[parts0 sep0]|err].
  - destruct (loop fuel f _ _ s1) as [res s2| |] eqn:Hl; try discriminate.
    apply (loop_keeps f (fd (rt s)) Q Qleaf Qerr Qopen Qleave) in Hl; [|done].
    apply Qleave in Hl.
    rewrite (decref_held (rt s)) by eauto. intros [= _ <-]. eauto.
  - rewrite (decref_held (rt s)) by eauto. intros [= _ <-]. eauto.
Qed.

End DoInRootKeeps.

(** ** The reference and the descriptors of a resolution *)

Section HandleKept.
Context `{Platform}.
Implicit Types (s : State).

Lemma released_world s w :
  released (mkState (rt s) (closes s) w) = released s.
Proof. reflexivity. Qed.

Lemma released_leave (rootfd d : sysfdType) s :
  fd (rt s) = rootfd ->
  rt (afterCloseUnlessRoot rootfd d s) = rt s
  /\ released (afterCloseUnlessRoot rootfd d s) = released s.
Proof.
  intros <-. unfold afterCloseUnlessRoot.
  destruct (Z.eqb_spec d (fd (rt s))); [done|].
  unfold released, afterClose. simpl. rewrite filter_cons_False by done. done.
Qed.

Lemma doInRoot_handle_kept {T} `{Zero T}
    (f : sysfdType -> string -> M (T * option error))
    (fuel : nat) (nm : string) s a s' :
  0 <= refs (rt s) < intMax ->
  (forall d n s1 r s2,
     rt s1 = held (rt s) -> f d n s1 = Ok r s2 ->
     rt s2 = rt s1 /\ released s2 = released s1) ->
  doInRoot fuel nm f s = Ok a s' ->
  rt s' = rt s /\ released s' = released s.
Proof.
  intros Hr Hleaf Hrun. destruct (closed (rt s)) eqn:Hc.
  { rewrite doInRoot_closed in Hrun by done. injection Hrun as _ <-. done. }
  set (Q := fun (_ : sysfdType) s1 =>
              rt s1 = held (rt s) /\ released s1 = released s).
  assert (Hleave : forall d s1, Q d s1 ->
            Q (fd (rt s)) (afterCloseUnlessRoot (fd (rt s)) d s1)).
  { intros d s1 [Hrt Hrel].
    destruct (released_leave (fd (rt s)) d s1) as [Hrt' Hrel'];
      [rewrite Hrt; reflexivity|].
    split; congruence. }
  destruct (doInRoot_keeps f Q fuel nm s a s' Hc Hr) as (s3 & [Hrt Hrel] & ->);
    try done.
  - intros d n s1 r s2 [Hrt Hrel] Hf.
    destruct (Hleaf _ _ _ _ _ Hrt Hf) as [Hrt2 Hrel2]. split; congruence.
  - intros d n s1 d' w HQ _. apply (Hleave d (mkState (rt s1) (closes s1) w)).
    exact HQ.
  - intros d s1 [Hrt _]. done.
  - split; [done|]. rewrite <- Hrel. unfold released. simpl. rewrite Hrt. done.
Qed.

End HandleKept.

Section HandleKeptStatements.
Context `{Platform}.
Implicit Types (s : State).

(** X1. [doInRoot] gives the handle back as it took it, on every return:
    with a leaf action that leaves the handle alone, the handle ([refs]
    included) is after the call what it was before, and the root's
    descriptor has not been passed to [syscall.Close].  The same holds of a
    rename and of a link, whose leaf action is itself a [doInRoot]. *)
Theorem doInRoot_gives_back_handle s :
  0 <= refs (rt s) < intMax - 1 ->
  (forall (T : Type) (Z : Zero T) (f : sysfdType -> string -> M (T * option error))
          fuel nm a s',
     (forall d n s1 r s2,
        rt s1 = held (rt s) -> f d n s1 = Ok r s2 ->
        rt s2 = rt s1 /\ released s2 = released s1) ->
     doInRoot fuel nm f s = Ok a s' ->
     rt s' = rt s /\ released s' = released s)
  /\ (forall prim fuel oldname newname,
        (forall op on np nn s1 r s2,
           prim op on np nn s1 = Ok r s2 ->
           rt s2 = rt s1 /\ released s2 = released s1) ->
        (forall e s', rootRename prim fuel oldname newname s = Ok e s' ->
                      rt s' = rt s /\ released s' = released s)
        /\ (forall e s', rootLink prim fuel oldname newname s = Ok e s' ->
                         rt s' = rt s /\ released s' = released s)).
Proof.
  intros Hr. split.
  - intros T Z f fuel nm a s' Hleaf. apply doInRoot_handle_kept; [lia|done].
  - intros prim fuel oldname newname Hprim.
    assert (Hboth : forall a s', resolveBoth prim fuel oldname newname s = Ok a s' ->
                                 rt s' = rt s /\ released s' = released s).
    { intros a s'. unfold resolveBoth. apply doInRoot_handle_kept; [lia|].
      intros op on s1 r s2 Hrt. unfold bind at 1.
      destruct (doInRoot fuel newname _ s1) as [re s1'| |] eqn:Hin; try discriminate.
      unfold ret. intros [= _ <-]. revert Hin.
      apply doInRoot_handle_kept; [rewrite Hrt; simpl; lia|].
      intros np nn s3 r3 s4 _. unfold bind.
      destruct (prim op on np nn s3) as [e3 s3'| |] eqn:Hp; try discriminate.
      unfold ret. intros [= _ <-]. eapply Hprim. exact Hp. }
    split; intros e s'; rewrite ?rootRename_resolveBoth, ?rootLink_resolveBoth;
      unfold bind;
      destruct (resolveBoth prim fuel oldname newname s) as [re s1| |] eqn:Hb;
      try discriminate;
      destruct (snd re); unfold ret; intros [= _ <-]; eapply Hboth; done.
Qed.

(** X2. [doInRoot] closes every directory it opens: on a kernel that keeps
    the contract of the descriptor table, and with a leaf action that
    leaves the handle and the table alone, the descriptors open when
    [doInRoot] returns are those that were open when it was called. *)
Theorem doInRoot_closes_what_it_opens {T} `{Zero T}
    (f : sysfdType -> string -> M (T * option error))
    (fuel : nat) (nm : string) s a s' :
  kernelFds ->
  fdOpen (world s) (fd (rt s)) = true ->
  0 <= refs (rt s) < intMax ->
  (forall d n s1 r s2,
     rt s1 = held (rt s) -> f d n s1 = Ok r s2 ->
     rt s2 = rt s1 /\ forall x, fdOpen (world s2) x = fdOpen (world s1) x) ->
  doInRoot fuel nm f s = Ok a s' ->
  forall x, fdOpen (world s') x = fdOpen (world s) x.
Proof.
  intros (Kopen & Kerr & Kclose) Hroot Hr Hleaf Hrun.
  destruct (closed (rt s)) eqn:Hc.
  { rewrite doInRoot_closed in Hrun by done. injection Hrun as _ <-. done. }
  remember (fd (rt s)) as rootfd eqn:Hrootfd.
  set (Q := fun d s1 =>
              rt s1 = held (rt s)
              /\ (forall x, fdOpen (world s1) x
                            = fdOpen (world s) x || (negb (d =? rootfd) && (x =? d)))
              /\ (d = rootfd \/ fdOpen (world s) d = false)).
  assert (Hleave : forall d s1, Q d s1 -> Q rootfd (afterCloseUnlessRoot rootfd d s1)).
  { intros d s1 HQ. unfold afterCloseUnlessRoot.
    destruct (Z.eqb_spec d rootfd) as [Heq|Hne]; [rewrite <- Heq; exact HQ|].
    destruct HQ as (Hrt & Hset & [Hd|Hd]); [done|].
    split; [done|]. split; [|left; done]. intros x. simpl.
    rewrite Kclose, Hset, Z.eqb_refl. simpl. rewrite orb_false_r.
    destruct (Z.eqb_spec d rootfd); [done|]. simpl.
    destruct (Z.eqb_spec x d) as [Hx|Hx]; simpl; [congruence|].
    rewrite orb_false_r. done. }
  assert (Hopen : forall d n s1 d' w, Q d s1 ->
            openat d n (world s1) = (inl d', w) ->
            Q d' (afterCloseUnlessRoot rootfd d (mkState (rt s1) (closes s1) w))).
  { intros d n s1 d' w (Hrt & Hset & Hd) Ho.
    destruct (Kopen _ _ _ _ _ Ho) as [Hfresh Hw].
    assert (Hd' : fdOpen (world s) d' = false).
    { rewrite Hset in Hfresh. apply orb_false_iff in Hfresh as [Hf0 _]. done. }
    assert (Hnr : d' <> rootfd) by congruence.
    unfold afterCloseUnlessRoot.
    split; [destruct (d =? rootfd); done|].
    split; [|right; done]. intros x.
    destruct (Z.eqb_spec d' rootfd); [done|]. simpl.
    destruct (Z.eqb_spec d rootfd) as [Heq|Hne]; simpl.
    - rewrite Hw, Hset. destruct (Z.eqb_spec d rootfd); [|done]. simpl.
      rewrite orb_false_r. apply orb_comm.
    - destruct Hd as [|Hd]; [done|].
      assert (Hnd : d' <> d).
      { intros Heq. rewrite Heq, Hset, Z.eqb_refl in Hfresh.
        destruct (Z.eqb_spec d rootfd); [done|]. simpl in Hfresh.
        rewrite orb_true_r in Hfresh. discriminate. }
      rewrite Kclose, Hw, Hset.
      destruct (Z.eqb_spec d rootfd); [done|]. simpl.
      destruct (Z.eqb_spec x d) as [Hx|Hx]; simpl.
      + rewrite Hx, Hd. destruct (Z.eqb_spec d d'); [congruence|done].
      + rewrite orb_false_r. apply orb_comm. }
  subst rootfd.
  destruct (doInRoot_keeps f Q fuel nm s a s' Hc Hr) as (s3 & (_ & Hset & _) & ->);
    try done.
  - intros d n s1 r s2 (Hrt & Hset & Hd) Hf.
    destruct (Hleaf _ _ _ _ _ Hrt Hf) as [Hrt2 Hw].
    split; [congruence|]. split; [|done]. intros x. rewrite Hw. apply Hset.
  - intros d n s1 e w (Hrt & Hset & Hd) Ho.
    split; [done|]. split; [|done]. intros x. simpl.
    rewrite (Kerr _ _ _ _ _ Ho). apply Hset.
  - intros d s1 (Hrt & _). done.
  - split; [done|]. split; [|left; done]. intros x. simpl.
    rewrite Z.eqb_refl. simpl. rewrite orb_false_r. done.
  - intros x. simpl. rewrite Hset, Z.eqb_refl. simpl. apply orb_false_r.
Qed.

End HandleKeptStatements.

(** ** The signal of a link stays inside *)

Section SignalHidden.
Context `{Platform} {T : Type}.
Implicit Types (c : cursor T) (s : State).

Lemma iter_hides_errSymlink (f : sysfdType -> string -> M (T * option error))
    (rootfd : sysfdType) c s r e s' :
  (forall t pre suf e0 x, splitPathInRoot t pre suf = inr e0 -> e0 <> errSymlink x) ->
  iter f rootfd c s = Ok (Return r (Some e)) s' ->
  forall x, e <> errSymlink x.
Proof.
  intros Hsplit Hit x.
  destruct (overBudget (incr (steps c)) (restarts c)) eqn:Hb.
  { rewrite iter_over_budget in Hit by done. injection Hit as _ <- _. done. }
  rewrite iter_within_budget in Hit by done.
  destruct (parts c !! i c) as [p|] eqn:Hp; [|discriminate].
  destruct (String.eqb_spec p "..") as [->|Hdd].
  - rewrite dotdot_eq in Hit by done. simpl in Hit.
    destruct (_ <? _)%nat; [|discriminate]. injection Hit as _ <- _. done.
  - destruct (visit f rootfd (stepped c) p s) as [[r0 e0|c1 t|c1] s1| |] eqn:Hv;
      try discriminate; apply visit_cases in Hv; simpl in Hv.
    + injection Hit as -> -> ->.
      destruct Hv as [(_ & _ & Hne)|(_ & _ & e1 & w & [= <-] & Hne & _)].
      * intros ->. eapply Hne. reflexivity.
      * apply Hne.
    + rewrite follow_eq in Hit. destruct (_ <? _).
      { injection Hit as _ <- _. done. }
      destruct (splitPathInRoot _ _ _) as [[ps sep]|e1] eqn:Hsp.
      * simpl in Hit. destruct (_ || _); discriminate.
      * injection Hit as _ <- _. eapply Hsplit. exact Hsp.
Qed.

Lemma doInRoot_cases `{Zero T} (f : sysfdType -> string -> M (T * option error))
    (fuel : nat) (nm : string) s r err s' :
  doInRoot fuel nm f s = Ok (r, err) s' ->
  (closed (rt s) = true /\ r = zero /\ err = Some ErrClosed)
  \/ (exists e, splitPathInRoot nm [] [] = inr e /\ r = zero /\ err = Some e)
  \/ (exists parts0 sep0 s1 d s2,
        splitPathInRoot nm [] [] = inl (parts0, sep0) /\
        loop fuel f (fd (rt s)) (startCursor parts0 sep0 (fd (rt s))) s1
        = Ok (r, err, d) s2).
Proof.
  destruct (closed (rt s)) eqn:Hc.
  { rewrite doInRoot_closed by done. intros [= <- <- _]. left. done. }
  intros Hrun. right. unfold doInRoot in Hrun. unfold bind at 1 in Hrun.
  rewrite incref_open in Hrun by done.
  destruct (splitPathInRoot nm [] []) as [[parts0 sep0]|e] eqn:Hsp.
  - right. exists parts0, sep0.
    unfold bind at 1 in Hrun. unfold bind at 1 in Hrun.
    unfold getRoot at 1 in Hrun. cbn [rt fd] in Hrun.
    unfold bind at 1 in Hrun. fold (startCursor (T := T) parts0 sep0 (fd (rt s))) in Hrun.
    destruct (loop fuel f _ _ _) as [[[r0 e0] d] s2| |] eqn:Hl; try discriminate.
    unfold bind at 1 in Hrun. rewrite closeUnlessRoot_eq in Hrun.
    unfold ret at 1 in Hrun. cbn [fst snd] in Hrun. unfold bind in Hrun.
    destruct (decref _) as [[] s4| |]; try discriminate.
    unfold ret in Hrun. injection Hrun as <- <- _. eauto 10.
  - left. exists e. unfold bind at 1 in Hrun. unfold ret at 1 in Hrun.
    unfold bind in Hrun. destruct (decref _) as [[] s4| |]; try discriminate.
    unfold ret in Hrun. injection Hrun as <- <- _. done.
Qed.

(** X3. The signal of a symbolic link does not leave the resolver: as long
    as the path splitter does not return it as its error, no [doInRoot],
    whatever the leaf action and the kernel answer, returns an error that is
    an [errSymlink]. *)
Theorem doInRoot_hides_errSymlink `{Zero T}
    (f : sysfdType -> string -> M (T * option error))
    (fuel : nat) (nm : string) s r e s' :
  (forall t pre suf e0 x, splitPathInRoot t pre suf = inr e0 -> e0 <> errSymlink x) ->
  doInRoot fuel nm f s = Ok (r, Some e) s' ->
  forall x, e <> errSymlink x.
Proof.
  intros Hsplit Hrun x. apply doInRoot_cases in Hrun
    as [(_ & _ & [= ->])|[(e0 & Hsp & _ & [= ->])
                         |(parts0 & sep0 & s1 & d & s2 & _ & Hl)]].
  - done.
  - eapply Hsplit. exact Hsp.
  - apply loop_returns in Hl as (n & c & s3 & _ & _ & Hit & _).
    eapply iter_hides_errSymlink; done.
Qed.

End SignalHidden.

(** ** The components already walked, and the counters *)

Section WalkedPrefix.
Context `{Platform} {T : Type}.
Variable f : sysfdType -> string -> M (T * option error).
Variable rootfd : sysfdType.
Implicit Types (c : cursor T) (s : State).

Lemma iter_walked c s c' s' :
  noDotDot (take (i c) (parts c)) ->
  iter f rootfd c s = Ok (Continue c') s' ->
  noDotDot (take (i c') (parts c')).
Proof.
  intros Hpre Hit.
  destruct (overBudget (incr (steps c)) (restarts c)) eqn:Hb.
  { rewrite iter_over_budget in Hit by done. discriminate. }
  rewrite iter_within_budget in Hit by done.
  destruct (parts c !! i c) as [p|] eqn:Hp; [|discriminate].
  destruct (String.eqb_spec p "..") as [->|Hdd].
  - rewrite dotdot_eq in Hit by done. simpl in Hit.
    destruct (_ <? _)%nat; [discriminate|]. injection Hit as <- _. constructor.
  - destruct (visit f rootfd (stepped c) p s) as [[r e|c1 t|c1] s1| |] eqn:Hv;
      try discriminate; apply visit_cases in Hv; simpl in Hv.
    + destruct Hv as (Hparts & _ & _ & Hidx & _).
      rewrite follow_eq in Hit. destruct (_ <? _); [discriminate|].
      destruct (splitPathInRoot _ _ _) as [[ps sep]|e]; [|discriminate].
      simpl in Hit. rewrite Hparts, Hidx in Hit.
      destruct (Nat.ltb_spec (length ps) (i c)); simpl in Hit.
      * injection Hit as <- _. constructor.
      * destruct (slicesEqual _ _) eqn:Heq; simpl in Hit; injection Hit as <- _;
          simpl; [|constructor].
        apply slicesEqual_spec in Heq. rewrite <- Heq. done.
    + destruct Hv as (_ & d & w & _ & -> & _). injection Hit as <- _. simpl.
      rewrite (take_S_r _ _ _ Hp). apply Forall_app. split; [done|].
      constructor; [done|constructor].
Qed.

Lemma iter_counters c s c' s' :
  iter f rootfd c s = Ok (Continue c') s' ->
  steps c' = incr (steps c)
  /\ (restarts c' = restarts c \/
      (restarts c' = incr (restarts c) /\ parts c !! i c = Some ".."%string)).
Proof.
  intros Hit.
  destruct (overBudget (incr (steps c)) (restarts c)) eqn:Hb.
  { rewrite iter_over_budget in Hit by done. discriminate. }
  rewrite iter_within_budget in Hit by done.
  destruct (parts c !! i c) as [p|] eqn:Hp; [|discriminate].
  destruct (String.eqb_spec p "..") as [->|Hdd].
  - rewrite dotdot_eq in Hit by done. simpl in Hit.
    destruct (_ <? _)%nat; [discriminate|]. injection Hit as <- _. simpl. auto.
  - destruct (visit f rootfd (stepped c) p s) as [[r e|c1 t|c1] s1| |] eqn:Hv;
      try discriminate; apply visit_cases in Hv; simpl in Hv.
    + destruct Hv as (_ & _ & _ & _ & Hst & Hre & _).
      rewrite follow_eq in Hit. destruct (_ <? _); [discriminate|].
      destruct (splitPathInRoot _ _ _) as [[ps sep]|e]; [|discriminate].
      simpl in Hit. destruct (_ || _); injection Hit as <- _; simpl; auto.
    + destruct Hv as (_ & d & w & _ & -> & _). injection Hit as <- _. simpl. auto.
Qed.

Lemma advance_counters n c0 s0 c s :
  Z.of_nat n < intMax -> steps c0 = 0 -> restarts c0 = 0 ->
  advance f rootfd n c0 s0 = Ok (Some c) s ->
  steps c = Z.of_nat n /\ 0 <= restarts c <= Z.of_nat n.
Proof.
  assert (Hgen : forall n c0 s0 c s,
            0 <= steps c0 -> steps c0 + Z.of_nat n < intMax ->
            0 <= restarts c0 <= steps c0 ->
            advance f rootfd n c0 s0 = Ok (Some c) s ->
            steps c = steps c0 + Z.of_nat n /\ 0 <= restarts c <= steps c).
  { clear. induction n as [|n IH]; intros c0 s0 c s Hs Hn Hr Ha.
    - injection Ha as -> _. lia.
    - rewrite advance_S in Ha.
      destruct (iter f rootfd c0 s0) as [[r e|c1] s1| |] eqn:Hit; try discriminate.
      apply iter_counters in Hit as [Hst Hre].
      rewrite incr_small in Hst by (unfold intMin; lia).
      assert (Hre' : 0 <= restarts c1 <= steps c1).
      { destruct Hre as [->|[-> _]]; [lia|].
        rewrite incr_small by (unfold intMin; lia). lia. }
      destruct (IH c1 s1 c s) as [Hs' Hr']; [lia|lia|done|done|]. lia. }
  intros Hn Hs Hr Ha. destruct (Hgen n c0 s0 c s) as [Hs' Hr']; [lia..|done|]. lia.
Qed.

End WalkedPrefix.

Section WalkedPrefixStatements.
Context `{Platform} {T : Type}.
Implicit Types (c : cursor T) (s : State).

(** X4. The directories a walk has gone through were never reached by a
    component [".."]: at every turn, the components before the index, which
    are those the directory descriptor stands for, contain no [".."],
    whatever links were spliced in on the way. *)
Theorem walked_components_never_dotdot
    (f : sysfdType -> string -> M (T * option error)) (rootfd : sysfdType)
    (n : nat) c0 s0 c s :
  i c0 = O ->
  advance f rootfd n c0 s0 = Ok (Some c) s ->
  noDotDot (take (i c) (parts c)).
Proof.
  intros Hi0.
  assert (Hgen : forall n c0 s0,
            noDotDot (take (i c0) (parts c0)) ->
            advance f rootfd n c0 s0 = Ok (Some c) s ->
            noDotDot (take (i c) (parts c))).
  { clear. induction n as [|n IH]; intros c0 s0 Hpre Ha.
    - injection Ha as -> _. done.
    - rewrite advance_S in Ha.
      destruct (iter f rootfd c0 s0) as [[r e|c1] s1| |] eqn:Hit; try discriminate.
      eapply IH; [|exact Ha]. eapply iter_walked; done. }
  apply Hgen. rewrite Hi0. constructor.
Qed.

(** X5. The step counter counts the turns of the loop and the restart
    counter at most as many: after [n] turns of a resolution they are [n]
    and at most [n], so the budget check can end a walk only from its 255th
    turn on, and only after nine restarts. *)
Theorem budget_check_needs_255_turns
    (f : sysfdType -> string -> M (T * option error)) (rootfd : sysfdType)
    (n : nat) c0 s0 c s :
  Z.of_nat n < intMax ->
  steps c0 = 0 -> restarts c0 = 0 ->
  advance f rootfd n c0 s0 = Ok (Some c) s ->
  steps c = Z.of_nat n
  /\ 0 <= restarts c <= Z.of_nat n
  /\ (overBudget (incr (steps c)) (restarts c) = true ->
      255 <= Z.of_nat n /\ 9 <= restarts c).
Proof.
  intros Hn Hs Hr Ha.
  destruct (advance_counters f rootfd n c0 s0 c s Hn Hs Hr Ha) as [Hst Hre].
  split; [done|]. split; [done|]. intros Hover.
  apply overBudget_spec in Hover as [H1 H2].
  rewrite Hst, incr_small in H1 by (unfold intMin; lia). lia.
Qed.

End WalkedPrefixStatements.

(** ** Deep paths *)

Lemma dotdots_app (l1 l2 : list string) :
  dotdots (l1 ++ l2) = (dotdots l1 + dotdots l2)%nat.
Proof. unfold dotdots. rewrite filter_app, length_app. done. Qed.

Lemma dotdots_take_le (l : list string) (a b : nat) :
  (a <= b)%nat -> (dotdots (take a l) <= dotdots (take b l))%nat.
Proof.
  intros Hab. replace b with (a + (b - a))%nat by lia.
  rewrite <- take_take_drop, dotdots_app. lia.
Qed.

Lemma dotdots_replicate (k : nat) : dotdots (replicate k ".."%string) = k.
Proof.
  unfold dotdots. induction k as [|k IH]; [done|].
  cbn [replicate]. rewrite filter_cons_True by done. simpl. rewrite IH. done.
Qed.

Lemma take_dotdotRun (l : list string) :
  take (dotdotRun l) l = replicate (dotdotRun l) ".."%string.
Proof.
  induction l as [|p l IH]; simpl; [done|].
  destruct (String.eqb_spec p "..") as [->|]; simpl; [|done]. rewrite IH. done.
Qed.

Lemma dotdots_cancelled (l : list string) (i : nat) :
  let count := dotdotRun (drop i l) in
  (count <= i)%nat ->
  (dotdots (cancelled l i count) + count <= dotdots l)%nat.
Proof.
  intros count Hle.
  assert (Hl : dotdots l
               = (dotdots (take i l) + (count + dotdots (drop (i + count) l)))%nat).
  { rewrite <- (take_drop i l) at 1. rewrite dotdots_app. f_equal.
    rewrite <- (take_drop count (drop i l)) at 1.
    rewrite dotdots_app, drop_drop. subst count.
    rewrite take_dotdotRun, dotdots_replicate. done. }
  pose proof (dotdots_take_le l (i - count) i ltac:(lia)) as Hpre.
  assert (Hc : (dotdots (cancelled l i count)
                <= dotdots (take (i - count) l) + dotdots (drop (i + count) l))%nat).
  { unfold cancelled. rewrite <- dotdots_app.
    destruct (take (i - count) l ++ drop (i + count) l); [|done].
    unfold dotdots. rewrite filter_cons_False by done. simpl. lia. }
  lia.
Qed.

Section DeepPaths.
Context `{Platform} {T : Type}.
Variable f : sysfdType -> string -> M (T * option error).
Variable rootfd : sysfdType.
Hypothesis Hfree : linkFree f.
Implicit Types (c : cursor T) (s : State).

Lemma iter_spends_dotdots c s c' s' :
  0 <= restarts c < intMax ->
  iter f rootfd c s = Ok (Continue c') s' ->
  0 <= restarts c'
  /\ restarts c' + Z.of_nat (dotdots (parts c'))
     <= restarts c + Z.of_nat (dotdots (parts c)).
Proof.
  destruct Hfree as [Hf Ho]. intros Hr Hit.
  destruct (overBudget (incr (steps c)) (restarts c)) eqn:Hb.
  { rewrite iter_over_budget in Hit by done. discriminate. }
  rewrite iter_within_budget in Hit by done.
  destruct (parts c !! i c) as [p|] eqn:Hp; [|discriminate].
  destruct (String.eqb_spec p "..") as [->|Hdd].
  - rewrite dotdot_eq in Hit by done. simpl in Hit.
    destruct (Nat.ltb_spec (i c) (dotdotRun (drop (i c) (parts c)))) as [|Hle];
      [discriminate|].
    injection Hit as <- _. simpl.
    rewrite incr_small by (unfold intMin; lia).
    pose proof (dotdots_cancelled (parts c) (i c) Hle) as Hd. simpl in Hd.
    assert (1 <= dotdotRun (drop (i c) (parts c)))%nat.
    { rewrite (dotdotRun_drop _ _ _ Hp). simpl. lia. }
    lia.
  - destruct (visit f rootfd (stepped c) p s) as [[r e|c1 t|c1] s1| |] eqn:Hv;
      try discriminate; apply visit_cases in Hv; simpl in Hv.
    + exfalso.
      destruct Hv as (_ & _ & _ & _ & _ & _ & _ & [(_ & Hv)|(_ & _ & w & Hv & _)]).
      * apply Hf with (t := t) in Hv. done.
      * apply Ho in Hv. done.
    + destruct Hv as (_ & d & w & _ & -> & _). injection Hit as <- _. simpl. lia.
Qed.

Lemma advance_spends_dotdots n c0 s0 c s :
  0 <= restarts c0 ->
  restarts c0 + Z.of_nat (dotdots (parts c0)) < intMax ->
  advance f rootfd n c0 s0 = Ok (Some c) s ->
  0 <= restarts c
  /\ restarts c + Z.of_nat (dotdots (parts c))
     <= restarts c0 + Z.of_nat (dotdots (parts c0)).
Proof.
  revert c0 s0. induction n as [|n IH]; intros c0 s0 Hr Hsum Ha.
  - injection Ha as -> _. lia.
  - rewrite advance_S in Ha.
    destruct (iter f rootfd c0 s0) as [[r e|c1] s1| |] eqn:Hit; try discriminate.
    apply iter_spends_dotdots in Hit as [Hr1 Hs1]; [|lia].
    destruct (IH c1 s1) as [Hr' Hs']; [lia|lia|done|]. lia.
Qed.

End DeepPaths.

Section DeepPathsStatement.
Context `{Platform} {T : Type}.

(** X6. A deep path is not cut short: when neither the leaf action nor the
    kernel meets a symbolic link, each restart uses up at least one
    component [".."] of the path, so the restart counter never exceeds the
    number of [".."] in the path as split; a path with at most eight of
    them passes the budget check at every turn, however many steps it
    takes. *)
Theorem deep_path_passes_budget
    (f : sysfdType -> string -> M (T * option error)) (rootfd : sysfdType)
    (n : nat) c0 s0 c s :
  linkFree f ->
  restarts c0 = 0 ->
  Z.of_nat (dotdots (parts c0)) < intMax ->
  advance f rootfd n c0 s0 = Ok (Some c) s ->
  0 <= restarts c
  /\ restarts c + Z.of_nat (dotdots (parts c)) <= Z.of_nat (dotdots (parts c0))
  /\ ((dotdots (parts c0) <= 8)%nat ->
      overBudget (incr (steps c)) (restarts c) = false).
Proof.
  intros Hfree Hr0 Hsmall Ha.
  destruct (advance_spends_dotdots f rootfd Hfree n c0 s0 c s) as [Hr Hs];
    [lia|lia|done|].
  split; [done|]. split; [lia|]. intros H8.
  destruct (overBudget _ _) eqn:Hover; [|done].
  apply overBudget_spec in Hover. lia.
Qed.

End DeepPathsStatement.

(** ** More on the handle *)

Section HandleMore.
Context `{Platform}.
Implicit Types (s : State).

(** X7. [Close] can be called again: it always returns [nil], it leaves the
    handle closed, and a second [Close] changes nothing at all; in
    particular it does not close the descriptor again. *)
Theorem Close_again_changes_nothing s :
  exists s1,
    Close s = Ok None s1 /\ closed (rt s1) = true /\ refs (rt s1) = refs (rt s)
    /\ Close s1 = Ok None s1.
Proof.
  eexists. split; [apply Close_eq|]. split; [reflexivity|]. split; [reflexivity|].
  rewrite Close_eq. reflexivity.
Qed.

(** X8. [incref] followed by [decref] leaves an open handle exactly as it
    was, without closing anything. *)
Theorem incref_decref_round_trip s :
  closed (rt s) = false -> 0 <= refs (rt s) < intMax ->
  (incref;;; decref) s = Ok tt s.
Proof.
  intros Hc Hr. unfold bind. rewrite incref_open by done.
  rewrite decref_eq by (simpl; rewrite incr_small by (unfold intMin; lia); lia).
  simpl. rewrite incr_small by (unfold intMin; lia).
  replace (refs (rt s) + 1 - 1) with (refs (rt s)) by lia.
  destruct s as [[nm0 d0 r0 c0 cl0] cls w]. simpl in *. subst c0. reflexivity.
Qed.

Lemma perform_refs (c : call) s s' :
  perform c s = Ok tt s' ->
  0 <= refs (rt s) < intMax ->
  0 <= refs (rt s') <= refs (rt s) + 1.
Proof.
  intros Hrun Hr. destruct c as [| | |d|g]; simpl in Hrun.
  - unfold bind in Hrun. rewrite Close_eq in Hrun. injection Hrun as <-. simpl. lia.
  - unfold bind in Hrun. destruct (closed (rt s)) eqn:Hc.
    + rewrite incref_closed in Hrun by done. injection Hrun as <-. lia.
    + rewrite incref_open in Hrun by done. injection Hrun as <-. simpl.
      rewrite incr_small by (unfold intMin; lia). lia.
  - destruct (Z.leb_spec (refs (rt s)) 0).
    + rewrite decref_panics in Hrun by done. discriminate.
    + rewrite decref_eq in Hrun by lia. injection Hrun as <-. simpl. lia.
  - unfold bind, getRoot, closeUnlessRoot, syscallClose, ret in Hrun.
    destruct (d =? fd (rt s)); injection Hrun as <-; simpl; lia.
  - injection Hrun as <-. simpl. lia.
Qed.

(** X9. The count of operations in flight never goes below zero: after any
    calls on a new handle that did not panic, [refs] is between 0 and the
    number of calls made; a [decref] that no [incref] has paid for panics
    with "bad Root refcount" and leaves no state behind. *)
Theorem refs_never_negative (nm : string) (d : sysfdType) (w : World)
    (calls : list call) s :
  Z.of_nat (length calls) < intMax ->
  performAll calls (newRoot nm d w) = Ok tt s ->
  0 <= refs (rt s) <= Z.of_nat (length calls)
  /\ (refs (rt s) = 0 -> decref s = Panic "bad Root refcount").
Proof.
  intros Hlen Hrun.
  assert (Hgen : forall calls s0 s,
            0 <= refs (rt s0) -> refs (rt s0) + Z.of_nat (length calls) < intMax ->
            performAll calls s0 = Ok tt s ->
            0 <= refs (rt s) <= refs (rt s0) + Z.of_nat (length calls)).
  { clear. induction calls as [|c calls IH]; intros s0 s H0 Hsum Hrun.
    - simpl in Hrun. injection Hrun as <-. simpl. lia.
    - change (length (c :: calls)) with (S (length calls)) in *.
      rewrite Nat2Z.inj_succ in *.
      cbn [performAll] in Hrun. unfold bind in Hrun.
      destruct (perform c s0) as [[] s1| |] eqn:Hc; try discriminate.
      apply perform_refs in Hc; [|lia].
      specialize (IH s1 s ltac:(lia) ltac:(lia) Hrun). lia. }
  assert (H0 : refs (rt (newRoot nm d w)) = 0) by reflexivity.
  pose proof (Hgen calls (newRoot nm d w) s) as Hb.
  rewrite H0 in Hb. specialize (Hb ltac:(lia) ltac:(lia) Hrun).
  split; [lia|]. intros Hz. apply decref_panics. lia.
Qed.

End HandleMore.

(** ** Trailing separators of the name to remove *)

Lemma string_length_snoc (a : string) (ch : ascii) :
  String.length (a +:+ String ch EmptyString) = S (String.length a).
Proof.
  induction a as [|x a IH]; [done|]. rewrite string_app_cons. simpl. rewrite IH. done.
Qed.

Lemma string_get_last_snoc (a : string) (ch : ascii) :
  String.get (String.length a) (a +:+ String ch EmptyString) = Some ch.
Proof.
  induction a as [|x a IH]; [done|]. rewrite string_app_cons. simpl. exact IH.
Qed.

Lemma string_substring_snoc (a : string) (ch : ascii) :
  String.substring 0 (String.length a) (a +:+ String ch EmptyString) = a.
Proof.
  induction a as [|x a IH]; [done|]. rewrite string_app_cons. simpl. rewrite IH. done.
Qed.

Section TrailingSeparators.
Context `{Platform}.

Lemma stripTrailing_more_fuel (fuel : nat) (nm : string) :
  (String.length nm <= fuel)%nat ->
  stripTrailing (S fuel) nm = stripTrailing fuel nm.
Proof.
  revert nm. induction fuel as [|fuel IH]; intros nm Hlen.
  - destruct nm; simpl in Hlen; [done|lia].
  - change (stripTrailing (S (S fuel)) nm)
      with (if (0 <? String.length nm)%nat && lastIsSeparator nm
            then stripTrailing (S fuel)
                   (String.substring 0 (String.length nm - 1) nm)
            else nm).
    change (stripTrailing (S fuel) nm)
      with (if (0 <? String.length nm)%nat && lastIsSeparator nm
            then stripTrailing fuel (String.substring 0 (String.length nm - 1) nm)
            else nm).
    destruct (Nat.ltb_spec 0 (String.length nm)); simpl; [|done].
    destruct (lastIsSeparator nm); [|done].
    apply IH. rewrite substring_0_length; lia.
Qed.

Lemma stripTrailing_snoc (nm : string) (ch : ascii) :
  IsPathSeparator ch = true ->
  stripTrailing (String.length (nm +:+ String ch EmptyString))
    (nm +:+ String ch EmptyString)
  = stripTrailing (String.length nm) nm.
Proof.
  intros Hch. rewrite string_length_snoc.
  change (stripTrailing (S (String.length nm)) (nm +:+ String ch EmptyString))
    with (if (0 <? String.length (nm +:+ String ch EmptyString))%nat
             && lastIsSeparator (nm +:+ String ch EmptyString)
          then stripTrailing (String.length nm)
                 (String.substring 0
                    (String.length (nm +:+ String ch EmptyString) - 1)
                    (nm +:+ String ch EmptyString))
          else nm +:+ String ch EmptyString).
  unfold lastIsSeparator. rewrite string_length_snoc. simpl.
  rewrite Nat.sub_0_r, string_get_last_snoc, Hch, string_substring_snoc. done.
Qed.

Lemma stripTrailing_app (nm seps : string) :
  allSeparators seps ->
  stripTrailing (String.length (nm +:+ seps)) (nm +:+ seps)
  = stripTrailing (String.length nm) nm.
Proof.
  revert nm. induction seps as [|ch seps IH]; intros nm Hall.
  - rewrite string_app_empty. done.
  - replace (nm +:+ String ch seps) with ((nm +:+ String ch EmptyString) +:+ seps)
      by (rewrite string_app_assoc; reflexivity).
    rewrite IH.
    + apply stripTrailing_snoc. apply (Hall O). reflexivity.
    + intros k x Hx. apply (Hall (S k)). exact Hx.
Qed.

(** X10. [rootRemoveAll] does not see the path separators that end the name:
    called with a name followed by any number of separators it does what it
    does with the name alone; and stripping twice is stripping once. *)
Theorem rootRemoveAll_ignores_trailing_separators
    (removeAllFrom : sysfdType -> string -> M (option error))
    (fuel : nat) (nm seps : string) (s : State) :
  allSeparators seps ->
  rootRemoveAll removeAllFrom fuel (nm +:+ seps) s
  = rootRemoveAll removeAllFrom fuel nm s
  /\ (let stripped := stripTrailing (String.length nm) nm in
      stripTrailing (String.length stripped) stripped = stripped).
Proof.
  intros Hall. split.
  - unfold rootRemoveAll. rewrite stripTrailing_app by done. reflexivity.
  - intros stripped.
    destruct (stripTrailing_spec (String.length nm) nm) as (sp & _ & _ & Hlast);
      [lia|]. fold stripped in Hlast.
    destruct (String.length stripped) as [|fuel']; [reflexivity|].
    change (stripTrailing (S fuel') stripped)
      with (if (0 <? String.length stripped)%nat && lastIsSeparator stripped
            then stripTrailing fuel'
                   (String.substring 0 (String.length stripped - 1) stripped)
            else stripped).
    rewrite Hlast, andb_false_r. reflexivity.
Qed.

End TrailingSeparators.

(** ** The operations on one and on two names *)

Section OperationErrors.
Context `{Platform}.
Implicit Types (s : State).

Lemma doInRoot_snd_plain {T} `{Zero T}
    (f : sysfdType -> string -> M (T * option error))
    (fuel : nat) (nm : string) s re s' :
  (forall t pre suf e0 x, splitPathInRoot t pre suf = inr e0 -> e0 <> errSymlink x) ->
  doInRoot fuel nm f s = Ok re s' ->
  forall x, snd re <> Some (errSymlink x).
Proof.
  intros Hsplit Hrun x. destruct re as [r [e|]]; [|done]. simpl. intros [= ->].
  apply doInRoot_cases in Hrun
    as [(_ & _ & [=])|[(e0 & Hsp & _ & [= <-])
                      |(parts0 & sep0 & s1 & d & s2 & _ & Hl)]].
  - eapply Hsplit; [exact Hsp|reflexivity].
  - apply loop_returns in Hl as (n & c & s3 & _ & _ & Hit & _).
    eapply iter_hides_errSymlink; [exact Hsplit|exact Hit|reflexivity].
Qed.

Lemma pathError_wrapped (op nm : string) (err : option error) (e : error) :
  (forall x, err <> Some (errSymlink x)) ->
  pathError op nm err = Some e -> wrapped op nm e.
Proof.
  intros Hne. destruct err as [e0|]; [|discriminate]. intros [= <-].
  exists e0. split; [done|]. intros x ->. eapply Hne. reflexivity.
Qed.

Lemma unit_operation_wrapped (op nm : string) (fuel : nat)
    (leaf : sysfdType -> string -> M (unit * option error)) s e s' :
  (forall t pre suf e0 x, splitPathInRoot t pre suf = inr e0 -> e0 <> errSymlink x) ->
  (re <- doInRoot fuel nm leaf;; ret (pathError op nm (snd re))) s = Ok (Some e) s' ->
  wrapped op nm e.
Proof.
  intros Hsplit Hrun. unfold bind in Hrun.
  destruct (doInRoot fuel nm leaf s) as [re s1| |] eqn:Hd; try discriminate.
  injection Hrun as Hrun _. eapply pathError_wrapped; [|exact Hrun].
  eapply doInRoot_snd_plain; done.
Qed.

Lemma link_operation_wrapped (op oldname newname : string) (fuel : nat)
    (leaf : sysfdType -> string -> M (unit * option error)) s e s' :
  (forall t pre suf e0 x, splitPathInRoot t pre suf = inr e0 -> e0 <> errSymlink x) ->
  (re <- doInRoot fuel oldname leaf;;
   match snd re with
   | Some err => ret (Some (LinkError op oldname newname err))
   | None => ret None
   end) s = Ok (Some e) s' ->
  wrappedLink op oldname newname e.
Proof.
  intros Hsplit Hrun. unfold bind in Hrun.
  destruct (doInRoot fuel oldname leaf s) as [[r [e0|]] s1| |] eqn:Hd; try discriminate.
  injection Hrun as <- _. exists e0. split; [done|].
  intros x ->. eapply (doInRoot_snd_plain _ _ _ _ _ _ Hsplit Hd). reflexivity.
Qed.

(** X11. On a closed handle every operation fails with [ErrClosed] in its
    own wrapping and leaves the state as it is: whatever the system call of
    the operation is, it is not entered, and nothing is opened or closed.
    [rootRemoveAll] checks the name first, so a name that ends in a dot still
    gives [EINVAL]. *)
Theorem operations_on_closed_root (Time : Type) s :
  closed (rt s) = true ->
  (forall prim fuel nm mode,
     rootChmod prim fuel nm mode s = Ok (Some (PathError "chmodat" nm ErrClosed)) s) /\
  (forall prim fuel nm uid gid,
     rootChown prim fuel nm uid gid s = Ok (Some (PathError "chownat" nm ErrClosed)) s) /\
  (forall prim fuel nm uid gid,
     rootLchown prim fuel nm uid gid s
     = Ok (Some (PathError "lchownat" nm ErrClosed)) s) /\
  (forall prim fuel nm (atime mtime : Time),
     rootChtimes Time prim fuel nm atime mtime s
     = Ok (Some (PathError "chtimesat" nm ErrClosed)) s) /\
  (forall prim fuel nm perm,
     rootMkdir prim fuel nm perm s = Ok (Some (PathError "mkdirat" nm ErrClosed)) s) /\
  (forall prim fuel nm,
     rootReadlink prim fuel nm s
     = Ok (EmptyString, Some (PathError "readlinkat" nm ErrClosed)) s) /\
  (forall prim fuel nm,
     rootRemove prim fuel nm s = Ok (Some (PathError "removeat" nm ErrClosed)) s) /\
  (forall prim fuel nm,
     rootRemoveAll prim fuel nm s
     = Ok (let nm' := stripTrailing (String.length nm) nm in
           if endsWithDot nm' then Some (PathError "RemoveAll" nm' EINVAL)
           else if IsNotExist (Some ErrClosed) then None
           else Some (PathError "RemoveAll" nm' (underlyingError ErrClosed))) s) /\
  (forall prim fuel oldname newname,
     rootRename prim fuel oldname newname s
     = Ok (Some (LinkError "renameat" oldname newname ErrClosed)) s) /\
  (forall prim fuel oldname newname,
     rootLink prim fuel oldname newname s
     = Ok (Some (LinkError "linkat" oldname newname ErrClosed)) s).
Proof.
  intros Hc.
  repeat split; intros;
    try (unfold rootChmod, rootChown, rootLchown, rootChtimes, rootMkdir,
           rootReadlink, rootRemove, rootRename, rootLink;
         unfold bind at 1; rewrite doInRoot_closed by done; reflexivity).
  unfold rootRemoveAll. cbv zeta.
  destruct (endsWithDot _); [reflexivity|].
  unfold bind at 1. rewrite doInRoot_closed by done. cbn [snd].
  destruct (IsNotExist _); reflexivity.
Qed.

(** X12. What an operation returns as its error is always in the
    operation's own wrapping: a [*PathError] with the operation and the name
    the caller gave, or a [*LinkError] with both names; and the error inside
    is never the signal of a link, as long as the path splitter does not
    return that signal.  [rootReadlink] returns the empty string with an
    error.  [rootRemoveAll] differs: its [*PathError] has the name without
    its trailing separators, and the error inside is [EINVAL], or else
    [underlyingError] of an error that is not the signal of a link and that
    [IsNotExist] does not accept; what [underlyingError] makes of it is
    the platform's. *)
Theorem operation_errors_are_wrapped (Time : Type) s e s' :
  (forall t pre suf e0 x, splitPathInRoot t pre suf = inr e0 -> e0 <> errSymlink x) ->
  (forall prim fuel nm mode,
     rootChmod prim fuel nm mode s = Ok (Some e) s' -> wrapped "chmodat" nm e) /\
  (forall prim fuel nm uid gid,
     rootChown prim fuel nm uid gid s = Ok (Some e) s' -> wrapped "chownat" nm e) /\
  (forall prim fuel nm uid gid,
     rootLchown prim fuel nm uid gid s = Ok (Some e) s' -> wrapped "lchownat" nm e) /\
  (forall prim fuel nm (atime mtime : Time),
     rootChtimes Time prim fuel nm atime mtime s = Ok (Some e) s' ->
     wrapped "chtimesat" nm e) /\
  (forall prim fuel nm perm,
     rootMkdir prim fuel nm perm s = Ok (Some e) s' -> wrapped "mkdirat" nm e) /\
  (forall prim fuel nm target,
     rootReadlink prim fuel nm s = Ok (target, Some e) s' ->
     target = EmptyString /\ wrapped "readlinkat" nm e) /\
  (forall prim fuel nm,
     rootRemove prim fuel nm s = Ok (Some e) s' -> wrapped "removeat" nm e) /\
  (forall prim fuel nm,
     rootRemoveAll prim fuel nm s = Ok (Some e) s' ->
     exists e1,
       e = PathError "RemoveAll" (stripTrailing (String.length nm) nm) e1 /\
       (e1 = EINVAL \/
        exists e0, e1 = underlyingError e0 /\ (forall x, e0 <> errSymlink x) /\
                   IsNotExist (Some e0) = false)) /\
  (forall prim fuel oldname newname,
     rootRename prim fuel oldname newname s = Ok (Some e) s' ->
     wrappedLink "renameat" oldname newname e) /\
  (forall prim fuel oldname newname,
     rootLink prim fuel oldname newname s = Ok (Some e) s' ->
     wrappedLink "linkat" oldname newname e).
Proof.
  intros Hsplit.
  repeat match goal with |- _ /\ _ => split end;
    try (intros; eapply unit_operation_wrapped; [exact Hsplit|eassumption]);
    try (intros; eapply link_operation_wrapped; [exact Hsplit|eassumption]).
  - intros prim fuel nm target Hrun. unfold rootReadlink, bind in Hrun.
    destruct (doInRoot fuel nm prim s) as [[r [e0|]] s1| |] eqn:Hd; try discriminate.
    simpl in Hrun. injection Hrun as <- <- _.
    split; [done|]. exists e0. split; [done|].
    intros x ->. eapply (doInRoot_snd_plain _ _ _ _ _ _ Hsplit Hd). reflexivity.
  - intros prim fuel nm Hrun. unfold rootRemoveAll in Hrun. cbv zeta in Hrun.
    destruct (endsWithDot _).
    { injection Hrun as <- _. eauto. }
    unfold bind in Hrun.
    destruct (doInRoot fuel _ _ s) as [[r e0] s1| |] eqn:Hd; try discriminate.
    cbn [snd] in Hrun. destruct (IsNotExist e0) eqn:Hne; [discriminate|].
    destruct e0 as [e0|]; [|discriminate].
    injection Hrun as <- _. eexists. split; [reflexivity|]. right.
    exists e0. split; [reflexivity|]. split; [|exact Hne].
    intros x ->. eapply (doInRoot_snd_plain _ _ _ _ _ _ Hsplit Hd). reflexivity.
Qed.

End OperationErrors.

(** ** Paths without [".."] and without links *)

Section PlainPath.
Context `{Platform} {T : Type}.
Variable f : sysfdType -> string -> M (T * option error).
Variable rootfd : sysfdType.
Hypothesis Hfree : linkFree f.
Implicit Types (c : cursor T) (s : State).

Lemma loop_descend (ps pre : list string) (fuel : nat) c s :
  parts c = pre ++ ps -> i c = length pre -> noDotDot ps ->
  (0 < fuel)%nat -> (length ps <= fuel)%nat ->
  restarts c <= maxRestarts ->
  loop fuel f rootfd c s
  = descend f rootfd (dirfd c) (result c) ps (suffixSep c) s.
Proof.
  revert pre fuel c s. induction ps as [|p rest IH];
    intros pre fuel c s Hparts Hi Hnd Hpos Hlen Hrs;
    (destruct fuel as [|fuel]; [lia|]); rewrite loop_S.
  all: assert (Hb : overBudget (incr (steps c)) (restarts c) = false)
    by (destruct (overBudget _ _) eqn:Hb; [|done];
        apply overBudget_spec in Hb; unfold maxRestarts in Hrs; lia).
  all: rewrite iter_within_budget by done.
  - rewrite Hparts, Hi, app_nil_r, lookup_ge_None_2 by lia. reflexivity.
  - assert (Hp : parts c !! i c = Some p).
    { rewrite Hparts, Hi, lookup_app_r by lia. rewrite Nat.sub_diag. reflexivity. }
    rewrite Hp. apply Forall_cons in Hnd as [Hne Hnd].
    destruct (String.eqb_spec p "..") as [->|_]; [done|].
    destruct rest as [|q rest'].
    + assert (Hlast : isLast (stepped c) = true).
      { apply isLast_spec. simpl. rewrite Hparts, Hi, length_app. simpl. lia. }
      unfold visit. rewrite Hlast. cbn [descend]. unfold bind.
      cbn [dirfd suffixSep stepped].
      destruct (f (dirfd c) (p +:+ suffixSep c) s) as [[r e] s1| |] eqn:Hf;
        [|reflexivity..].
      cbn [fst snd]. destruct e as [e|]; [|reflexivity].
      destruct e; try reflexivity.
      exfalso. eapply (proj1 Hfree); [exact Hf|reflexivity].
    + assert (Hlast : isLast (stepped c) = false).
      { apply isLast_false. simpl. rewrite Hparts, Hi, length_app. simpl. lia. }
      unfold visit. rewrite Hlast.
      change (descend f rootfd (dirfd c) (result c) (p :: q :: rest') (suffixSep c) s)
        with ((r <- rootOpenDir (dirfd c) p;;
               match r with
               | inl d => closeUnlessRoot rootfd (dirfd c);;;
                          descend f rootfd d (result c) (q :: rest') (suffixSep c)
               | inr err => ret (result c, Some err, dirfd c)
               end) s).
      unfold bind at 1 3. unfold rootOpenDir. cbn [dirfd stepped].
      destruct (openat (dirfd c) p (world s)) as [[d|e] w] eqn:Ho.
      * unfold bind. rewrite !closeUnlessRoot_eq. unfold ret.
        rewrite (IH (pre ++ [p])); cbn [parts i dirfd result suffixSep restarts stepped].
        -- reflexivity.
        -- rewrite Hparts, <- app_assoc. reflexivity.
        -- rewrite Hi, length_app. simpl. lia.
        -- done.
        -- simpl in Hlen |- *. lia.
        -- simpl in Hlen |- *. lia.
        -- done.
      * destruct e; try reflexivity.
        exfalso. eapply (proj2 Hfree). exact Ho.
Qed.

End PlainPath.

Section PlainPathStatement.
Context `{Platform} {T : Type} `{Zero T}.

(** X13. On a name whose components the splitter gives without [".."], and
    with a leaf action and a kernel that meet no link, [doInRoot] is a plain
    descent: it opens each directory below the one before, closing the one
    it leaves unless it is the root's, hands the last component with the
    trailing separators to [f], closes the last directory and gives the
    reference back.  A fuel of the number of components is enough. *)
Theorem plain_path_is_a_descent
    (f : sysfdType -> string -> M (T * option error))
    (fuel : nat) (nm : string) (ps : list string) (sep : string) (s : State) :
  linkFree f ->
  splitPathInRoot nm [] [] = inl (ps, sep) ->
  noDotDot ps ->
  (0 < fuel)%nat -> (length ps <= fuel)%nat ->
  doInRoot fuel nm f s
  = (e <- incref;;
     match e with
     | Some err => ret (zero, Some err)
     | None =>
         res <- descend f (fd (rt s)) (fd (rt s)) zero ps sep;;
         closeUnlessRoot (fd (rt s)) (snd res);;;
         decref;;;
         ret (fst res)
     end) s.
Proof.
  intros Hfree Hsp Hnd Hpos Hlen.
  destruct (closed (rt s)) eqn:Hc.
  { rewrite doInRoot_closed by done. unfold bind at 1.
    rewrite incref_closed by done. reflexivity. }
  unfold doInRoot. rewrite Hsp. unfold bind at 1. symmetry. unfold bind at 1.
  rewrite incref_open by done.
  unfold bind at 5. unfold bind at 5. unfold getRoot at 1. cbn [rt fd].
  unfold bind at 4. cbn [rt fd].
  rewrite (loop_descend f (fd (rt s)) Hfree ps [] fuel);
    try done; try (cbn; unfold maxRestarts; lia).
  cbn [dirfd result suffixSep]. unfold bind at 1.
  destruct (descend f (fd (rt s)) (fd (rt s)) zero ps sep _) as [[[r e] d] s1| |];
    [|reflexivity..].
  cbn [fst snd]. unfold bind, ret. rewrite closeUnlessRoot_eq.
  destruct (decref _) as [[] s2| |]; reflexivity.
Qed.

End PlainPathStatement.

(** ** The loop comes to an end *)

Lemma dotdotRun_le (l : list string) : (dotdotRun l <= length l)%nat.
Proof.
  induction l as [|p l IH]; simpl; [lia|]. destruct (String.eqb p ".."); lia.
Qed.

Lemma cancelled_shorter (l : list string) (i count : nat) :
  (1 <= count)%nat -> (count <= i)%nat -> (i + count <= length l)%nat ->
  (length (cancelled l i count) < length l)%nat.
Proof.
  intros H1 H2 H3. unfold cancelled.
  destruct (take (i - count) l ++ drop (i + count) l) as [|x l'] eqn:E.
  - simpl. lia.
  - rewrite <- E, length_app, length_take, length_drop. lia.
Qed.

Section ComesToAnEnd.
Context `{Platform} {T : Type}.
Variable f : sysfdType -> string -> M (T * option error).
Variable rootfd : sysfdType.
Hypothesis Hanswers : forall d n s, f d n s <> Timeout.
Hypothesis Hmax : rootMaxSymlinks < intMax.
Implicit Types (c : cursor T) (s : State).

Lemma iter_answers c s : iter f rootfd c s <> Timeout.
Proof.
  destruct (overBudget (incr (steps c)) (restarts c)) eqn:Hb.
  { rewrite iter_over_budget by done. discriminate. }
  rewrite iter_within_budget by done.
  destruct (parts c !! i c) as [p|] eqn:Hp; [|discriminate].
  destruct (String.eqb_spec p "..") as [->|Hdd].
  - rewrite dotdot_eq by done. simpl. destruct (_ <? _)%nat; discriminate.
  - destruct (visit f rootfd (stepped c) p s) as [[r e|c1 t|c1] s1| |] eqn:Hv;
      try discriminate.
    + rewrite follow_eq. destruct (_ <? _); [discriminate|].
      destruct (splitPathInRoot _ _ _) as [[ps sep]|e1]; [|discriminate].
      simpl. destruct (_ || _); discriminate.
    + exfalso. unfold visit in Hv. destruct (isLast _).
      * unfold bind in Hv.
        destruct (f _ _ s) as [[r e] s1| |] eqn:Hf; try discriminate.
        -- cbn [snd] in Hv. destruct e as [[]|]; discriminate.
        -- eapply Hanswers. exact Hf.
      * unfold bind at 1 in Hv. unfold rootOpenDir in Hv.
        destruct (openat _ _ _) as [[d|e] w].
        -- unfold bind in Hv. rewrite closeUnlessRoot_eq in Hv. discriminate.
        -- destruct e; discriminate.
Qed.

(** A turn that does not return follows a link, or shortens the path, or
    moves one component on. *)
Lemma iter_descends c s c' s' :
  intMin <= symlinks c < intMax ->
  iter f rootfd c s = Ok (Continue c') s' ->
  intMin <= symlinks c' < intMax /\
  ((Z.to_nat (rootMaxSymlinks - symlinks c')
    < Z.to_nat (rootMaxSymlinks - symlinks c))%nat
   \/ (symlinks c' = symlinks c /\ (length (parts c') < length (parts c))%nat)
   \/ (symlinks c' = symlinks c /\ parts c' = parts c /\
       (i c < length (parts c))%nat /\ i c' = S (i c))).
Proof.
  intros Hinv Hit.
  destruct (overBudget (incr (steps c)) (restarts c)) eqn:Hb.
  { rewrite iter_over_budget in Hit by done. discriminate. }
  rewrite iter_within_budget in Hit by done.
  destruct (parts c !! i c) as [p|] eqn:Hp; [|discriminate].
  assert (Hi : (i c < length (parts c))%nat) by (eapply lookup_lt_Some; done).
  destruct (String.eqb_spec p "..") as [->|Hdd].
  - rewrite dotdot_eq in Hit by done. cbn [parts i stepped] in Hit. cbv zeta in Hit.
    destruct (Nat.ltb_spec (i c) (dotdotRun (drop (i c) (parts c)))) as [|Hle];
      [discriminate|].
    injection Hit as <- _. cbn [symlinks parts]. split; [done|]. right. left.
    split; [done|].
    pose proof (dotdotRun_le (drop (i c) (parts c))) as Hrun.
    rewrite length_drop in Hrun.
    apply cancelled_shorter; [|lia|lia].
    rewrite (dotdotRun_drop _ _ _ Hp). simpl. lia.
  - destruct (visit f rootfd (stepped c) p s) as [[r e|c1 t|c1] s1| |] eqn:Hv;
      try discriminate; apply visit_cases in Hv; cbn [parts i stepped symlinks] in Hv.
    + destruct Hv as (Hp1 & _ & _ & Hi1 & _ & _ & Hs1 & _).
      rewrite follow_eq in Hit.
      destruct (Z.ltb_spec rootMaxSymlinks (incr (symlinks c1))) as [|Hok];
        [discriminate|].
      rewrite Hs1 in Hok. rewrite incr_small in Hok by lia.
      destruct (splitPathInRoot _ _ _) as [[ps sep]|e1]; [|discriminate].
      cbv zeta in Hit.
      destruct (_ || _); injection Hit as <- _; cbn [symlinks];
        rewrite Hs1, incr_small by lia; (split; [lia|]); left; lia.
    + destruct Hv as (_ & d & w & _ & -> & _). injection Hit as <- _.
      cbn [symlinks parts i]. split; [done|]. right. right. done.
Qed.

Lemma loop_more_fuel (fuel fuel' : nat) c s :
  (fuel <= fuel')%nat -> loop fuel f rootfd c s <> Timeout ->
  loop fuel' f rootfd c s = loop fuel f rootfd c s.
Proof.
  revert fuel' c s. induction fuel as [|fuel IH]; intros fuel' c s Hle Hne.
  - exfalso. apply Hne. reflexivity.
  - destruct fuel' as [|fuel']; [lia|]. rewrite !loop_S in *.
    destruct (iter f rootfd c s) as [[r e|c'] s'| |]; try reflexivity.
    apply IH; [lia|done].
Qed.

Lemma loop_comes_to_an_end :
  forall (a b k : nat) c s,
    intMin <= symlinks c < intMax ->
    Z.to_nat (rootMaxSymlinks - symlinks c) = a ->
    length (parts c) = b -> (length (parts c) - i c)%nat = k ->
    exists fuel, loop fuel f rootfd c s <> Timeout.
Proof.
  induction a as [a IHa] using lt_wf_ind.
  induction b as [b IHb] using lt_wf_ind.
  induction k as [k IHk] using lt_wf_ind.
  intros c s Hinv Ha Hb Hk.
  destruct (iter f rootfd c s) as [[r e|c'] s'| |] eqn:Hit.
  - exists 1%nat. rewrite loop_S, Hit. discriminate.
  - destruct (iter_descends _ _ _ _ Hinv Hit)
      as (Hinv' & [Hlt|[(Hs & Hlt)|(Hs & Hp & Hi & Hi')]]).
    + destruct (IHa _ ltac:(rewrite <- Ha; exact Hlt) _ _ c' s' Hinv'
                  eq_refl eq_refl eq_refl) as [fuel Hfuel].
      exists (S fuel). rewrite loop_S, Hit. exact Hfuel.
    + destruct (IHb _ ltac:(rewrite <- Hb; exact Hlt) _ c' s' Hinv'
                  ltac:(rewrite Hs; exact Ha) eq_refl eq_refl) as [fuel Hfuel].
      exists (S fuel). rewrite loop_S, Hit. exact Hfuel.
    + destruct (IHk (length (parts c') - i c')%nat
                  ltac:(rewrite <- Hk, Hp, Hi'; lia) c' s' Hinv'
                  ltac:(rewrite Hs; exact Ha) ltac:(rewrite Hp; exact Hb) eq_refl)
        as [fuel Hfuel].
      exists (S fuel). rewrite loop_S, Hit. exact Hfuel.
  - exists 1%nat. rewrite loop_S, Hit. discriminate.
  - exfalso. eapply iter_answers. exact Hit.
Qed.

End ComesToAnEnd.

Section ComesToAnEndStatement.
Context `{Platform} {T : Type} `{Zero T}.

Lemma decref_answers (s : State) : decref s <> Timeout.
Proof.
  unfold decref, bind, getRoot, panic, putRoot, ret, syscallClose.
  destruct (refs (rt s) <=? 0); [discriminate|]. cbn.
  destruct (closed (rt s) && _); discriminate.
Qed.

Lemma doInRoot_open_unfold
    (f : sysfdType -> string -> M (T * option error)) (fuel : nat) (nm : string)
    (ps : list string) (sep : string) (s : State) :
  closed (rt s) = false ->
  splitPathInRoot nm [] [] = inl (ps, sep) ->
  doInRoot fuel nm f s
  = match loop fuel f (fd (rt s)) (startCursor ps sep (fd (rt s)))
            (mkState (mkRoot (name (rt s)) (fd (rt s)) (incr (refs (rt s))) false
                        (cleanup (rt s))) (closes s) (world s)) with
    | Ok res s2 =>
        match decref (afterCloseUnlessRoot (fd (rt s)) (snd res) s2) with
        | Ok _ s3 => Ok (fst res) s3
        | Panic msg => Panic msg
        | Timeout => Timeout
        end
    | Panic msg => Panic msg
    | Timeout => Timeout
    end.
Proof.
  intros Hc Hsp. unfold doInRoot. rewrite Hsp. unfold bind at 1.
  rewrite incref_open by done.
  unfold bind at 1. unfold bind at 1. unfold getRoot at 1. cbn [rt fd].
  unfold bind at 1. fold (startCursor (T := T) ps sep (fd (rt s))).
  destruct (loop fuel f _ _ _) as [res s2| |]; [|reflexivity..].
  unfold bind, ret. rewrite closeUnlessRoot_eq.
  destruct (decref _) as [[] s3| |]; reflexivity.
Qed.

(** X14. [doInRoot] comes to an end: when the leaf action always answers
    and the limit on links is an [int] below the largest, then for every
    name and every state there is a number of turns within which the loop
    has returned or panicked, whatever links, [".."] components and
    restarts the walk meets; more fuel does not change the outcome. *)
Theorem doInRoot_comes_to_an_end
    (f : sysfdType -> string -> M (T * option error)) (nm : string) (s : State) :
  rootMaxSymlinks < intMax ->
  (forall d n s1, f d n s1 <> Timeout) ->
  exists fuel,
    doInRoot fuel nm f s <> Timeout /\
    forall fuel', (fuel <= fuel')%nat ->
      doInRoot fuel' nm f s = doInRoot fuel nm f s.
Proof.
  intros Hmax Hanswers.
  destruct (closed (rt s)) eqn:Hc.
  { exists O. rewrite doInRoot_closed by done. split; [discriminate|].
    intros fuel' _. rewrite doInRoot_closed by done. reflexivity. }
  destruct (splitPathInRoot nm [] []) as [[ps sep]|e] eqn:Hsp.
  - destruct (loop_comes_to_an_end f (fd (rt s)) Hanswers Hmax _ _ _
                (startCursor ps sep (fd (rt s)))
                (mkState (mkRoot (name (rt s)) (fd (rt s)) (incr (refs (rt s))) false
                            (cleanup (rt s))) (closes s) (world s))
                ltac:(simpl; unfold intMin, intMax; lia) eq_refl eq_refl eq_refl)
      as [fuel Hfuel].
    exists fuel. split.
    + rewrite (doInRoot_open_unfold f fuel nm ps sep s Hc Hsp).
      destruct (loop fuel f _ _ _) as [res s2| |]; [|discriminate|done].
      pose proof (decref_answers (afterCloseUnlessRoot (fd (rt s)) (snd res) s2)).
      destruct (decref _) as [[] s3| |]; [discriminate..|done].
    + intros fuel' Hle.
      rewrite !(doInRoot_open_unfold f _ nm ps sep s Hc Hsp).
      rewrite (loop_more_fuel f (fd (rt s)) fuel fuel') by done. reflexivity.
  - exists O. split.
    + unfold doInRoot. rewrite Hsp. unfold bind at 1. rewrite incref_open by done.
      unfold bind at 1. unfold ret at 1. unfold bind.
      match goal with |- context [decref ?x] => pose proof (decref_answers x) end.
      destruct (decref _) as [[] s3| |]; [discriminate..|done].
    + intros fuel' _. unfold doInRoot. rewrite Hsp. reflexivity.
Qed.

End ComesToAnEndStatement.

(** ** The further statements at work on the small platform *)

Section MoreDemoFacts.
Import Demo.

Lemma kindAt_keeps (d : sysfdType) (n : string) (s : State) r s' :
  kindAt d n s = Ok r s' -> s' = s.
Proof.
  unfold kindAt. destruct (dirOf _ _); [|intros [= _ <-]; done].
  destruct (components n) as [|p [|q ql]]; try (intros [= _ <-]; done).
  destruct (lookupPath _ _) as [[| |]|]; try (intros [= _ <-]; done).
  destruct (String.eqb _ _); intros [= _ <-]; done.
Qed.

Lemma kindAt_answers (d : sysfdType) (n : string) (s : State) :
  kindAt d n s <> Timeout.
Proof.
  unfold kindAt. destruct (dirOf _ _); [|discriminate].
  destruct (components n) as [|p [|q ql]]; try discriminate.
  destruct (lookupPath _ _) as [[| |]|]; try discriminate.
  destruct (String.eqb _ _); discriminate.
Qed.

Lemma demo_split_plain (t : string) (pre suf : list string) (e0 : error) (x : string) :
  demo_splitPathInRoot t pre suf = inr e0 -> e0 <> errSymlink x.
Proof.
  unfold demo_splitPathInRoot. destruct t as [|ch t]; [intros [= <-]; done|].
  destruct (isSep ch); [intros [= <-]; done|].
  destruct (hasNul _); [intros [= <-]; done|discriminate].
Qed.

Lemma lkindAt_linkFree : @linkFree plainPlatform string lkindAt.
Proof.
  split.
  - intros d n s r s' t. unfold lkindAt. destruct (dirOf _ _); [|intros [= <- _]; done].
    destruct (components n) as [|p [|q ql]]; try (intros [= <- _]; done).
    destruct (lookupPath _ _) as [[| |]|]; intros [= <- _]; done.
  - intros d n w t w'. simpl. unfold plain_openat.
    destruct (demo_openat d n w) as [[d'|e] w1]; [discriminate|].
    destruct e; discriminate.
Qed.

End MoreDemoFacts.

Lemma doInRoot_gives_back_handle_witness :
  exists a s',
    doInRoot 20 "up/a/b" Demo.kindAt Demo.demoState = Ok a s'
    /\ rt s' = rt Demo.demoState /\ released s' = released Demo.demoState.
Proof.
  eexists _, _. split; [vm_compute; reflexivity|].
  refine (proj1 (@doInRoot_gives_back_handle Demo.demoPlatform Demo.demoState _)
            string _ Demo.kindAt 20%nat "up/a/b"%string _ _ _ _).
  - vm_compute. split; [discriminate|reflexivity].
  - intros d n s1 r s2 _ Hf. apply kindAt_keeps in Hf. subst s2. split; reflexivity.
  - vm_compute. reflexivity.
Defined.

Lemma doInRoot_closes_what_it_opens_witness :
  exists a s',
    doInRoot 20 "a/b/../f" Demo.kindAt Demo.demoState = Ok a s'
    /\ forall x, fdOpen (world s') x = fdOpen (world Demo.demoState) x.
Proof.
  eexists _, _. split; [vm_compute; reflexivity|].
  refine (@doInRoot_closes_what_it_opens Demo.demoPlatform string _ Demo.kindAt
            20%nat "a/b/../f"%string Demo.demoState _ _ demo_kernelFds _ _ _ _).
  - vm_compute. reflexivity.
  - vm_compute. split; [discriminate|reflexivity].
  - intros d n s1 r s2 _ Hf. apply kindAt_keeps in Hf. subst s2. split; reflexivity.
  - vm_compute. reflexivity.
Defined.

Lemma doInRoot_hides_errSymlink_witness :
  exists r e s',
    doInRoot 20 "out/x" Demo.kindAt Demo.demoState = Ok (r, Some e) s'
    /\ forall x, e <> errSymlink x.
Proof.
  eexists _, _, _. split; [vm_compute; reflexivity|].
  refine (@doInRoot_hides_errSymlink Demo.demoPlatform string _ Demo.kindAt
            20%nat "out/x"%string Demo.demoState _ _ _ demo_split_plain _).
  vm_compute. reflexivity.
Defined.

Lemma walked_components_never_dotdot_witness :
  exists c s,
    advance Demo.kindAt 3 4 (startCursor ["a"; "b"; ".."; "f"]%string EmptyString 3)
      Demo.demoState = Ok (Some c) s
    /\ noDotDot (take (i c) (parts c)).
Proof.
  eexists _, _. split; [vm_compute; reflexivity|].
  refine (@walked_components_never_dotdot Demo.demoPlatform string Demo.kindAt 3
            4%nat (startCursor ["a"; "b"; ".."; "f"]%string EmptyString 3)
            Demo.demoState _ _ _ _).
  - reflexivity.
  - vm_compute. reflexivity.
Defined.

Lemma budget_check_needs_255_turns_witness :
  exists c s,
    advance Demo.kindAt 3 4 (startCursor ["a"; "b"; ".."; "f"]%string EmptyString 3)
      Demo.demoState = Ok (Some c) s
    /\ steps c = 4 /\ 0 <= restarts c <= 4.
Proof.
  eexists _, _. split; [vm_compute; reflexivity|].
  refine (let H := @budget_check_needs_255_turns Demo.demoPlatform string Demo.kindAt 3
                     4%nat (startCursor ["a"; "b"; ".."; "f"]%string EmptyString 3)
                     Demo.demoState _ _ _ _ _ _ in
          conj (proj1 H) (proj1 (proj2 H))).
  - vm_compute. reflexivity.
  - reflexivity.
  - reflexivity.
  - vm_compute. reflexivity.
Defined.

Lemma deep_path_passes_budget_witness :
  exists c s,
    @advance Demo.plainPlatform string Demo.lkindAt 3 3
      (startCursor ["a"; "b"; ".."; "f"]%string EmptyString 3) Demo.plainState
    = Ok (Some c) s
    /\ overBudget (incr (steps c)) (restarts c) = false.
Proof.
  eexists _, _. split; [vm_compute; reflexivity|].
  refine (proj2 (proj2 (@deep_path_passes_budget Demo.plainPlatform string Demo.lkindAt
                          3 3%nat
                          (startCursor ["a"; "b"; ".."; "f"]%string EmptyString 3)
                          Demo.plainState _ _ lkindAt_linkFree _ _ _)) _).
  - reflexivity.
  - vm_compute. reflexivity.
  - vm_compute. reflexivity.
  - vm_compute. lia.
Defined.

Lemma incref_decref_round_trip_witness :
  (incref;;; decref) Demo.demoState = Ok tt Demo.demoState.
Proof.
  refine (@incref_decref_round_trip Demo.demoPlatform Demo.demoState _ _).
  - reflexivity.
  - vm_compute. split; [discriminate|reflexivity].
Defined.

Lemma refs_never_negative_witness :
  exists s,
    performAll [@CallIncref Demo.demoPlatform; CallIncref; CallDecref]
      (@newRoot Demo.demoPlatform "root" 3 (Demo.mkKernel Demo.demoTree [(3, [])] []))
    = Ok tt s
    /\ 0 <= refs (rt s) <= 3.
Proof.
  eexists. split; [vm_compute; reflexivity|].
  refine (proj1 (@refs_never_negative Demo.demoPlatform "root" 3
                   (Demo.mkKernel Demo.demoTree [(3, [])] [])
                   [@CallIncref Demo.demoPlatform; CallIncref; CallDecref] _ _ _)).
  - vm_compute. reflexivity.
  - vm_compute. reflexivity.
Defined.

Lemma rootRemoveAll_ignores_trailing_separators_witness :
  rootRemoveAll Demo.removeNothing 5 ("a/b" +:+ "///") Demo.demoState
  = rootRemoveAll Demo.removeNothing 5 "a/b" Demo.demoState.
Proof.
  refine (proj1 (@rootRemoveAll_ignores_trailing_separators Demo.demoPlatform
                   Demo.removeNothing 5%nat "a/b"%string "///"%string
                   Demo.demoState _)).
  intros [|[|[|k]]] ch Hg; simpl in Hg; try discriminate;
    injection Hg as <-; reflexivity.
Defined.

Lemma operations_on_closed_root_witness :
  rootChmod Demo.neverEntered 5 "a/f" 420 Demo.closedState
  = Ok (Some (PathError "chmodat" "a/f" ErrClosed)) Demo.closedState.
Proof.
  refine (proj1 (@operations_on_closed_root Demo.demoPlatform unit Demo.closedState _)
            Demo.neverEntered 5%nat "a/f"%string 420).
  reflexivity.
Defined.

Lemma operation_errors_are_wrapped_witness :
  exists e s',
    rootRemove Demo.removeNothing 20 "up/gone" Demo.demoState = Ok (Some e) s'
    /\ wrapped "removeat" "up/gone" e.
Proof.
  eexists _, _. split; [vm_compute; reflexivity|].
  refine (proj1 (proj2 (proj2 (proj2 (proj2 (proj2 (proj2
            (@operation_errors_are_wrapped Demo.demoPlatform unit Demo.demoState
               _ _ demo_split_plain)))))))
            Demo.removeNothing 20%nat "up/gone"%string _).
  vm_compute. reflexivity.
Defined.

Lemma plain_path_is_a_descent_witness :
  @doInRoot Demo.plainPlatform string _ 2 "a/b" Demo.lkindAt Demo.plainState
  = (e <- incref;;
     match e with
     | Some err => ret (zero, Some err)
     | None =>
         res <- descend Demo.lkindAt 3 3 zero ["a"; "b"]%string EmptyString;;
         closeUnlessRoot 3 (snd res);;;
         decref;;;
         ret (fst res)
     end) Demo.plainState.
Proof.
  refine (@plain_path_is_a_descent Demo.plainPlatform string _ Demo.lkindAt 2%nat
            "a/b"%string ["a"; "b"]%string EmptyString Demo.plainState
            lkindAt_linkFree _ _ _ _).
  - vm_compute. reflexivity.
  - repeat constructor; discriminate.
  - lia.
  - simpl. lia.
Defined.

Lemma doInRoot_comes_to_an_end_witness :
  exists fuel,
    doInRoot fuel "up/a/b" Demo.kindAt Demo.demoState <> Timeout
    /\ forall fuel', (fuel <= fuel')%nat ->
         doInRoot fuel' "up/a/b" Demo.kindAt Demo.demoState
         = doInRoot fuel "up/a/b" Demo.kindAt Demo.demoState.
Proof.
  refine (@doInRoot_comes_to_an_end Demo.demoPlatform string _ Demo.kindAt
            "up/a/b"%string Demo.demoState _ kindAt_answers).
  vm_compute. reflexivity.
Defined.

(** Why [rootRemoveAll] is apart in X12: on the small platform
    [underlyingError] opens a [*PathError], so a leaf action that returns
    the signal of a link inside one has it come out of [rootRemoveAll]. *)
Lemma rootRemoveAll_unwraps_on_the_small_platform :
  exists s',
    @rootRemoveAll Demo.demoPlatform
      (fun _ _ s => Ok (Some (PathError "x" "y" (errSymlink "t"))) s)
      5 "a/f" Demo.demoState
    = Ok (Some (PathError "RemoveAll" "a/f" (errSymlink "t"))) s'.
Proof. eexists. vm_compute. reflexivity. Qed.
